(** * The bank example of the Cockroach client (examples/bank/bank.go)

    A shallow embedding of the ledger model (account identifiers, the
    JSON account record), of the transfer worker, of the balance check and
    of the part of the client API they call, followed by the properties
    of the harness. *)

From Stdlib Require Import ZArith Ascii String Bool Lia.
From Stdlib Require Import List.
Import ListNotations.

Local Open Scope Z_scope.

Set Warnings "-register-all".

(* ===================================================================== *)
(** ** Byte strings: Go's []byte with bytes.Equal and bytes.Compare      *)
(* ===================================================================== *)

Module Bytes.

Definition bytes := list ascii.

(** A Go string literal as a byte slice. *)
Definition lit (s : string) : bytes := list_ascii_of_string s.

(** The numeric value of a byte, and the byte of a value below 256. *)
Definition val (c : ascii) : Z := Z.of_N (N_of_ascii c).
Definition of_val (z : Z) : ascii := ascii_of_N (Z.to_N z).

(** bytes.Compare: lexicographic on unsigned bytes, a proper prefix is
    smaller. *)
Fixpoint compare (a b : bytes) : comparison :=
  match a, b with
  | [], [] => Eq
  | [], _ :: _ => Lt
  | _ :: _, [] => Gt
  | x :: a', y :: b' =>
      match Z.compare (val x) (val y) with
      | Eq => compare a' b'
      | c => c
      end
  end.

(** bytes.Equal. *)
Definition equal (a b : bytes) : bool :=
  match compare a b with Eq => true | _ => false end.

Definition lt (a b : bytes) : Prop := compare a b = Lt.

Definition ltb (a b : bytes) : bool :=
  match compare a b with Lt => true | _ => false end.

Definition leb (a b : bytes) : bool :=
  match compare a b with Gt => false | _ => true end.

(** The double quote, written by its code. *)
Definition dq : ascii := "034"%char.
(** The backslash. *)
Definition bs : ascii := "092"%char.

End Bytes.
Import Bytes.

(* ===================================================================== *)
(** ** Fixed-width integers: Go's int64 and int32 with wrap-around       *)
(* ===================================================================== *)

Module Int64.
Definition min : Z := - 2 ^ 63.
Definition max : Z := 2 ^ 63 - 1.
Definition in_range (z : Z) : Prop := min <= z <= max.
(** Two's complement wrap-around of a mathematical integer. *)
Definition wrap (z : Z) : Z := (z + 2 ^ 63) mod 2 ^ 64 - 2 ^ 63.
Definition add (a b : Z) : Z := wrap (a + b).
Definition sub (a b : Z) : Z := wrap (a - b).
Definition mul (a b : Z) : Z := wrap (a * b).
End Int64.

Module Int32.
Definition min : Z := - 2 ^ 31.
Definition max : Z := 2 ^ 31 - 1.
Definition in_range (z : Z) : Prop := min <= z <= max.
Definition wrap (z : Z) : Z := (z + 2 ^ 31) mod 2 ^ 32 - 2 ^ 31.
(** atomic.AddInt32 *)
Definition add (a b : Z) : Z := wrap (a + b).
End Int32.

(* ===================================================================== *)
(** ** Decimal formatting and parsing: strconv and fmt                   *)
(* ===================================================================== *)

Module Strconv.

(** The digit ['0' + d]. *)
Definition digit (d : Z) : ascii := of_val (48 + d).

Definition is_digit (c : ascii) : bool := (48 <=? val c) && (val c <=? 57).

(** The loop of strconv's formatBits in base 10: digits are produced
    from the least significant one and stored in front of [acc]; the
    loop runs while the value is at least 10, which for a 64-bit value
    is at most 20 rounds. *)
Fixpoint format_digits (rounds : nat) (u : Z) (acc : bytes) : bytes :=
  match rounds with
  | O => acc
  | S r =>
      if u <? 10 then digit u :: acc
      else format_digits r (u / 10) (digit (u mod 10) :: acc)
  end.

(** strconv.FormatUint(u, 10) for [0 <= u < 2^64]. *)
Definition FormatUint (u : Z) : bytes := format_digits 20 u [].

(** strconv.FormatInt(i, 10) (also strconv.AppendInt): a minus sign and
    the digits of the magnitude. *)
Definition FormatInt (i : Z) : bytes :=
  if i <? 0 then "-"%char :: FormatUint (- i) else FormatUint i.

(** The value of a run of decimal digits, most significant first;
    [None] when a byte is not a digit. *)
Fixpoint digits_value (s : bytes) (acc : Z) : option Z :=
  match s with
  | [] => Some acc
  | c :: r =>
      if is_digit c then digits_value r (acc * 10 + (val c - 48))
      else None
  end.

(** strconv.ParseUint(s, 10, 64): the empty string and a non-digit are
    syntax errors, a value of 2^64 or more is a range error; both are
    [None] here. *)
Definition ParseUint (s : bytes) : option Z :=
  match s with
  | [] => None
  | _ =>
      match digits_value s 0 with
      | Some u => if u <? 2 ^ 64 then Some u else None
      | None => None
      end
  end.

(** strconv.ParseInt(s, 10, 64): an optional sign, then ParseUint; the
    magnitude must fit the sign's half of the int64 range. *)
Definition ParseInt (s : bytes) : option Z :=
  match s with
  | [] => None
  | c :: r =>
      let neg := Ascii.eqb c "-" in
      let body := if neg || Ascii.eqb c "+" then r else s in
      match ParseUint body with
      | None => None
      | Some un =>
          if neg then (if un <=? 2 ^ 63 then Some (- un) else None)
          else (if un <? 2 ^ 63 then Some un else None)
      end
  end.

End Strconv.

Module Fmt.

(** [n] zero bytes. *)
Definition zeros (n : nat) : bytes := repeat "0"%char n.

(** The digits of [u] padded on the left with zeros to [prec] digits at
    least. *)
Definition pad_digits (prec : nat) (u : Z) : bytes :=
  let ds := Strconv.FormatUint u in
  zeros (prec - length ds) ++ ds.

(** fmt.Sprintf("%09d", id): with the zero flag the width 9 becomes the
    number of digits, one less when a sign is written; a value with more
    digits than that is written in full. *)
Definition Sprintf_09d (id : Z) : bytes :=
  if id <? 0 then "-"%char :: pad_digits 8 (- id)
  else pad_digits 9 id.

End Fmt.

(* ===================================================================== *)
(** ** encoding/json, as far as the Account record uses it               *)
(* ===================================================================== *)

(** Go's error values that reach the harness. *)
Inductive error : Type :=
| SyntaxError                     (* json: the input is not a JSON text *)
| UnmarshalTypeError              (* json: a value does not fit the field *)
| ClientError (code : Z).         (* an error reported by the store client *)

Module Json.

(** A JSON text after the syntax check.  A number keeps its literal and a
    string keeps the bytes between its quotes, escapes included. *)
Inductive value : Type :=
| Null
| Bool (b : bool)
| Number (literal : bytes)
| Str (raw : bytes)
| Array (elems : list value)
| Object (members : list (bytes * value)).

(** The scanner's isSpace. *)
Definition is_space (c : ascii) : bool :=
  Ascii.eqb c " " || Ascii.eqb c "009" || Ascii.eqb c "013"
  || Ascii.eqb c "010".

Fixpoint skip_space (s : bytes) : bytes :=
  match s with
  | c :: r => if is_space c then skip_space r else s
  | [] => []
  end.

Definition is_hex (c : ascii) : bool :=
  Strconv.is_digit c
  || ((97 <=? val c) && (val c <=? 102))
  || ((65 <=? val c) && (val c <=? 70)).

(** The bytes that may follow a backslash, [u] apart. *)
Definition is_simple_escape (c : ascii) : bool :=
  Ascii.eqb c dq || Ascii.eqb c bs || Ascii.eqb c "/" || Ascii.eqb c "b"
  || Ascii.eqb c "f" || Ascii.eqb c "n" || Ascii.eqb c "r"
  || Ascii.eqb c "t".

(** The body of a string, after its opening quote: the raw bytes up to
    the closing quote and the input after it.  A byte below 0x20 and a
    wrong escape are syntax errors. *)
Fixpoint scan_string (s : bytes) : option (bytes * bytes) :=
  match s with
  | [] => None
  | c :: r =>
      if Ascii.eqb c dq then Some ([], r)
      else if Ascii.eqb c bs then
        match r with
        | e :: r1 =>
            if is_simple_escape e then
              match scan_string r1 with
              | Some (raw, rest) => Some (c :: e :: raw, rest)
              | None => None
              end
            else if Ascii.eqb e "u" then
              match r1 with
              | h1 :: h2 :: h3 :: h4 :: r2 =>
                  if is_hex h1 && is_hex h2 && is_hex h3 && is_hex h4 then
                    match scan_string r2 with
                    | Some (raw, rest) =>
                        Some (c :: e :: h1 :: h2 :: h3 :: h4 :: raw, rest)
                    | None => None
                    end
                  else None
              | _ => None
              end
            else None
        | [] => None
        end
      else if val c <? 32 then None
      else
        match scan_string r with
        | Some (raw, rest) => Some (c :: raw, rest)
        | None => None
        end
  end.

(** The longest run of digits at the head of the input. *)
Fixpoint span_digits (s : bytes) : bytes * bytes :=
  match s with
  | c :: r =>
      if Strconv.is_digit c then
        let (ds, rest) := span_digits r in (c :: ds, rest)
      else ([], s)
  | [] => ([], [])
  end.

(** The integer part of a number: a single 0, or a digit 1-9 followed
    by digits. *)
Definition scan_int (s : bytes) : option (bytes * bytes) :=
  match s with
  | c :: r =>
      if Ascii.eqb c "0" then Some ([c], r)
      else if Strconv.is_digit c then
        let (ds, rest) := span_digits r in Some (c :: ds, rest)
      else None
  | [] => None
  end.

(** An optional fraction: a dot and at least one digit. *)
Definition scan_frac (s : bytes) : option (bytes * bytes) :=
  match s with
  | c :: r =>
      if Ascii.eqb c "." then
        match span_digits r with
        | ([], _) => None
        | (ds, rest) => Some (c :: ds, rest)
        end
      else Some ([], s)
  | [] => Some ([], [])
  end.

(** An optional exponent: e or E, an optional sign, at least one digit. *)
Definition scan_exp (s : bytes) : option (bytes * bytes) :=
  match s with
  | c :: r =>
      if Ascii.eqb c "e" || Ascii.eqb c "E" then
        let (sign, r1) :=
          match r with
          | g :: r' =>
              if Ascii.eqb g "+" || Ascii.eqb g "-" then ([g], r')
              else ([], r)
          | [] => ([], r)
          end in
        match span_digits r1 with
        | ([], _) => None
        | (ds, rest) => Some (c :: sign ++ ds, rest)
        end
      else Some ([], s)
  | [] => Some ([], [])
  end.

(** A number after its sign: integer part, fraction and exponent. *)
Definition scan_unsigned (sign s1 : bytes) : option (bytes * bytes) :=
  match scan_int s1 with
  | None => None
  | Some (ip, s2) =>
      match scan_frac s2 with
      | None => None
      | Some (fp, s3) =>
          match scan_exp s3 with
          | None => None
          | Some (ep, s4) => Some (sign ++ ip ++ fp ++ ep, s4)
          end
      end
  end.

(** A number: its literal and the input after it. *)
Definition scan_number (s : bytes) : option (bytes * bytes) :=
  match s with
  | c :: r =>
      if Ascii.eqb c "-" then scan_unsigned [c] r else scan_unsigned [] s
  | [] => None
  end.

(** The literals true, false and null. *)
Definition scan_literal (s : bytes) : option (value * bytes) :=
  match s with
  | "t" :: "r" :: "u" :: "e" :: r => Some (Bool true, r)
  | "f" :: "a" :: "l" :: "s" :: "e" :: r => Some (Bool false, r)
  | "n" :: "u" :: "l" :: "l" :: r => Some (Null, r)
  | _ => None
  end%char.

(** The deepest nesting of arrays and objects the scanner accepts
    (maxNestingDepth, Go 1.15 and later). *)
Definition maxNestingDepth : Z := 10000.

(** One value, with the white space before it, and the input after it.
    [depth] is the number of arrays and objects that are open; opening
    one more beyond maxNestingDepth is a syntax error.  [fuel] bounds
    the calls along one path; a call that succeeds needs no more fuel
    than the bytes it consumes, so [S (length s)] is enough (see
    [parse_adequate]). *)
Fixpoint parse_value (fuel : nat) (depth : Z) (s : bytes) {struct fuel}
  : option (value * bytes) :=
  match fuel with
  | O => None
  | S fuel' =>
      match skip_space s with
      | [] => None
      | c :: r =>
          if Ascii.eqb c "{" then
            if maxNestingDepth <=? depth then None
            else
              match skip_space r with
              | c1 :: r1 =>
                  if Ascii.eqb c1 "}" then Some (Object [], r1)
                  else
                    match parse_members fuel' (depth + 1) (c1 :: r1) with
                    | Some (ms, rest) => Some (Object ms, rest)
                    | None => None
                    end
              | [] => None
              end
          else if Ascii.eqb c "[" then
            if maxNestingDepth <=? depth then None
            else
              match skip_space r with
              | c1 :: r1 =>
                  if Ascii.eqb c1 "]" then Some (Array [], r1)
                  else
                    match parse_elements fuel' (depth + 1) (c1 :: r1) with
                    | Some (vs, rest) => Some (Array vs, rest)
                    | None => None
                    end
              | [] => None
              end
          else if Ascii.eqb c dq then
            match scan_string r with
            | Some (raw, rest) => Some (Str raw, rest)
            | None => None
            end
          else if Ascii.eqb c "-" || Strconv.is_digit c then
            match scan_number (c :: r) with
            | Some (l, rest) => Some (Number l, rest)
            | None => None
            end
          else scan_literal (c :: r)
      end
  end

(** The members of an object from a key on, up to the closing brace. *)
with parse_members (fuel : nat) (depth : Z) (s : bytes) {struct fuel}
  : option (list (bytes * value) * bytes) :=
  match fuel with
  | O => None
  | S fuel' =>
      match skip_space s with
      | c :: r =>
          if Ascii.eqb c dq then
            match scan_string r with
            | Some (key, r1) =>
                match skip_space r1 with
                | c2 :: r2 =>
                    if Ascii.eqb c2 ":" then
                      match parse_value fuel' depth r2 with
                      | Some (v, r3) =>
                          match skip_space r3 with
                          | c4 :: r4 =>
                              if Ascii.eqb c4 "}" then
                                Some ([(key, v)], r4)
                              else if Ascii.eqb c4 "," then
                                match parse_members fuel' depth r4 with
                                | Some (ms, rest) =>
                                    Some ((key, v) :: ms, rest)
                                | None => None
                                end
                              else None
                          | [] => None
                          end
                      | None => None
                      end
                    else None
                | [] => None
                end
            | None => None
            end
          else None
      | [] => None
      end
  end

(** The elements of an array from a value on, up to the closing
    bracket. *)
with parse_elements (fuel : nat) (depth : Z) (s : bytes) {struct fuel}
  : option (list value * bytes) :=
  match fuel with
  | O => None
  | S fuel' =>
      match parse_value fuel' depth s with
      | Some (v, r1) =>
          match skip_space r1 with
          | c2 :: r2 =>
              if Ascii.eqb c2 "]" then Some ([v], r2)
              else if Ascii.eqb c2 "," then
                match parse_elements fuel' depth r2 with
                | Some (vs, rest) => Some (v :: vs, rest)
                | None => None
                end
              else None
          | [] => None
          end
      | None => None
      end
  end.

(** checkValid and the scan of the whole input: one value, white space
    around it and nothing else. *)
Definition parse (data : bytes) : option value :=
  match parse_value (S (length data)) 0 data with
  | Some (v, rest) =>
      match skip_space rest with
      | [] => Some v
      | _ :: _ => None
      end
  | None => None
  end.

(** *** Decoding into a struct with one int64 field *)

Definition hex_val (c : ascii) : Z :=
  if Strconv.is_digit c then val c - 48
  else if 97 <=? val c then val c - 87
  else val c - 55.

(** getu4, on four bytes the scanner has accepted as hexadecimal. *)
Definition getu4 (h1 h2 h3 h4 : ascii) : Z :=
  ((hex_val h1 * 16 + hex_val h2) * 16 + hex_val h3) * 16 + hex_val h4.

(** unicode.ReplacementChar in UTF-8. *)
Definition replacement : bytes := [of_val 239; of_val 191; of_val 189].

(** utf8.EncodeRune *)
Definition encode_rune (r : Z) : bytes :=
  if r <? 128 then [of_val r]
  else if r <? 2048 then
    [of_val (192 + r / 64); of_val (128 + r mod 64)]
  else if ((55296 <=? r) && (r <? 57344)) || (1114111 <? r) then
    replacement
  else if r <? 65536 then
    [of_val (224 + r / 4096); of_val (128 + (r / 64) mod 64);
     of_val (128 + r mod 64)]
  else
    [of_val (240 + r / 262144); of_val (128 + (r / 4096) mod 64);
     of_val (128 + (r / 64) mod 64); of_val (128 + r mod 64)].

Definition unescape (e : ascii) : ascii :=
  if Ascii.eqb e "b" then "008"
  else if Ascii.eqb e "f" then "012"
  else if Ascii.eqb e "n" then "010"
  else if Ascii.eqb e "r" then "013"
  else if Ascii.eqb e "t" then "009"
  else e.

(** unquoteBytes on the raw bytes of a scanned string: escapes are
    replaced, a pair of surrogate escapes is one rune and a lone
    surrogate is the replacement rune.  Bytes outside escapes are copied;
    Go also replaces ill-formed UTF-8 among them by the replacement
    rune, which like the bytes it replaces has no byte below 0x80. *)
Fixpoint unquote (raw : bytes) : bytes :=
  match raw with
  | [] => []
  | c :: r =>
      if Ascii.eqb c bs then
        match r with
        | e :: r1 =>
            if Ascii.eqb e "u" then
              match r1 with
              | h1 :: h2 :: h3 :: h4 :: r2 =>
                  let rr := getu4 h1 h2 h3 h4 in
                  if (55296 <=? rr) && (rr <? 57344) then
                    match r2 with
                    | b2 :: u2 :: g1 :: g2 :: g3 :: g4 :: r3 =>
                        let rr1 := getu4 g1 g2 g3 g4 in
                        if Ascii.eqb b2 bs && Ascii.eqb u2 "u"
                           && is_hex g1 && is_hex g2 && is_hex g3
                           && is_hex g4
                           && (rr <? 56320)
                           && (56320 <=? rr1) && (rr1 <? 57344)
                        then
                          encode_rune
                            ((rr - 55296) * 1024 + (rr1 - 56320) + 65536)
                          ++ unquote r3
                        else replacement ++ unquote r2
                    | _ => replacement ++ unquote r2
                    end
                  else encode_rune rr ++ unquote r2
              | _ => []
              end
            else unescape e :: unquote r1
        | [] => []
        end
      else c :: unquote r
  end.

(** simpleLetterEqualFold, the folding json's foldFunc selects for a
    field name made of ASCII letters other than K and S, as Balance is:
    equal lengths and equal bytes once bit 0x20 is cleared. *)
Fixpoint simpleLetterEqualFold (s t : bytes) : bool :=
  match s, t with
  | [], [] => true
  | x :: s', y :: t' =>
      (Z.land (val x) 223 =? Z.land (val y) 223)
      && simpleLetterEqualFold s' t'
  | _, _ => false
  end.

(** The field lookup of d.object: an exact match, else a folded one. *)
Definition field_matches (name key : bytes) : bool :=
  equal name key || simpleLetterEqualFold name key.

(** d.saveError keeps the first error. *)
Definition saveError (saved new : option error) : option error :=
  match saved with
  | Some _ => saved
  | None => new
  end.

(** A value stored into a field of kind int64: null leaves the field as
    it is, a number must pass strconv.ParseInt, and every other value is
    an UnmarshalTypeError that leaves the field as it is. *)
Definition store_int64 (v : value) (cur : Z) : Z * option error :=
  match v with
  | Null => (cur, None)
  | Number l =>
      match Strconv.ParseInt l with
      | Some n => (n, None)
      | None => (cur, Some UnmarshalTypeError)
      end
  | _ => (cur, Some UnmarshalTypeError)
  end.

(** d.object on a struct whose only field is the int64 [name]: members
    are handled in order, a member of another name is skipped, and an
    error does not stop the decoding. *)
Fixpoint object_fields (name : bytes) (ms : list (bytes * value))
         (cur : Z) (saved : option error) : Z * option error :=
  match ms with
  | [] => (cur, saved)
  | (rawkey, v) :: ms' =>
      if field_matches name (unquote rawkey) then
        let (cur', e) := store_int64 v cur in
        object_fields name ms' cur' (saveError saved e)
      else object_fields name ms' cur saved
  end.

(** d.value on a pointer to such a struct. *)
Definition unmarshal_struct (name : bytes) (v : value) (cur : Z)
  : Z * option error :=
  match v with
  | Object ms => object_fields name ms cur None
  | Null => (cur, None)
  | _ => (cur, Some UnmarshalTypeError)
  end.

(** json.Unmarshal(data, p) for p a pointer to a struct with the single
    field [name] of type int64 holding [cur]: the field after the call
    and the error returned. *)
Definition Unmarshal (name : bytes) (data : bytes) (cur : Z)
  : Z * option error :=
  match parse data with
  | None => (cur, Some SyntaxError)
  | Some v => unmarshal_struct name v cur
  end.

(** json.Marshal of such a struct; it has no error case. *)
Definition Marshal (name : bytes) (n : Z) : bytes * option error :=
  ("{"%char :: dq :: name ++ dq :: ":"%char :: Strconv.FormatInt n
     ++ ["}"%char],
   None).

End Json.

(* ===================================================================== *)
(** ** The JSON grammar, on bytes                                        *)
(* ===================================================================== *)

(** The grammar of RFC 8259 as encoding/json applies it to bytes: a
    string may hold any byte from 0x20 on other than the quote and the
    backslash, and arrays and objects nest maxNestingDepth deep at
    most.  Each production gives the bytes of a value and the value the
    scanner builds for them. *)
Module Grammar.

(** ws = *( space / tab / line feed / carriage return ) *)
Definition ws (w : bytes) : Prop :=
  Forall (fun c => Json.is_space c = true) w.

(** *DIGIT *)
Definition digits (ds : bytes) : Prop :=
  Forall (fun c => Strconv.is_digit c = true) ds.

(** int = zero / ( digit1-9 *DIGIT ) *)
Inductive int : bytes -> Prop :=
| int_zero : int ["0"%char]
| int_nonzero c ds :
    Strconv.is_digit c = true -> c <> "0"%char -> digits ds ->
    int (c :: ds).

(** [ frac ], frac = decimal-point 1*DIGIT *)
Inductive frac : bytes -> Prop :=
| frac_none : frac []
| frac_some d ds :
    Strconv.is_digit d = true -> digits ds -> frac ("."%char :: d :: ds).

(** [ exp ], exp = e [ minus / plus ] 1*DIGIT *)
Inductive exp : bytes -> Prop :=
| exp_none : exp []
| exp_some e sign d ds :
    e = "e"%char \/ e = "E"%char ->
    sign = [] \/ sign = ["+"%char] \/ sign = ["-"%char] ->
    Strconv.is_digit d = true -> digits ds ->
    exp (e :: sign ++ d :: ds).

(** number = [ minus ] int [ frac ] [ exp ] *)
Inductive number : bytes -> Prop :=
| number_intro sign ip fp ep :
    sign = [] \/ sign = ["-"%char] -> int ip -> frac fp -> exp ep ->
    number (sign ++ ip ++ fp ++ ep).

(** *char: the bytes between the quotes of a string. *)
Inductive chars : bytes -> Prop :=
| chars_nil : chars []
| chars_plain c r :
    32 <= val c -> c <> dq -> c <> bs -> chars r -> chars (c :: r)
| chars_escape e r :
    Json.is_simple_escape e = true -> chars r -> chars (bs :: e :: r)
| chars_unicode h1 h2 h3 h4 r :
    Json.is_hex h1 = true -> Json.is_hex h2 = true ->
    Json.is_hex h3 = true -> Json.is_hex h4 = true -> chars r ->
    chars (bs :: "u"%char :: h1 :: h2 :: h3 :: h4 :: r).

(** value = false / null / true / object / array / number / string,
    inside [d] open arrays and objects;
    array = [ ws [ value ws *( , ws value ws ) ] ],
    object = { ws [ member ws *( , ws member ws ) ] },
    member = string ws : ws value. *)
Inductive value : Z -> bytes -> Json.value -> Prop :=
| value_null d : value d (lit "null") Json.Null
| value_true d : value d (lit "true") (Json.Bool true)
| value_false d : value d (lit "false") (Json.Bool false)
| value_number d l : number l -> value d l (Json.Number l)
| value_string d raw :
    chars raw -> value d (dq :: raw ++ [dq]) (Json.Str raw)
| value_empty_array d w :
    d < Json.maxNestingDepth -> ws w ->
    value d ("["%char :: w ++ ["]"%char]) (Json.Array [])
| value_array d s vs :
    d < Json.maxNestingDepth -> elements (d + 1) s vs ->
    value d ("["%char :: s ++ ["]"%char]) (Json.Array vs)
| value_empty_object d w :
    d < Json.maxNestingDepth -> ws w ->
    value d ("{"%char :: w ++ ["}"%char]) (Json.Object [])
| value_object d s ms :
    d < Json.maxNestingDepth -> members (d + 1) s ms ->
    value d ("{"%char :: s ++ ["}"%char]) (Json.Object ms)

with elements : Z -> bytes -> list Json.value -> Prop :=
| elements_last d w1 t w2 v :
    ws w1 -> value d t v -> ws w2 -> elements d (w1 ++ t ++ w2) [v]
| elements_more d w1 t w2 v s vs :
    ws w1 -> value d t v -> ws w2 -> elements d s vs ->
    elements d (w1 ++ t ++ w2 ++ ","%char :: s) (v :: vs)

with members : Z -> bytes -> list (bytes * Json.value) -> Prop :=
| members_last d w1 key w2 w3 t w4 v :
    ws w1 -> chars key -> ws w2 -> ws w3 -> value d t v -> ws w4 ->
    members d
      (w1 ++ dq :: key ++ dq :: w2 ++ ":"%char :: w3 ++ t ++ w4)
      [(key, v)]
| members_more d w1 key w2 w3 t w4 v s ms :
    ws w1 -> chars key -> ws w2 -> ws w3 -> value d t v -> ws w4 ->
    members d s ms ->
    members d
      (w1 ++ dq :: key ++ dq :: w2 ++ ":"%char :: w3 ++ t ++ w4
          ++ ","%char :: s)
      ((key, v) :: ms).

(** JSON-text = ws value ws *)
Definition text (data : bytes) (v : Json.value) : Prop :=
  exists w1 t w2,
    data = w1 ++ t ++ w2 /\ ws w1 /\ value 0 t v /\ ws w2.

(** What may follow a value: the end of the input, white space, a comma
    or a closing bracket or brace. *)
Definition delimited (rest : bytes) : Prop :=
  match rest with
  | [] => True
  | c :: _ =>
      Json.is_space c = true \/ c = ","%char \/ c = "]"%char
      \/ c = "}"%char
  end.

End Grammar.

Scheme value_mut := Minimality for Grammar.value Sort Prop
  with elements_mut := Minimality for Grammar.elements Sort Prop
  with members_mut := Minimality for Grammar.members Sort Prop.

Combined Scheme grammar_mutind from value_mut, elements_mut, members_mut.

(* ===================================================================== *)
(** ** The store client the harness calls                                *)
(* ===================================================================== *)

Module Client.

(** The contents of the store: rows in key order. *)
Definition store := list (bytes * bytes).

Fixpoint lookup (k : bytes) (st : store) : option bytes :=
  match st with
  | [] => None
  | (k', v) :: r => if equal k k' then Some v else lookup k r
  end.

Fixpoint insert (k v : bytes) (st : store) : store :=
  match st with
  | [] => [(k, v)]
  | (k', v') :: r =>
      match compare k k' with
      | Lt => (k, v) :: st
      | Eq => (k, v) :: r
      | Gt => (k', v') :: insert k v r
      end
  end.

(** client.KeyValue: a key and its value, absent for a key the store
    does not hold. *)
Record Row := { Key : bytes; Value : option bytes }.

(** Row.ValueBytes: the empty slice for an absent value. *)
Definition ValueBytes (r : Row) : bytes :=
  match Value r with
  | Some v => v
  | None => []
  end.

(** client.Result *)
Record Result := { Err : option error; Rows : list Row }.

(** The calls a batch collects: Batch.Get(keys...) is one call with one
    result of as many rows as keys, Batch.Put(key, value) is one call
    with one result of one row. *)
Inductive Call : Type :=
| Get (keys : list bytes)
| Put (key value : bytes).

Definition Batch := list Call.

(** What the harness needs of a database or transaction handle:
    client.Runner's Run, which returns the batch's results and its
    error, and the Scan that DB and Tx both have; each also returns the
    contents of the store after the call.  [Commit] is the error, if
    any, with which the client ends a transaction whose closure has
    returned none. *)
Record Runner := {
  Run : Batch -> store -> (option error * list Result) * store;
  Scan : bytes -> bytes -> Z -> store -> Result * store;
  Commit : store -> option error
}.

Definition run_call (c : Call) (st : store) : Result * store :=
  match c with
  | Get keys =>
      ({| Err := None;
          Rows := map (fun k => {| Key := k; Value := lookup k st |}) keys |},
       st)
  | Put k v =>
      ({| Err := None; Rows := [{| Key := k; Value := Some v |}] |},
       insert k v st)
  end.

Fixpoint run_batch (b : Batch) (st : store) : list Result * store :=
  match b with
  | [] => ([], st)
  | c :: b' =>
      let (r, st1) := run_call c st in
      let (rs, st2) := run_batch b' st1 in
      (r :: rs, st2)
  end.

Definition in_range (start stop : bytes) (kv : bytes * bytes) : bool :=
  leb start (fst kv) && ltb (fst kv) stop.

Definition scan_rows (start stop : bytes) (limit : Z) (st : store)
  : list Row :=
  firstn (Z.to_nat limit)
    (map (fun kv => {| Key := fst kv; Value := Some (snd kv) |})
       (filter (in_range start stop) st)).

(** Modelled from the spec: the store client (package client is not
    among the sources).  get returns one row per requested key, in
    order, empty for an absent key; put stores a value under a key;
    scanRange returns the rows with [start <= key < stop] in key
    order, [limit] of them at most; a read leaves the store as it is.
    This store reports no error. *)
Definition memory : Runner :=
  {| Run := fun b st => let (rs, st') := run_batch b st in ((None, rs), st');
     Scan := fun start stop limit st =>
               ({| Err := None; Rows := scan_rows start stop limit st |},
                st);
     Commit := fun _ => None |}.

End Client.
Import Client.

(* ===================================================================== *)
(** ** The bank                                                          *)
(* ===================================================================== *)

(** How the process ends when it does: log.Fatal with an error,
    log.Fatalf of sumAllAccounts, log.Fatal of the balance check, and a
    run-time panic on an index out of range. *)
Inductive fatal : Type :=
| FatalError (e : error)
| FatalRows (read expected : Z)
| FatalTotalCash (totalAmount : Z)
| PanicIndex.

(** A call either returns or ends the process. *)
Inductive outcome (A : Type) : Type :=
| Done (a : A)
| Fatal (f : fatal).
Arguments Done {A} a.
Arguments Fatal {A} f.

(** The lines the balance check prints. *)
Inductive output : Type :=
| TransfersExecuted (n : Z)     (* "%d transfers were executed." *)
| GoodOrder.                    (* "The bank is in good order" *)

Definition makeAccountID (id : Z) : bytes := Fmt.Sprintf_09d id.

(** Bank: [db] is the contents of the database behind the handle. *)
Record Bank := { db : store; numAccounts : Z; numTransfers : Z }.

Record Account := { Balance : Z }.

Definition field_Balance : bytes := lit "Balance".

Definition encode (a : Account) : bytes * option error :=
  Json.Marshal field_Balance (Balance a).

(** The receiver after the call, and the error. *)
Definition decode (a : Account) (b : bytes) : Account * option error :=
  let (n, err) := Json.Unmarshal field_Balance b (Balance a) in
  ({| Balance := n |}, err).

(** The zero value [&Account{}]. *)
Definition newAccount : Account := {| Balance := 0 |}.

Section WithClient.

(** The client behind bank.db and behind the transactions it opens. *)
Variable runner : Runner.

(** Modelled from the spec: DB.Tx (the spec's runAtomic; package client
    is not among the sources).  The writes of the closure are visible
    together when the closure returns no error and the client commits,
    and not at all when either reports an error; the error is returned
    to the caller.  One run at a time has no conflict to retry. *)
Definition Tx {A : Type}
  (retryable : store -> outcome (A * option error * store)) (st : store)
  : outcome (A * option error * store) :=
  match retryable st with
  | Fatal f => Fatal f
  | Done (a, Some e, _) => Done (a, Some e, st)
  | Done (a, None, st') =>
      match Commit runner st' with
      | Some e => Done (a, Some e, st)
      | None => Done (a, None, st')
      end
  end.

(** The loop of sumAllAccounts, [n] rounds from index [i]. *)
Fixpoint sumRows (n : nat) (i : nat) (rows : list Row) (result : Z)
  : outcome Z :=
  match n with
  | O => Done result
  | S n' =>
      match nth_error rows i with
      | None => Fatal PanicIndex
      | Some row =>
          let (account, err) := decode newAccount (ValueBytes row) in
          match err with
          | Some e => Fatal (FatalError e)
          | None =>
              sumRows n' (S i) rows (Int64.add result (Balance account))
          end
      end
  end.

(** The closure sumAllAccounts runs in a transaction: the sum, and the
    store after the scan. *)
Definition sumAllAccounts_tx (bank : Bank) (st : store)
  : outcome (Z * option error * store) :=
  let (scan, st1) :=
    Scan runner (makeAccountID 0) (makeAccountID (numAccounts bank))
      (numAccounts bank) st in
  match Err scan with
  | Some e => Fatal (FatalError e)
  | None =>
      if negb (Z.of_nat (length (Rows scan)) =? numAccounts bank) then
        Fatal (FatalRows (Z.of_nat (length (Rows scan))) (numAccounts bank))
      else
        match sumRows (Z.to_nat (numAccounts bank)) 0 (Rows scan) 0 with
        | Fatal f => Fatal f
        | Done result => Done (result, None, st1)
        end
  end.

(** sumAllAccounts: the sum it returns and the store after it. *)
Definition sumAllAccounts (bank : Bank) : outcome (Z * store) :=
  match Tx (sumAllAccounts_tx bank) (db bank) with
  | Fatal f => Fatal f
  | Done (_, Some e, _) => Fatal (FatalError e)
  | Done (result, None, st) => Done (result, st)
  end.

(** The closure transferMoney of continuousMoneyTransfer, over the
    runner it is given. *)
Definition transferMoney (from to : bytes) (exchangeAmount : Z)
  (st : store) : outcome (unit * option error * store) :=
  let batchRead := [Get [from; to]] in
  let '(err, results, st1) := Run runner batchRead st in
  match err with
  | Some e => Done (tt, Some e, st1)
  | None =>
  match nth_error results 0 with
  | None => Fatal PanicIndex
  | Some res0 =>
  match Err res0 with
  | Some e => Done (tt, Some e, st1)
  | None =>
  match nth_error (Rows res0) 0 with
  | None => Fatal PanicIndex
  | Some row0 =>
  let (fromAccount, err) := decode newAccount (ValueBytes row0) in
  match err with
  | Some e => Done (tt, Some e, st1)
  | None =>
  if Balance fromAccount <? exchangeAmount then Done (tt, None, st1)
  else
  match nth_error (Rows res0) 1 with
  | None => Fatal PanicIndex
  | Some row1 =>
  let (toAccount, errRead) := decode newAccount (ValueBytes row1) in
  match errRead with
  | Some e => Done (tt, Some e, st1)
  | None =>
  let fromAccount' :=
    {| Balance := Int64.sub (Balance fromAccount) exchangeAmount |} in
  let toAccount' :=
    {| Balance := Int64.add (Balance toAccount) exchangeAmount |} in
  let (fromValue, err) := encode fromAccount' in
  match err with
  | Some e => Done (tt, Some e, st1)
  | None =>
  let (toValue, err) := encode toAccount' in
  match err with
  | Some e => Done (tt, Some e, st1)
  | None =>
  let batchWrite := [Put fromValue toValue] in
  let '(err, _, st2) := Run runner batchWrite st1 in
  Done (tt, err, st2)
  end end end end end end end end end.

(** One round of the loop of continuousMoneyTransfer, given its three
    random draws: rand.Intn(bank.numAccounts) twice and
    rand.Int63n(100). *)
Definition continuousMoneyTransfer (useTransaction : bool) (bank : Bank)
  (draw_from draw_to : Z) (exchangeAmount : Z) : outcome Bank :=
  let from := makeAccountID draw_from in
  let to := makeAccountID draw_to in
  if equal from to then Done bank
  else
    let attempt :=
      if useTransaction then Tx (transferMoney from to exchangeAmount) (db bank)
      else transferMoney from to exchangeAmount (db bank) in
    match attempt with
    | Fatal f => Fatal f
    | Done (_, Some e, _) => Fatal (FatalError e)
    | Done (_, None, st) =>
        Done {| db := st;
                numAccounts := numAccounts bank;
                numTransfers := Int32.add (numTransfers bank) 1 |}
    end.

(** The batch initBankAccounts builds: one Put per index below [n]. *)
Definition init_batch (n : nat) (value : bytes) : Batch :=
  map (fun i => Put (makeAccountID (Z.of_nat i)) value) (seq 0 n).

Definition initBankAccounts (bank : Bank) (cash : Z) : outcome Bank :=
  let account := {| Balance := cash |} in
  let (value, err) := encode account in
  match err with
  | Some e => Fatal (FatalError e)
  | None =>
      let batch := init_batch (Z.to_nat (numAccounts bank)) value in
      let '(err, _, st) := Run runner batch (db bank) in
      match err with
      | Some e => Fatal (FatalError e)
      | None =>
          Done {| db := st;
                  numAccounts := numAccounts bank;
                  numTransfers := numTransfers bank |}
      end
  end.

(** One round of the loop of periodicallyCheckBalances, after its
    sleep: the lines printed and the bank after the round. *)
Definition periodicallyCheckBalances (bank : Bank) (initCash : Z)
  : outcome (list output * Bank) :=
  let line1 := TransfersExecuted (numTransfers bank) in
  match sumAllAccounts bank with
  | Fatal f => Fatal f
  | Done (totalAmount, st) =>
      if negb (totalAmount =? Int64.mul (numAccounts bank) initCash) then
        Fatal (FatalTotalCash totalAmount)
      else
        Done ([line1; GoodOrder],
              {| db := st;
                 numAccounts := numAccounts bank;
                 numTransfers := numTransfers bank |})
  end.

End WithClient.

(** The balance a store holds for an account index, when the record
    under its identifier decodes. *)
Definition balanceOf (st : store) (id : Z) : option Z :=
  match lookup (makeAccountID id) st with
  | None => None
  | Some v =>
      match decode newAccount v with
      | (a, None) => Some (Balance a)
      | (_, Some _) => None
      end
  end.

(** The balances of the accounts 0 to n-1. *)
Definition balances (st : store) (n : nat) : list (option Z) :=
  map (fun i => balanceOf st (Z.of_nat i)) (seq 0 n).

(** A bank of [n] accounts after initBankAccounts on the empty store. *)
Definition freshBank (n : Z) : Bank :=
  {| db := []; numAccounts := n; numTransfers := 0 |}.

(* ===================================================================== *)
(** ** Functions of the statements                                       *)
(* ===================================================================== *)

(** The [n] low decimal digits of [u], most significant first. *)
Fixpoint dec (n : nat) (u : Z) : bytes :=
  match n with
  | O => []
  | S n' => dec n' (u / 10) ++ [Strconv.digit (u mod 10)]
  end.

(** The int64 sum of a list of balances, as the loop of sumAllAccounts
    accumulates it. *)
Definition sum64 (bs : list Z) : Z := fold_left Int64.add bs 0.

(** The balances of scanned rows, when every row decodes. *)
Fixpoint decodeRows (rows : list Row) : option (list Z) :=
  match rows with
  | [] => Some []
  | row :: rows' =>
      match decode newAccount (ValueBytes row) with
      | (a, None) =>
          match decodeRows rows' with
          | Some bs => Some (Balance a :: bs)
          | None => None
          end
      | (_, Some _) => None
      end
  end.

(** The record of a balance as the harness stores it. *)
Definition record (balance : Z) : bytes :=
  fst (encode {| Balance := balance |}).

(** A store holding the given balances under the identifiers 0, 1, ... *)
Fixpoint ledger (i : nat) (bs : list Z) : store :=
  match bs with
  | [] => []
  | b :: bs' =>
      insert (makeAccountID (Z.of_nat i)) (record b) (ledger (S i) bs')
  end.

(** A bank over such a store. *)
Definition bankOf (bs : list Z) : Bank :=
  {| db := ledger 0 bs;
     numAccounts := Z.of_nat (length bs);
     numTransfers := 0 |}.

(** The bytes a batch read returns for a key. *)
Definition read (st : store) (k : bytes) : bytes :=
  ValueBytes {| Key := k; Value := lookup k st |}.

(** A value json stores into an int64 field without error: null, or a
    number that strconv.ParseInt accepts. *)
Definition int64_value (v : Json.value) : bool :=
  match v with
  | Json.Null => true
  | Json.Number l =>
      match Strconv.ParseInt l with
      | Some _ => true
      | None => false
      end
  | _ => false
  end.

(** A member's key selects the field Balance. *)
Definition names_Balance (member : bytes * Json.value) : bool :=
  Json.field_matches field_Balance (Json.unquote (fst member)).

(** A member that is not Balance, or holds such a value. *)
Definition acceptable_member (member : bytes * Json.value) : bool :=
  if names_Balance member then int64_value (snd member) else true.

(** The JSON values json decodes into a struct: an object, or null. *)
Definition object_or_null (v : Json.value) : bool :=
  match v with
  | Json.Object _ | Json.Null => true
  | _ => false
  end.

(** [n] arrays, one inside the other, around [inner]. *)
Definition nested (n : nat) (inner : bytes) : bytes :=
  repeat "["%char n ++ inner ++ repeat "]"%char n.

(** Keys strictly increasing: the store's order. *)
Fixpoint sorted (st : store) : Prop :=
  match st with
  | [] => True
  | (k, _) :: r =>
      match r with
      | [] => True
      | (k', _) :: _ => Bytes.lt k k'
      end /\ sorted r
  end.

(** Scenario A: three accounts of 1000 each. *)
Definition scenarioA : Bank := bankOf [1000; 1000; 1000].

(** Scenario B: the source account holds 50. *)
Definition scenarioB : Bank := bankOf [50; 1000].

(** Scenario D: four accounts expected, the store holds three. *)
Definition scenarioD : Bank :=
  {| db := db scenarioA; numAccounts := 4; numTransfers := 0 |}.

(** A client whose scan returns one row more than the in-memory store
    holds in the range, whatever the limit. *)
Definition overfull : Runner :=
  {| Run := Run memory;
     Commit := Commit memory;
     Scan := fun start stop limit st =>
               ({| Err := None;
                   Rows := {| Key := start; Value := Some (record 0) |}
                           :: scan_rows start stop (Z.of_nat (length st)) st |},
                st) |}.

(** A client that reads and writes as the in-memory store does, and
    ends every transaction with an error. *)
Definition uncommitted : Runner :=
  {| Run := Run memory;
     Scan := Scan memory;
     Commit := fun _ => Some (ClientError 1) |}.

(** The number of accounts main configures. *)
Definition main_numAccounts : Z := 10.
(** The starting balance main configures. *)
Definition main_initCash : Z := 1000.

(** What a run interleaves: one round of a transfer worker, with its
    three random draws, or one round of the balance check. *)
Inductive event : Type :=
| Transfer (draw_from draw_to exchangeAmount : Z)
| CheckBalances.

(** The loops of continuousMoneyTransfer and periodicallyCheckBalances
    over a finite schedule whose rounds do not overlap: the rounds run
    one after the other, the first fatal one ends the run, and the lines
    of the balance checks are collected in order. *)
Fixpoint run (runner : Runner) (useTransaction : bool) (initCash : Z)
  (schedule : list event) (bank : Bank) : outcome (list output * Bank) :=
  match schedule with
  | [] => Done ([], bank)
  | Transfer draw_from draw_to exchangeAmount :: rest =>
      match continuousMoneyTransfer runner useTransaction bank draw_from
              draw_to exchangeAmount with
      | Fatal f => Fatal f
      | Done bank' => run runner useTransaction initCash rest bank'
      end
  | CheckBalances :: rest =>
      match periodicallyCheckBalances runner bank initCash with
      | Fatal f => Fatal f
      | Done (lines, bank') =>
          match run runner useTransaction initCash rest bank' with
          | Fatal f => Fatal f
          | Done (lines', bank'') => Done (lines ++ lines', bank'')
          end
      end
  end.

(** main, from the bank over the store of the test server: the accounts
    are initialised, then the workers and the balance check run. *)
Definition main (runner : Runner) (useTransaction : bool) (st : store)
  (schedule : list event) : outcome (list output * Bank) :=
  let bank := {| db := st; numAccounts := main_numAccounts;
                 numTransfers := 0 |} in
  match initBankAccounts runner bank main_initCash with
  | Fatal f => Fatal f
  | Done bank' => run runner useTransaction main_initCash schedule bank'
  end.

(** The draws of a schedule are account indices below [n]. *)
Definition draws_below (n : Z) (e : event) : Prop :=
  match e with
  | Transfer draw_from draw_to _ =>
      0 <= draw_from < n /\ 0 <= draw_to < n
  | CheckBalances => True
  end.

(** The number of balance checks in a schedule. *)
Definition checks (schedule : list event) : nat :=
  length (filter (fun e => match e with CheckBalances => true | _ => false end)
            schedule).

(** The state the harness keeps: [n] accounts, each record holding
    [cash], and a scan of the account range that returns one row per
    account, all decodable, with the sum the balance check expects. *)
Definition consistent (n cash : Z) (bank : Bank) : Prop :=
  numAccounts bank = n /\
  (forall id, 0 <= id < n -> balanceOf (db bank) id = Some cash) /\
  exists bs,
    Z.of_nat (length (scan_rows (makeAccountID 0) (makeAccountID n) n
                        (db bank))) = n /\
    decodeRows (scan_rows (makeAccountID 0) (makeAccountID n) n (db bank))
    = Some bs /\
    sum64 bs = Int64.mul n cash.

(** The rows of the accounts 0 to n-1 holding [cash] each. *)
Definition account_rows (n : nat) (cash : Z) : store :=
  map (fun i => (makeAccountID (Z.of_nat i), record cash)) (seq 0 n).

(* ===================================================================== *)
(** ** Facts about byte strings                                          *)
(* ===================================================================== *)

Lemma val_range (c : ascii) : 0 <= val c < 256.
Proof.
  unfold val. pose proof (N_ascii_bounded c). lia.
Qed.

Lemma val_of_val (z : Z) : 0 <= z < 256 -> val (of_val z) = z.
Proof.
  intros H. unfold val, of_val.
  rewrite N_ascii_embedding by lia. lia.
Qed.

Lemma val_inj (a b : ascii) : val a = val b -> a = b.
Proof.
  unfold val. intros H.
  apply N2Z.inj in H.
  rewrite <- (ascii_N_embedding a), <- (ascii_N_embedding b).
  now rewrite H.
Qed.

Lemma compare_refl (a : bytes) : compare a a = Eq.
Proof.
  induction a as [|x a IH]; simpl; [reflexivity|].
  now rewrite Z.compare_refl.
Qed.

Lemma compare_eq (a b : bytes) : compare a b = Eq -> a = b.
Proof.
  revert b. induction a as [|x a IH]; intros [|y b]; simpl; try discriminate.
  - reflexivity.
  - destruct (Z.compare_spec (val x) (val y)) as [E| |]; try discriminate.
    intros H. apply val_inj in E. apply IH in H. now subst.
Qed.

Lemma equal_true (a b : bytes) : equal a b = true <-> a = b.
Proof.
  unfold equal. split.
  - destruct (compare a b) eqn:E; try discriminate.
    intros _. now apply compare_eq.
  - intros ->. now rewrite compare_refl.
Qed.

Lemma equal_false (a b : bytes) : equal a b = false <-> a <> b.
Proof.
  rewrite <- equal_true. destruct (equal a b); split; congruence.
Qed.

Lemma compare_app_same (a x y : bytes) :
  compare (a ++ x) (a ++ y) = compare x y.
Proof.
  induction a as [|c a IH]; simpl; [reflexivity|].
  now rewrite Z.compare_refl.
Qed.

Lemma compare_app_lt (a b x y : bytes) :
  length a = length b -> compare a b = Lt -> compare (a ++ x) (b ++ y) = Lt.
Proof.
  revert b. induction a as [|c a IH]; intros [|d b]; simpl; try discriminate.
  intros L. injection L as L.
  destruct (val c ?= val d); try discriminate; auto.
Qed.

(* ===================================================================== *)
(** ** Facts about decimal digits                                        *)
(* ===================================================================== *)

Lemma val_digit (d : Z) : 0 <= d <= 9 -> val (Strconv.digit d) = 48 + d.
Proof.
  intros H. unfold Strconv.digit. apply val_of_val. lia.
Qed.

Lemma is_digit_digit (d : Z) :
  0 <= d <= 9 -> Strconv.is_digit (Strconv.digit d) = true.
Proof.
  intros H. unfold Strconv.is_digit. rewrite val_digit by assumption.
  apply andb_true_iff. split; apply Z.leb_le; lia.
Qed.

Lemma length_dec (n : nat) (u : Z) : length (dec n u) = n.
Proof.
  revert u. induction n as [|n IH]; intros u; simpl; [reflexivity|].
  rewrite length_app, IH. simpl. lia.
Qed.

Lemma dec_zero (m : nat) : dec m 0 = Fmt.zeros m.
Proof.
  induction m as [|m IH]; simpl; [reflexivity|].
  change (0 / 10) with 0. rewrite IH.
  unfold Fmt.zeros. change (Strconv.digit (0 mod 10)) with "0"%char.
  now rewrite <- repeat_cons.
Qed.

Lemma dec_pad (m k : nat) (u : Z) :
  0 <= u < 10 ^ Z.of_nat k -> Fmt.zeros m ++ dec k u = dec (m + k) u.
Proof.
  revert u. induction k as [|k IH]; intros u H.
  - change (10 ^ Z.of_nat 0) with 1 in H. assert (u = 0) by lia. subst u.
    rewrite Nat.add_0_r. simpl. now rewrite app_nil_r, dec_zero.
  - rewrite Nat.add_succ_r. simpl. rewrite app_assoc, IH; [reflexivity|].
    rewrite Nat2Z.inj_succ, Z.pow_succ_r in H by lia.
    split; [apply Z.div_pos; lia|].
    apply Z.div_lt_upper_bound; lia.
Qed.

(** The digits strconv produces are the [k] digits of the value, [k] its
    number of decimal digits. *)
Lemma format_digits_dec (rounds : nat) :
  forall (u : Z) (acc : bytes),
    0 <= u < 10 ^ Z.of_nat rounds -> (0 < rounds)%nat ->
    exists k : nat,
      (1 <= k <= rounds)%nat /\ u < 10 ^ Z.of_nat k /\
      ((1 < k)%nat -> 10 ^ (Z.of_nat k - 1) <= u) /\
      Strconv.format_digits rounds u acc = dec k u ++ acc.
Proof.
  induction rounds as [|r IH]; intros u acc Hu Hr; [lia|].
  simpl. destruct (Z.ltb_spec u 10) as [Hlt|Hge].
  - exists 1%nat. repeat split; try lia.
    simpl. rewrite Z.mod_small by lia. reflexivity.
  - rewrite Nat2Z.inj_succ, Z.pow_succ_r in Hu by lia.
    assert (Hr' : (0 < r)%nat).
    { destruct r; [change (10 ^ Z.of_nat 0) with 1 in Hu; lia | lia]. }
    assert (Hq : 0 <= u / 10 < 10 ^ Z.of_nat r).
    { split; [apply Z.div_pos; lia|]. apply Z.div_lt_upper_bound; lia. }
    destruct (IH (u / 10) (Strconv.digit (u mod 10) :: acc) Hq Hr')
      as (k & Hk & Hub & Hlb & E).
    exists (S k). repeat split; try lia.
    + rewrite Nat2Z.inj_succ, Z.pow_succ_r by lia.
      pose proof (Z.div_mod u 10 ltac:(lia)).
      pose proof (Z.mod_pos_bound u 10 ltac:(lia)). lia.
    + intros _. replace (Z.of_nat (S k) - 1) with (Z.of_nat k) by lia.
      destruct (Nat.eq_dec k 1) as [->|Hk1].
      * simpl. lia.
      * specialize (Hlb ltac:(lia)).
        replace (Z.of_nat k) with (Z.succ (Z.of_nat k - 1)) by lia.
        rewrite Z.pow_succ_r by lia.
        pose proof (Z.div_mod u 10 ltac:(lia)).
        pose proof (Z.mod_pos_bound u 10 ltac:(lia)). lia.
    + rewrite E. simpl. now rewrite <- app_assoc.
Qed.

Lemma pow10_digits (k n : nat) (u : Z) :
  ((1 < k)%nat -> 10 ^ (Z.of_nat k - 1) <= u) -> u < 10 ^ Z.of_nat n ->
  (1 <= k)%nat -> (1 <= n)%nat -> (k <= n)%nat.
Proof.
  intros Hlb Hub Hk Hn.
  destruct (Nat.le_gt_cases k n) as [|Hgt]; [assumption|exfalso].
  specialize (Hlb ltac:(lia)).
  assert (10 ^ Z.of_nat n <= 10 ^ (Z.of_nat k - 1)).
  { apply Z.pow_le_mono_r; lia. }
  lia.
Qed.

(** Below 10^9 the identifier is the nine digits of the index. *)
Lemma makeAccountID_dec (id : Z) :
  0 <= id < 10 ^ 9 -> makeAccountID id = dec 9 id.
Proof.
  intros H. unfold makeAccountID, Fmt.Sprintf_09d.
  destruct (Z.ltb_spec id 0); [lia|].
  unfold Fmt.pad_digits, Strconv.FormatUint.
  destruct (format_digits_dec 20 id [])
    as (k & Hk & Hub & Hlb & E); [simpl; lia | lia |].
  rewrite E, app_nil_r, length_dec.
  assert (k <= 9)%nat by (apply (pow10_digits k 9 id); simpl; lia).
  rewrite dec_pad by lia.
  replace (9 - k + k)%nat with 9%nat by lia. reflexivity.
Qed.

Lemma dec_lt (n : nat) :
  forall i j : Z,
    0 <= i -> i < j -> j < 10 ^ Z.of_nat n ->
    compare (dec n i) (dec n j) = Lt.
Proof.
  induction n as [|n IH]; intros i j Hi Hij Hj.
  - change (10 ^ Z.of_nat 0) with 1 in Hj. lia.
  - simpl. rewrite Nat2Z.inj_succ, Z.pow_succ_r in Hj by lia.
    pose proof (Z.div_mod i 10 ltac:(lia)) as Di.
    pose proof (Z.div_mod j 10 ltac:(lia)) as Dj.
    pose proof (Z.mod_pos_bound i 10 ltac:(lia)) as Bi.
    pose proof (Z.mod_pos_bound j 10 ltac:(lia)) as Bj.
    destruct (Z.lt_trichotomy (i / 10) (j / 10)) as [Hlt|[Heq|Hgt]].
    + apply compare_app_lt; [now rewrite !length_dec|].
      apply IH; lia.
    + rewrite Heq, compare_app_same. simpl.
      rewrite !val_digit by lia.
      assert (L : i mod 10 < j mod 10) by lia.
      destruct (Z.compare_spec (48 + i mod 10) (48 + j mod 10)); trivial; lia.
    + lia.
Qed.

Lemma dec_all_digits (n : nat) (u : Z) :
  Forall (fun c => Strconv.is_digit c = true) (dec n u).
Proof.
  revert u. induction n as [|n IH]; intros u; simpl; [constructor|].
  apply Forall_app. split; [apply IH|].
  constructor; [|constructor].
  apply is_digit_digit. pose proof (Z.mod_pos_bound u 10 ltac:(lia)). lia.
Qed.

(** The digits from the most significant one. *)
Lemma dec_head (n : nat) (u : Z) :
  dec (S n) u = Strconv.digit ((u / 10 ^ Z.of_nat n) mod 10) :: dec n u.
Proof.
  revert u. induction n as [|n IH]; intros u.
  - simpl. now rewrite Z.div_1_r.
  - change (dec (S (S n)) u)
      with (dec (S n) (u / 10) ++ [Strconv.digit (u mod 10)]).
    rewrite IH.
    rewrite (Nat2Z.inj_succ n), Z.pow_succ_r by lia.
    rewrite Z.div_div by lia. reflexivity.
Qed.

Lemma digits_value_app (x y : bytes) (a : Z) :
  Strconv.digits_value (x ++ y) a =
  match Strconv.digits_value x a with
  | Some a' => Strconv.digits_value y a'
  | None => None
  end.
Proof.
  revert a. induction x as [|c x IH]; intros a; simpl; [reflexivity|].
  destruct (Strconv.is_digit c); [apply IH | reflexivity].
Qed.

Lemma digits_value_dec (n : nat) :
  forall u a : Z,
    0 <= u < 10 ^ Z.of_nat n ->
    Strconv.digits_value (dec n u) a = Some (a * 10 ^ Z.of_nat n + u).
Proof.
  induction n as [|n IH]; intros u a H.
  - change (10 ^ Z.of_nat 0) with 1 in *. simpl. f_equal. lia.
  - rewrite Nat2Z.inj_succ, Z.pow_succ_r in * by lia.
    pose proof (Z.div_mod u 10 ltac:(lia)) as D.
    pose proof (Z.mod_pos_bound u 10 ltac:(lia)) as B.
    cbn [dec]. rewrite digits_value_app, IH.
    + cbn [Strconv.digits_value].
      rewrite is_digit_digit, val_digit by lia. f_equal. lia.
    + split; [apply Z.div_pos; lia|]. apply Z.div_lt_upper_bound; lia.
Qed.

Lemma FormatUint_dec (u : Z) :
  0 <= u < 2 ^ 64 ->
  exists k : nat,
    (1 <= k)%nat /\ u < 10 ^ Z.of_nat k /\
    ((1 < k)%nat -> 10 ^ (Z.of_nat k - 1) <= u) /\
    Strconv.FormatUint u = dec k u.
Proof.
  intros H. unfold Strconv.FormatUint.
  destruct (format_digits_dec 20 u []) as (k & Hk & Hub & Hlb & E).
  - simpl. lia.
  - lia.
  - exists k. rewrite E, app_nil_r. repeat split; try assumption; lia.
Qed.

Lemma ParseUint_FormatUint (u : Z) :
  0 <= u < 2 ^ 64 -> Strconv.ParseUint (Strconv.FormatUint u) = Some u.
Proof.
  intros H. destruct (FormatUint_dec u H) as (k & Hk & Hub & _ & E).
  rewrite E. unfold Strconv.ParseUint.
  rewrite digits_value_dec by lia.
  destruct (dec k u) eqn:D.
  - apply (f_equal (@length ascii)) in D. rewrite length_dec in D.
    simpl in D. lia.
  - replace (0 * 10 ^ Z.of_nat k + u) with u by lia.
    destruct (Z.ltb_spec u (2 ^ 64)); [reflexivity | lia].
Qed.

Lemma digit_not_sign (c : ascii) :
  Strconv.is_digit c = true ->
  Ascii.eqb c "-" = false /\ Ascii.eqb c "+" = false.
Proof.
  intros H. split.
  - destruct (Ascii.eqb_spec c "-"); [subst; discriminate | reflexivity].
  - destruct (Ascii.eqb_spec c "+"); [subst; discriminate | reflexivity].
Qed.

(** The text strconv writes for a 64-bit value: digits, no leading zero
    but for the value zero itself. *)
Lemma FormatUint_shape (u : Z) :
  0 <= u < 2 ^ 64 ->
  exists (c : ascii) (tl : bytes),
    Strconv.FormatUint u = c :: tl /\
    Strconv.is_digit c = true /\
    Forall (fun x => Strconv.is_digit x = true) tl /\
    (Ascii.eqb c "0" = true -> tl = []).
Proof.
  intros H. destruct (FormatUint_dec u H) as (k & Hk & Hub & Hlb & E).
  destruct k as [|k]; [lia|].
  rewrite E, dec_head.
  pose proof (dec_all_digits (S k) u) as A. rewrite dec_head in A.
  inversion A as [|? ? A1 A2]; subst.
  eexists; eexists. split; [reflexivity|]. split; [assumption|].
  split; [assumption|].
  intros Z0. destruct k as [|k]; [reflexivity|exfalso].
  specialize (Hlb ltac:(lia)).
  replace (Z.of_nat (S (S k)) - 1) with (Z.of_nat (S k)) in Hlb by lia.
  assert (P : 0 < 10 ^ Z.of_nat (S k)) by (apply Z.pow_pos_nonneg; lia).
  assert (Q : 1 <= u / 10 ^ Z.of_nat (S k) < 10).
  { split.
    - apply Z.div_le_lower_bound; lia.
    - apply Z.div_lt_upper_bound; [lia|].
      rewrite (Nat2Z.inj_succ (S k)), Z.pow_succ_r in Hub by lia. lia. }
  rewrite Z.mod_small in Z0 by lia.
  apply Ascii.eqb_eq in Z0. apply (f_equal val) in Z0.
  rewrite val_digit in Z0 by lia. change (val "0") with 48 in Z0. lia.
Qed.

Lemma ParseInt_minus (s : bytes) :
  Strconv.ParseInt ("-"%char :: s) =
  match Strconv.ParseUint s with
  | None => None
  | Some un => if un <=? 2 ^ 63 then Some (- un) else None
  end.
Proof. reflexivity. Qed.

(** strconv.ParseInt reads back what strconv.FormatInt writes. *)
Lemma ParseInt_FormatInt (i : Z) :
  Int64.in_range i -> Strconv.ParseInt (Strconv.FormatInt i) = Some i.
Proof.
  unfold Int64.in_range, Int64.min, Int64.max. intros H.
  unfold Strconv.FormatInt. destruct (Z.ltb_spec i 0) as [Hneg|Hpos].
  - rewrite ParseInt_minus, ParseUint_FormatUint by lia.
    destruct (Z.leb_spec (- i) (2 ^ 63)); [f_equal; lia | lia].
  - destruct (FormatUint_shape i) as (c & tl & E & Dc & _ & _); [lia|].
    pose proof (ParseUint_FormatUint i ltac:(lia)) as P.
    rewrite E in *. unfold Strconv.ParseInt.
    destruct (digit_not_sign c Dc) as [-> ->]. cbn [orb].
    rewrite P. destruct (Z.ltb_spec i (2 ^ 63)); [reflexivity | lia].
Qed.

Lemma digits_value_nonneg (s : bytes) :
  forall acc u, 0 <= acc -> Strconv.digits_value s acc = Some u -> 0 <= u.
Proof.
  induction s as [|c s IH]; intros acc u Hacc H; cbn [Strconv.digits_value] in H.
  - now injection H as <-.
  - destruct (Strconv.is_digit c) eqn:D; [|discriminate].
    apply (IH (acc * 10 + (val c - 48))); [|assumption].
    unfold Strconv.is_digit in D. apply andb_true_iff in D as [D _].
    apply Z.leb_le in D. lia.
Qed.

(** strconv.ParseInt returns int64 values only. *)
Lemma ParseInt_range (s : bytes) (n : Z) :
  Strconv.ParseInt s = Some n -> Int64.in_range n.
Proof.
  unfold Strconv.ParseInt, Int64.in_range, Int64.min, Int64.max.
  destruct s as [|c r]; [discriminate|].
  match goal with
  | |- context [Strconv.ParseUint ?x] => set (body := x)
  end.
  destruct (Strconv.ParseUint body) as [un|] eqn:U; [|discriminate].
  assert (P : 0 <= un).
  { unfold Strconv.ParseUint in U. destruct body; [discriminate|].
    destruct (Strconv.digits_value _ 0) as [u|] eqn:V; [|discriminate].
    apply digits_value_nonneg in V; [|lia].
    destruct (u <? 2 ^ 64); [|discriminate]. now injection U as <-. }
  destruct (Ascii.eqb c "-").
  - destruct (Z.leb_spec un (2 ^ 63)); [|discriminate].
    intros [= <-]. lia.
  - destruct (Z.ltb_spec un (2 ^ 63)); [|discriminate].
    intros [= <-]. lia.
Qed.

(* ===================================================================== *)
(** ** Facts about the JSON scanner                                      *)
(* ===================================================================== *)

Lemma digit_not_punct (c : ascii) :
  Strconv.is_digit c = true ->
  Json.is_space c = false /\ Ascii.eqb c "{" = false /\
  Ascii.eqb c "[" = false /\ Ascii.eqb c dq = false.
Proof.
  intros H. unfold Json.is_space.
  assert (N : forall x, Strconv.is_digit x = false -> Ascii.eqb c x = false).
  { intros x Hx. destruct (Ascii.eqb_spec c x); [subst; congruence | reflexivity]. }
  rewrite !N by reflexivity. repeat split; reflexivity.
Qed.

Lemma span_digits_app (ds rest : bytes) :
  Forall (fun x => Strconv.is_digit x = true) ds ->
  match rest with
  | c :: _ => Strconv.is_digit c = false
  | [] => True
  end ->
  Json.span_digits (ds ++ rest) = (ds, rest).
Proof.
  intros Hds Hrest. induction Hds as [|c ds Hc _ IH]; cbn [app Json.span_digits].
  - destruct rest as [|c r]; [reflexivity|].
    cbn [Json.span_digits]. now rewrite Hrest.
  - now rewrite Hc, IH.
Qed.

Lemma scan_number_minus (s : bytes) :
  Json.scan_number ("-"%char :: s) = Json.scan_unsigned ["-"%char] s.
Proof. reflexivity. Qed.

Lemma scan_number_plain (c : ascii) (r : bytes) :
  Ascii.eqb c "-" = false ->
  Json.scan_number (c :: r) = Json.scan_unsigned [] (c :: r).
Proof. intros H. cbn [Json.scan_number]. now rewrite H. Qed.

Lemma scan_number_FormatInt (i : Z) (rest : bytes) :
  Int64.in_range i ->
  Json.scan_number (Strconv.FormatInt i ++ "}"%char :: rest) =
  Some (Strconv.FormatInt i, "}"%char :: rest).
Proof.
  unfold Int64.in_range, Int64.min, Int64.max. intros H.
  assert (U : forall u sign, 0 <= u < 2 ^ 64 ->
            Json.scan_unsigned sign (Strconv.FormatUint u ++ "}"%char :: rest) =
            Some (sign ++ Strconv.FormatUint u, "}"%char :: rest)).
  { intros u sign Hu.
    destruct (FormatUint_shape u Hu) as (c & tl & E & Dc & Dtl & Z0).
    rewrite E. unfold Json.scan_unsigned. cbn [app Json.scan_int].
    destruct (Ascii.eqb c "0") eqn:C0.
    - rewrite (Z0 eq_refl). reflexivity.
    - rewrite Dc, span_digits_app by (trivial; reflexivity).
      cbn. now rewrite app_nil_r. }
  unfold Strconv.FormatInt. destruct (Z.ltb_spec i 0) as [Hneg|Hpos].
  - cbn [app]. rewrite scan_number_minus, U by lia. reflexivity.
  - destruct (FormatUint_shape i) as (c & tl & E & Dc & _ & _); [lia|].
    specialize (U i [] ltac:(lia)). rewrite E in *. cbn [app] in *.
    destruct (digit_not_sign c Dc) as [M _].
    now rewrite scan_number_plain.
Qed.

Lemma FormatInt_head (i : Z) :
  Int64.in_range i ->
  exists (c : ascii) (tl : bytes),
    Strconv.FormatInt i = c :: tl /\
    (c = "-"%char \/ Strconv.is_digit c = true).
Proof.
  unfold Int64.in_range, Int64.min, Int64.max. intros H.
  unfold Strconv.FormatInt. destruct (Z.ltb_spec i 0).
  - eexists; eexists. split; [reflexivity | now left].
  - destruct (FormatUint_shape i) as (c & tl & E & Dc & _ & _); [lia|].
    exists c, tl. split; [assumption | now right].
Qed.

Lemma parse_value_FormatInt (f : nat) (d i : Z) (rest : bytes) :
  Int64.in_range i ->
  Json.parse_value (S f) d (Strconv.FormatInt i ++ "}"%char :: rest) =
  Some (Json.Number (Strconv.FormatInt i), "}"%char :: rest).
Proof.
  intros H. pose proof (scan_number_FormatInt i rest H) as N.
  destruct (FormatInt_head i H) as (c & tl & E & Hc).
  rewrite E in *. cbn [app] in *. cbn [Json.parse_value Json.skip_space].
  destruct Hc as [->|Dc].
  - cbn. cbn in N. rewrite N. reflexivity.
  - destruct (digit_not_punct c Dc) as (-> & -> & -> & ->).
    rewrite Dc, orb_true_r, N. reflexivity.
Qed.

Lemma parse_members_record (f : nat) (d i : Z) (rest : bytes) :
  Int64.in_range i -> (1 <= f)%nat ->
  Json.parse_members (S f) d
    (dq :: field_Balance ++ dq :: ":"%char :: Strconv.FormatInt i
        ++ "}"%char :: rest) =
  Some ([(field_Balance, Json.Number (Strconv.FormatInt i))], rest).
Proof.
  intros H Hf. simpl.
  destruct f as [|f]; [lia|].
  rewrite parse_value_FormatInt by assumption.
  reflexivity.
Qed.

Lemma parse_value_record (f : nat) (i : Z) (rest : bytes) :
  Int64.in_range i -> (2 <= f)%nat ->
  Json.parse_value (S f) 0
    ("{"%char :: dq :: field_Balance ++ dq :: ":"%char :: Strconv.FormatInt i
        ++ "}"%char :: rest) =
  Some (Json.Object [(field_Balance, Json.Number (Strconv.FormatInt i))],
        rest).
Proof.
  intros H Hf.
  simpl. destruct f as [|f]; [lia|].
  pose proof (parse_members_record f 1 i rest H ltac:(lia)) as M.
  unfold field_Balance in M. cbn [lit list_ascii_of_string app] in M.
  rewrite M. reflexivity.
Qed.

(** The record json.Marshal writes, as the scanner reads it. *)
Lemma parse_record (i : Z) :
  Int64.in_range i ->
  Json.parse (record i) =
  Some (Json.Object [(field_Balance, Json.Number (Strconv.FormatInt i))]).
Proof.
  intros H. unfold Json.parse.
  change (record i)
    with ("{"%char :: dq :: field_Balance ++ dq :: ":"%char
            :: Strconv.FormatInt i ++ ["}"%char]).
  rewrite parse_value_record; [reflexivity | assumption |].
  simpl. lia.
Qed.

Lemma decode_record (a : Account) (i : Z) :
  Int64.in_range i -> decode a (record i) = ({| Balance := i |}, None).
Proof.
  intros H. unfold decode, Json.Unmarshal.
  rewrite parse_record by assumption.
  cbn [Json.unmarshal_struct Json.object_fields].
  change (Json.field_matches field_Balance (Json.unquote field_Balance))
    with true.
  cbn [Json.store_int64]. rewrite ParseInt_FormatInt by assumption.
  reflexivity.
Qed.

(** *** The fuel of the scanner *)

Lemma skip_space_length (s : bytes) :
  (length (Json.skip_space s) <= length s)%nat.
Proof.
  induction s as [|c s IH]; simpl; [lia|].
  destruct (Json.is_space c); simpl; lia.
Qed.

Lemma scan_string_length (s : bytes) :
  forall raw rest,
    Json.scan_string s = Some (raw, rest) -> (length rest < length s)%nat.
Proof.
  induction s as [s IH] using (well_founded_induction
                                 (Wf_nat.well_founded_ltof _ (@length ascii))).
  unfold Wf_nat.ltof in IH.
  intros raw rest H. destruct s as [|c r]; [discriminate|].
  cbn [Json.scan_string] in H.
  destruct (Ascii.eqb c dq).
  { injection H as _ <-. simpl. lia. }
  destruct (Ascii.eqb c bs).
  - destruct r as [|e r1]; [discriminate|].
    destruct (Json.is_simple_escape e).
    + destruct (Json.scan_string r1) as [[raw' rest']|] eqn:E; [|discriminate].
      injection H as _ <-. apply IH in E; simpl in *; lia.
    + destruct (Ascii.eqb e "u"); [|discriminate].
      destruct r1 as [|h1 [|h2 [|h3 [|h4 r2]]]]; try discriminate.
      destruct (Json.is_hex h1 && Json.is_hex h2 && Json.is_hex h3
                && Json.is_hex h4); [|discriminate].
      destruct (Json.scan_string r2) as [[raw' rest']|] eqn:E; [|discriminate].
      injection H as _ <-. apply IH in E; simpl in *; lia.
  - destruct (val c <? 32); [discriminate|].
    destruct (Json.scan_string r) as [[raw' rest']|] eqn:E; [|discriminate].
    injection H as _ <-. apply IH in E; simpl in *; lia.
Qed.

Lemma span_digits_length (s : bytes) :
  forall ds rest,
    Json.span_digits s = (ds, rest) -> (length rest <= length s)%nat.
Proof.
  induction s as [|c s IH]; intros ds rest H; simpl in H.
  - injection H as _ <-. simpl. lia.
  - destruct (Strconv.is_digit c).
    + destruct (Json.span_digits s) as [ds' rest'] eqn:E.
      injection H as _ <-. specialize (IH _ _ eq_refl). simpl. lia.
    + injection H as _ <-. simpl. lia.
Qed.

Lemma scan_int_length (s : bytes) :
  forall l rest,
    Json.scan_int s = Some (l, rest) -> (length rest < length s)%nat.
Proof.
  intros l rest H. destruct s as [|c r]; [discriminate|].
  cbn [Json.scan_int] in H. destruct (Ascii.eqb c "0").
  - injection H as _ <-. simpl. lia.
  - destruct (Strconv.is_digit c); [|discriminate].
    destruct (Json.span_digits r) as [ds rest'] eqn:E.
    injection H as _ <-. apply span_digits_length in E. simpl. lia.
Qed.

Lemma scan_frac_length (s : bytes) :
  forall l rest,
    Json.scan_frac s = Some (l, rest) -> (length rest <= length s)%nat.
Proof.
  intros l rest H. destruct s as [|c r].
  - injection H as _ <-. simpl. lia.
  - cbn [Json.scan_frac] in H. destruct (Ascii.eqb c ".").
    + destruct (Json.span_digits r) as [ds rest'] eqn:E.
      apply span_digits_length in E.
      destruct ds; [discriminate|]. injection H as _ <-. simpl. lia.
    + injection H as _ <-. lia.
Qed.

Lemma scan_exp_length (s : bytes) :
  forall l rest,
    Json.scan_exp s = Some (l, rest) -> (length rest <= length s)%nat.
Proof.
  intros l rest H. destruct s as [|c r].
  - injection H as _ <-. simpl. lia.
  - cbn [Json.scan_exp] in H. destruct (Ascii.eqb c "e" || Ascii.eqb c "E").
    + assert (L : forall sign r1 ds rest',
                 (length r1 <= length r)%nat ->
                 Json.span_digits r1 = (ds, rest') ->
                 match ds with
                 | [] => None
                 | _ :: _ => Some (c :: sign ++ ds, rest')
                 end = Some (l, rest) ->
                 (length rest <= length (c :: r))%nat).
      { intros sign r1 ds rest' Hr E H'. apply span_digits_length in E.
        destruct ds; [discriminate|]. injection H' as _ <-. simpl. lia. }
      destruct r as [|g r'].
      * destruct (Json.span_digits []) as [ds rest'] eqn:E.
        eapply L; eauto.
      * destruct (Ascii.eqb g "+" || Ascii.eqb g "-").
        -- destruct (Json.span_digits r') as [ds rest'] eqn:E.
           eapply (L [g] r'); eauto. simpl. lia.
        -- destruct (Json.span_digits (g :: r')) as [ds rest'] eqn:E.
           eapply (L [] (g :: r')); eauto.
    + injection H as _ <-. lia.
Qed.

Lemma scan_unsigned_length (sign s : bytes) :
  forall l rest,
    Json.scan_unsigned sign s = Some (l, rest) -> (length rest < length s)%nat.
Proof.
  intros l rest H. unfold Json.scan_unsigned in H.
  destruct (Json.scan_int s) as [[ip s2]|] eqn:E1; [|discriminate].
  destruct (Json.scan_frac s2) as [[fp s3]|] eqn:E2; [|discriminate].
  destruct (Json.scan_exp s3) as [[ep s4]|] eqn:E3; [|discriminate].
  injection H as _ <-.
  apply scan_int_length in E1. apply scan_frac_length in E2.
  apply scan_exp_length in E3. lia.
Qed.

Lemma scan_number_length (s : bytes) :
  forall l rest,
    Json.scan_number s = Some (l, rest) -> (length rest < length s)%nat.
Proof.
  intros l rest H. destruct s as [|c r]; [discriminate|].
  cbn [Json.scan_number] in H. destruct (Ascii.eqb c "-").
  - apply scan_unsigned_length in H. simpl. lia.
  - now apply scan_unsigned_length in H.
Qed.

Lemma scan_literal_length (s : bytes) :
  forall v rest,
    Json.scan_literal s = Some (v, rest) -> (length rest < length s)%nat.
Proof.
  intros v rest H. unfold Json.scan_literal in H.
  repeat match type of H with
         | context [match ?x with _ => _ end] => destruct x; try discriminate
         end;
    injection H as _ <-; simpl; lia.
Qed.

(** Length facts for the scanner calls recorded in the context. *)
Ltac scanner_lengths :=
  repeat match goal with
         | H : Json.skip_space ?s = _ |- _ =>
             let L := fresh "L" in
             pose proof (skip_space_length s) as L; rewrite H in L;
             revert H
         | H : Json.scan_string _ = Some _ |- _ =>
             let L := fresh "L" in
             pose proof (scan_string_length _ _ _ H) as L; revert H
         | H : Json.scan_number _ = Some _ |- _ =>
             let L := fresh "L" in
             pose proof (scan_number_length _ _ _ H) as L; revert H
         | H : Json.scan_literal _ = Some _ |- _ =>
             let L := fresh "L" in
             pose proof (scan_literal_length _ _ _ H) as L; revert H
         end;
  intros; simpl length in *.

(** Every successful call consumes input. *)
Lemma parse_consumes (f : nat) :
  (forall d s v rest,
      Json.parse_value f d s = Some (v, rest) ->
      (length rest < length s)%nat) /\
  (forall d s ms rest,
      Json.parse_members f d s = Some (ms, rest) ->
      (length rest < length s)%nat) /\
  (forall d s vs rest,
      Json.parse_elements f d s = Some (vs, rest) ->
      (length rest < length s)%nat).
Proof.
  induction f as [|f (IHv & IHm & IHe)].
  { repeat split; intros; discriminate. }
  repeat split; intros d s v rest H;
    cbn [Json.parse_value Json.parse_members Json.parse_elements] in H;
    repeat match type of H with
           | context [match Json.parse_value f ?d' ?x with _ => _ end] =>
               let E := fresh "E" in
               destruct (Json.parse_value f d' x) as [[? ?]|] eqn:E;
               [apply IHv in E | discriminate]
           | context [match Json.parse_members f ?d' ?x with _ => _ end] =>
               let E := fresh "E" in
               destruct (Json.parse_members f d' x) as [[? ?]|] eqn:E;
               [apply IHm in E | discriminate]
           | context [match Json.parse_elements f ?d' ?x with _ => _ end] =>
               let E := fresh "E" in
               destruct (Json.parse_elements f d' x) as [[? ?]|] eqn:E;
               [apply IHe in E | discriminate]
           | context [match ?x with _ => _ end] =>
               destruct x eqn:?; try discriminate
           end;
    try (injection H as <- <-); try (injection H as _ <-);
    scanner_lengths; try lia.
Qed.

(** A result obtained with some fuel is obtained with any fuel that is at
    least the number of bytes the call consumed. *)
Lemma parse_adequate (f : nat) :
  (forall d s v rest f',
      Json.parse_value f d s = Some (v, rest) ->
      (length s - length rest <= f')%nat ->
      Json.parse_value f' d s = Some (v, rest)) /\
  (forall d s ms rest f',
      Json.parse_members f d s = Some (ms, rest) ->
      (length s - length rest <= f')%nat ->
      Json.parse_members f' d s = Some (ms, rest)) /\
  (forall d s vs rest f',
      Json.parse_elements f d s = Some (vs, rest) ->
      (length s - length rest <= f')%nat ->
      Json.parse_elements f' d s = Some (vs, rest)).
Proof.
  induction f as [|f (IHv & IHm & IHe)].
  { repeat split; intros; discriminate. }
  destruct (parse_consumes f) as (Cv & Cm & Ce).
  destruct (parse_consumes (S f)) as (Cv' & Cm' & Ce').
  repeat split; intros d s v rest f' H Hf;
    [pose proof (Cv' _ _ _ _ H) as C0 | pose proof (Cm' _ _ _ _ H) as C0
     | pose proof (Ce' _ _ _ _ H) as C0];
    (destruct f' as [|f']; [lia|]);
    cbn [Json.parse_value Json.parse_members Json.parse_elements] in H |- *;
    repeat match type of H with
           | context [match Json.parse_value f ?d' ?x with _ => _ end] =>
               let E := fresh "E" in
               destruct (Json.parse_value f d' x) as [[? ?]|] eqn:E;
               [pose proof (Cv _ _ _ _ E); revert E | discriminate]
           | context [match Json.parse_members f ?d' ?x with _ => _ end] =>
               let E := fresh "E" in
               destruct (Json.parse_members f d' x) as [[? ?]|] eqn:E;
               [pose proof (Cm _ _ _ _ E); revert E | discriminate]
           | context [match Json.parse_elements f ?d' ?x with _ => _ end] =>
               let E := fresh "E" in
               destruct (Json.parse_elements f d' x) as [[? ?]|] eqn:E;
               [pose proof (Ce _ _ _ _ E); revert E | discriminate]
           | context [match ?x with _ => _ end] =>
               destruct x eqn:?; try discriminate
           end;
    try (injection H as <- <-);
    scanner_lengths;
    repeat match goal with
           | E : Json.skip_space ?x = _ |- context [Json.skip_space ?x] =>
               rewrite E
           | E : Ascii.eqb ?x ?y = _ |- context [Ascii.eqb ?x ?y] =>
               rewrite E
           | E : (Json.maxNestingDepth <=? ?x) = _
             |- context [Json.maxNestingDepth <=? ?x] =>
               rewrite E
           | E : Json.parse_value f _ ?x = Some _ |- _ =>
               apply (fun E' => IHv _ _ _ _ f' E') in E;
               [rewrite E; clear E | simpl length; lia]
           | E : Json.parse_members f _ ?x = Some _ |- _ =>
               apply (fun E' => IHm _ _ _ _ f' E') in E;
               [rewrite E; clear E | simpl length; lia]
           | E : Json.parse_elements f _ ?x = Some _ |- _ =>
               apply (fun E' => IHe _ _ _ _ f' E') in E;
               [rewrite E; clear E | simpl length; lia]
           end;
    try reflexivity; try assumption.
Qed.

(** [parse] accepts a text exactly when some fuel makes the scanner
    accept all of it. *)
Lemma parse_some_fuel (data : bytes) (v : Json.value) :
  Json.parse data = Some v <->
  exists f rest,
    Json.parse_value f 0 data = Some (v, rest) /\ Json.skip_space rest = [].
Proof.
  unfold Json.parse. split.
  - destruct (Json.parse_value (S (length data)) 0 data) as [[v' rest]|] eqn:E;
      [|discriminate].
    destruct (Json.skip_space rest) eqn:R; [|discriminate].
    intros [= ->]. eauto.
  - intros (f & rest & E & R).
    apply (fun E' => proj1 (parse_adequate f) _ _ _ _ (S (length data)) E') in E;
      [now rewrite E, R | lia].
Qed.

(* ===================================================================== *)
(** ** Facts about the store                                             *)
(* ===================================================================== *)

Lemma lookup_insert_eq (k v : bytes) (st : store) :
  lookup k (insert k v st) = Some v.
Proof.
  induction st as [|[k' v'] r IH]; simpl.
  - unfold equal. now rewrite compare_refl.
  - destruct (compare k k') eqn:C; simpl.
    + unfold equal. now rewrite compare_refl.
    + unfold equal. now rewrite compare_refl.
    + unfold equal. now rewrite C.
Qed.

Lemma lookup_insert_ne (k k2 v : bytes) (st : store) :
  k <> k2 -> lookup k2 (insert k v st) = lookup k2 st.
Proof.
  intros N.
  assert (F : equal k2 k = false) by (apply equal_false; congruence).
  induction st as [|[k' v'] r IH]; simpl.
  - now rewrite F.
  - destruct (compare k k') eqn:C; simpl.
    + apply compare_eq in C. subst k'. now rewrite F.
    + now rewrite F.
    + now rewrite IH.
Qed.

Lemma compare_antisym (a b : bytes) :
  compare a b = Gt -> compare b a = Lt.
Proof.
  revert b. induction a as [|x a IH]; intros [|y b]; simpl; try discriminate.
  - reflexivity.
  - rewrite (Z.compare_antisym (val x) (val y)).
    destruct (val x ?= val y); simpl; try discriminate; auto.
Qed.

(** A write keeps the rows in key order. *)
Lemma insert_sorted (k v : bytes) (st : store) :
  sorted st -> sorted (insert k v st).
Proof.
  induction st as [|[k1 v1] r IH]; intros S.
  - simpl. tauto.
  - cbn [insert]. destruct (compare k k1) eqn:C.
    + apply compare_eq in C. subst k1. exact S.
    + split; [exact C | exact S].
    + destruct S as [S1 S2]. specialize (IH S2).
      split; [|exact IH].
      destruct r as [|[k2 v2] r']; cbn [insert].
      * now apply compare_antisym.
      * destruct (compare k k2); [| |exact S1]; now apply compare_antisym.
Qed.

(** An identifier starts with a digit or with a minus sign. *)
Lemma format_digits_head (rounds : nat) :
  forall (u : Z) (acc : bytes),
    0 <= u ->
    match acc with
    | [] => (0 < rounds)%nat
    | c :: _ => Strconv.is_digit c = true
    end ->
    exists c tl,
      Strconv.format_digits rounds u acc = c :: tl /\
      Strconv.is_digit c = true.
Proof.
  induction rounds as [|r IH]; intros u acc Hu Hacc.
  - destruct acc as [|c tl]; [lia|]. simpl. eauto.
  - simpl. destruct (Z.ltb_spec u 10).
    + eexists; eexists. split; [reflexivity|]. apply is_digit_digit. lia.
    + apply IH.
      * apply Z.div_pos; lia.
      * apply is_digit_digit.
        pose proof (Z.mod_pos_bound u 10 ltac:(lia)). lia.
Qed.

Lemma makeAccountID_head (id : Z) :
  exists c tl,
    makeAccountID id = c :: tl /\
    (c = "-"%char \/ Strconv.is_digit c = true).
Proof.
  unfold makeAccountID, Fmt.Sprintf_09d. destruct (Z.ltb_spec id 0).
  - eexists; eexists. split; [reflexivity | now left].
  - unfold Fmt.pad_digits, Strconv.FormatUint.
    destruct (format_digits_head 20 id []) as (c & tl & E & D); [lia | lia |].
    rewrite E.
    destruct (9 - length (c :: tl))%nat as [|n].
    + exists c, tl. split; [reflexivity | now right].
    + exists "0"%char, (Fmt.zeros n ++ c :: tl).
      split; [reflexivity | now right].
Qed.

(** A record starts with a brace, so it is no account identifier. *)
Lemma makeAccountID_not_record (id balance : Z) :
  record balance <> makeAccountID id.
Proof.
  destruct (makeAccountID_head id) as (c & tl & E & [->|D]);
    rewrite E; unfold record, encode, Json.Marshal; cbn [fst];
    intros [= <-]; discriminate.
Qed.

(** A write under a record as key leaves every account as it was. *)
Lemma balanceOf_insert_record (st : store) (balance : Z) (v : bytes) (id : Z) :
  balanceOf (insert (record balance) v st) id = balanceOf st id.
Proof.
  unfold balanceOf.
  now rewrite lookup_insert_ne by apply makeAccountID_not_record.
Qed.

(* ===================================================================== *)
(** ** The transfer over the in-memory store                             *)
(* ===================================================================== *)

Lemma transferMoney_memory (from to : bytes) (exchangeAmount : Z) (st : store) :
  transferMoney memory from to exchangeAmount st =
  match decode newAccount (read st from) with
  | (_, Some e) => Done (tt, Some e, st)
  | (fromAccount, None) =>
      if Balance fromAccount <? exchangeAmount then Done (tt, None, st)
      else
        match decode newAccount (read st to) with
        | (_, Some e) => Done (tt, Some e, st)
        | (toAccount, None) =>
            Done (tt, None,
                  insert
                    (record (Int64.sub (Balance fromAccount) exchangeAmount))
                    (record (Int64.add (Balance toAccount) exchangeAmount))
                    st)
        end
  end.
Proof.
  unfold transferMoney, read. cbn [Run memory run_batch run_call map nth_error Err Rows].
  destruct (decode newAccount _) as [fromAccount [e|]]; [reflexivity|].
  destruct (Balance fromAccount <? exchangeAmount); [reflexivity|].
  destruct (decode newAccount _) as [toAccount [e|]]; reflexivity.
Qed.

(** In a transaction or not, a round over the in-memory store ends the
    process on a decoding error and otherwise counts the attempt. *)
Lemma continuousMoneyTransfer_memory (useTransaction : bool) (bank : Bank)
  (draw_from draw_to exchangeAmount : Z) :
  makeAccountID draw_from <> makeAccountID draw_to ->
  continuousMoneyTransfer memory useTransaction bank draw_from draw_to
    exchangeAmount =
  match decode newAccount (read (db bank) (makeAccountID draw_from)) with
  | (_, Some e) => Fatal (FatalError e)
  | (fromAccount, None) =>
      if Balance fromAccount <? exchangeAmount then
        Done {| db := db bank; numAccounts := numAccounts bank;
                numTransfers := Int32.add (numTransfers bank) 1 |}
      else
        match decode newAccount (read (db bank) (makeAccountID draw_to)) with
        | (_, Some e) => Fatal (FatalError e)
        | (toAccount, None) =>
            Done {| db := insert
                    (record (Int64.sub (Balance fromAccount) exchangeAmount))
                    (record (Int64.add (Balance toAccount) exchangeAmount))
                    (db bank);
                    numAccounts := numAccounts bank;
                    numTransfers := Int32.add (numTransfers bank) 1 |}
        end
  end.
Proof.
  intros N. unfold continuousMoneyTransfer.
  apply equal_false in N. rewrite N.
  unfold Tx. rewrite transferMoney_memory.
  destruct (decode newAccount _) as [fromAccount [e|]];
    [destruct useTransaction; reflexivity|].
  destruct (Balance fromAccount <? exchangeAmount);
    [destruct useTransaction; reflexivity|].
  destruct (decode newAccount _) as [toAccount [e|]];
    destruct useTransaction; reflexivity.
Qed.

Lemma read_balanceOf (st : store) (id b : Z) :
  balanceOf st id = Some b ->
  decode newAccount (read st (makeAccountID id)) = ({| Balance := b |}, None).
Proof.
  unfold balanceOf, read, ValueBytes. cbn [Value].
  destruct (lookup (makeAccountID id) st) as [v|]; [|discriminate].
  destruct (decode newAccount v) as [[n] [e|]]; [discriminate|].
  now intros [= ->].
Qed.

(** A round over the in-memory store leaves the record of every account
    as it was. *)
Lemma continuousMoneyTransfer_accounts (useTransaction : bool) (bank bank' : Bank)
  (draw_from draw_to exchangeAmount : Z) :
  continuousMoneyTransfer memory useTransaction bank draw_from draw_to
    exchangeAmount = Done bank' ->
  forall id, balanceOf (db bank') id = balanceOf (db bank) id.
Proof.
  intros H id.
  destruct (equal (makeAccountID draw_from) (makeAccountID draw_to)) eqn:Q.
  - unfold continuousMoneyTransfer in H. rewrite Q in H.
    now injection H as <-.
  - apply equal_false in Q.
    rewrite continuousMoneyTransfer_memory in H by assumption.
    destruct (decode newAccount _) as [fromAccount [e|]]; [discriminate|].
    destruct (Balance fromAccount <? exchangeAmount).
    { now injection H as <-. }
    destruct (decode newAccount _) as [toAccount [e|]]; [discriminate|].
    injection H as <-. cbn [db]. apply balanceOf_insert_record.
Qed.

(** Whatever the client, an attempt that reads a source record whose
    balance is below the amount returns no error and calls the client no
    more: the store is as the read left it. *)
Lemma transferMoney_skip (runner : Runner) (from to : bytes)
  (exchangeAmount : Z) (st st1 : store) (results : list Result)
  (res0 : Result) (row0 : Row) (fromAccount : Account) :
  Run runner [Get [from; to]] st = (None, results, st1) ->
  nth_error results 0 = Some res0 ->
  Err res0 = None ->
  nth_error (Rows res0) 0 = Some row0 ->
  decode newAccount (ValueBytes row0) = (fromAccount, None) ->
  Balance fromAccount < exchangeAmount ->
  transferMoney runner from to exchangeAmount st = Done (tt, None, st1).
Proof.
  intros R N0 E N1 D L. unfold transferMoney.
  rewrite R, N0, E, N1, D.
  now rewrite (proj2 (Z.ltb_lt _ _) L).
Qed.

(** A round whose amount exceeds the balance of the source writes
    nothing. *)
Lemma continuousMoneyTransfer_skip (useTransaction : bool) (bank : Bank)
  (draw_from draw_to exchangeAmount b : Z) :
  balanceOf (db bank) draw_from = Some b ->
  b < exchangeAmount ->
  exists bank',
    continuousMoneyTransfer memory useTransaction bank draw_from draw_to
      exchangeAmount = Done bank' /\
    db bank' = db bank.
Proof.
  intros Hb Hlt. apply read_balanceOf in Hb.
  assert (L : (b <? exchangeAmount) = true) by now apply Z.ltb_lt.
  destruct (equal (makeAccountID draw_from) (makeAccountID draw_to)) eqn:Q.
  - exists bank. unfold continuousMoneyTransfer. now rewrite Q.
  - apply equal_false in Q.
    rewrite continuousMoneyTransfer_memory, Hb by assumption.
    cbn [Balance]. rewrite L. eexists. split; reflexivity.
Qed.

(* ===================================================================== *)
(** ** Facts about decode                                                *)
(* ===================================================================== *)

Lemma store_int64_error (v : Json.value) (cur : Z) :
  snd (Json.store_int64 v cur) = None <-> int64_value v = true.
Proof.
  destruct v; simpl; try (split; discriminate); try tauto.
  destruct (Strconv.ParseInt literal); simpl; split; congruence.
Qed.

Lemma saveError_none (saved new : option error) :
  Json.saveError saved new = None <-> saved = None /\ new = None.
Proof.
  destruct saved; simpl; split; try tauto; try (intros [? ?]; congruence).
  discriminate.
Qed.

Lemma object_fields_error (ms : list (bytes * Json.value)) :
  forall (cur : Z) (saved : option error),
    snd (Json.object_fields field_Balance ms cur saved) = None <->
    saved = None /\ forallb acceptable_member ms = true.
Proof.
  induction ms as [|[k v] ms IH]; intros cur saved; cbn [Json.object_fields forallb].
  - simpl. tauto.
  - unfold acceptable_member at 1, names_Balance. cbn [fst snd].
    destruct (Json.field_matches field_Balance (Json.unquote k)).
    + pose proof (store_int64_error v cur) as S.
      destruct (Json.store_int64 v cur) as [cur' e]. cbn [snd] in S.
      rewrite IH, saveError_none, andb_true_iff. tauto.
    + rewrite IH. simpl. tauto.
Qed.

Lemma object_fields_skip (ms : list (bytes * Json.value)) :
  forall (cur : Z) (saved : option error),
    forallb (fun member => negb (names_Balance member)) ms = true ->
    Json.object_fields field_Balance ms cur saved = (cur, saved).
Proof.
  induction ms as [|[k v] ms IH]; intros cur saved H; cbn [Json.object_fields].
  - reflexivity.
  - cbn [forallb] in H. apply andb_true_iff in H as [H1 H2].
    unfold names_Balance in H1. cbn [fst] in H1.
    apply negb_true_iff in H1. rewrite H1. now apply IH.
Qed.

Lemma store_int64_range (v : Json.value) (cur : Z) :
  Int64.in_range cur -> Int64.in_range (fst (Json.store_int64 v cur)).
Proof.
  intros H. destruct v; cbn [Json.store_int64 fst]; try assumption.
  destruct (Strconv.ParseInt literal) as [n|] eqn:P; cbn [fst].
  - now apply (ParseInt_range literal).
  - assumption.
Qed.

Lemma object_fields_range (ms : list (bytes * Json.value)) :
  forall (cur : Z) (saved : option error),
    Int64.in_range cur ->
    Int64.in_range (fst (Json.object_fields field_Balance ms cur saved)).
Proof.
  induction ms as [|[k v] ms IH]; intros cur saved H; cbn [Json.object_fields].
  - assumption.
  - destruct (Json.field_matches field_Balance (Json.unquote k)).
    + pose proof (store_int64_range v cur H) as R.
      destruct (Json.store_int64 v cur) as [cur' e]. now apply IH.
    + now apply IH.
Qed.

(** decode leaves an int64 in the record. *)
Lemma decode_range (a : Account) (b : bytes) :
  Int64.in_range (Balance a) -> Int64.in_range (Balance (fst (decode a b))).
Proof.
  intros H. unfold decode, Json.Unmarshal.
  destruct (Json.parse b) as [v|]; [|assumption].
  destruct v as [| | | | |ms]; cbn [Json.unmarshal_struct]; try assumption.
  pose proof (object_fields_range ms (Balance a) None H) as R.
  now destruct (Json.object_fields field_Balance ms (Balance a) None).
Qed.

Lemma balanceOf_range (st : store) (id b : Z) :
  balanceOf st id = Some b -> Int64.in_range b.
Proof.
  unfold balanceOf.
  destruct (lookup (makeAccountID id) st) as [v|]; [|discriminate].
  pose proof (decode_range newAccount v) as R.
  destruct (decode newAccount v) as [a [e|]]; [discriminate|].
  intros [= <-]. apply R. vm_compute. split; discriminate.
Qed.

Lemma Int64_wrap_small (z : Z) : Int64.in_range z -> Int64.wrap z = z.
Proof.
  unfold Int64.in_range, Int64.min, Int64.max, Int64.wrap. intros H.
  rewrite Z.mod_small; lia.
Qed.

(** A round with sufficient funds writes one row: the new record of the
    destination under the new record of the source. *)
Lemma continuousMoneyTransfer_write (useTransaction : bool) (bank : Bank)
  (draw_from draw_to exchangeAmount bf bt : Z) :
  makeAccountID draw_from <> makeAccountID draw_to ->
  balanceOf (db bank) draw_from = Some bf ->
  balanceOf (db bank) draw_to = Some bt ->
  0 <= exchangeAmount <= bf ->
  continuousMoneyTransfer memory useTransaction bank draw_from draw_to
    exchangeAmount =
  Done {| db := insert (record (bf - exchangeAmount))
                  (record (Int64.add bt exchangeAmount)) (db bank);
          numAccounts := numAccounts bank;
          numTransfers := Int32.add (numTransfers bank) 1 |}.
Proof.
  intros N Hf Ht Ha.
  pose proof (balanceOf_range _ _ _ Hf) as Rf.
  apply read_balanceOf in Hf. apply read_balanceOf in Ht.
  rewrite continuousMoneyTransfer_memory, Hf, Ht by assumption.
  cbn [Balance].
  destruct (Z.ltb_spec bf exchangeAmount); [lia|].
  unfold Int64.sub. rewrite Int64_wrap_small; [reflexivity|].
  unfold Int64.in_range, Int64.min, Int64.max in *. lia.
Qed.

(* ===================================================================== *)
(** ** Facts about the balance check                                     *)
(* ===================================================================== *)

Lemma sumRows_from (suf : list Row) :
  forall (pre : list Row) (result : Z) (bs : list Z),
    decodeRows suf = Some bs ->
    sumRows (length suf) (length pre) (pre ++ suf) result =
    Done (fold_left Int64.add bs result).
Proof.
  induction suf as [|row suf IH]; intros pre result bs H.
  - injection H as <-. reflexivity.
  - cbn [decodeRows] in H. cbn [length sumRows].
    rewrite nth_error_app2, Nat.sub_diag by lia. cbn [nth_error].
    destruct (decode newAccount (ValueBytes row)) as [a [e|]]; [discriminate|].
    destruct (decodeRows suf) as [bs'|] eqn:D; [|discriminate].
    injection H as <-.
    specialize (IH (pre ++ [row]) (Int64.add result (Balance a)) bs' eq_refl).
    rewrite length_app, <- app_assoc in IH. cbn [length app] in IH.
    rewrite Nat.add_1_r in IH. exact IH.
Qed.

Lemma sumRows_all (rows : list Row) (bs : list Z) :
  decodeRows rows = Some bs ->
  sumRows (length rows) 0 rows 0 = Done (sum64 bs).
Proof.
  intros H. exact (sumRows_from rows [] 0 bs H).
Qed.

(** The sum overflows in neither direction when the balances are not
    negative and their total fits. *)
Lemma sum64_exact (bs : list Z) :
  Forall (fun b => 0 <= b) bs ->
  fold_right Z.add 0 bs <= Int64.max ->
  sum64 bs = fold_right Z.add 0 bs.
Proof.
  unfold sum64.
  assert (G : forall acc, 0 <= acc -> Forall (fun b => 0 <= b) bs ->
              acc + fold_right Z.add 0 bs <= Int64.max ->
              fold_left Int64.add bs acc = acc + fold_right Z.add 0 bs).
  { induction bs as [|b bs IH]; intros acc Hacc Hbs Hmax;
      cbn [fold_left fold_right].
    - lia.
    - inversion Hbs as [|? ? Hb Hbs']; subst. cbn [fold_right] in Hmax.
      assert (P : 0 <= fold_right Z.add 0 bs).
      { clear -Hbs'. induction Hbs'; simpl; lia. }
      assert (W : Int64.add acc b = acc + b).
      { unfold Int64.add, Int64.wrap, Int64.max in *.
        rewrite Z.mod_small; lia. }
      rewrite W, IH; try assumption; lia. }
  intros Hbs Hmax. rewrite G; try assumption; lia.
Qed.

(** A scan with the wrong number of rows ends the process. *)
Lemma sumAllAccounts_rows (runner : Runner) (bank : Bank) (scan : Result)
  (st1 : store) :
  Scan runner (makeAccountID 0) (makeAccountID (numAccounts bank))
    (numAccounts bank) (db bank) = (scan, st1) ->
  Err scan = None ->
  Z.of_nat (length (Rows scan)) <> numAccounts bank ->
  sumAllAccounts runner bank =
  Fatal (FatalRows (Z.of_nat (length (Rows scan))) (numAccounts bank)).
Proof.
  intros S E N. unfold sumAllAccounts, Tx, sumAllAccounts_tx.
  rewrite S, E.
  destruct (Z.eqb_spec (Z.of_nat (length (Rows scan))) (numAccounts bank));
    [contradiction | reflexivity].
Qed.

Lemma periodicallyCheckBalances_rows (runner : Runner) (bank : Bank)
  (scan : Result) (st1 : store) (initCash : Z) :
  Scan runner (makeAccountID 0) (makeAccountID (numAccounts bank))
    (numAccounts bank) (db bank) = (scan, st1) ->
  Err scan = None ->
  Z.of_nat (length (Rows scan)) <> numAccounts bank ->
  periodicallyCheckBalances runner bank initCash =
  Fatal (FatalRows (Z.of_nat (length (Rows scan))) (numAccounts bank)).
Proof.
  intros S E N. unfold periodicallyCheckBalances.
  now rewrite (sumAllAccounts_rows runner bank scan st1 S E N).
Qed.

(** The sum over a scan that has every row. *)
Lemma sumAllAccounts_sum (runner : Runner) (bank : Bank) (scan : Result)
  (st1 : store) (bs : list Z) :
  Scan runner (makeAccountID 0) (makeAccountID (numAccounts bank))
    (numAccounts bank) (db bank) = (scan, st1) ->
  Err scan = None ->
  Z.of_nat (length (Rows scan)) = numAccounts bank ->
  decodeRows (Rows scan) = Some bs ->
  Commit runner st1 = None ->
  sumAllAccounts runner bank = Done (sum64 bs, st1).
Proof.
  intros S E L D C. unfold sumAllAccounts, Tx, sumAllAccounts_tx.
  rewrite S, E.
  destruct (Z.eqb_spec (Z.of_nat (length (Rows scan))) (numAccounts bank));
    [|contradiction].
  cbn [negb]. rewrite <- L, Nat2Z.id.
  now rewrite (sumRows_all _ _ D), C.
Qed.

(* ===================================================================== *)
(** ** Properties of the harness                                         *)
(* ===================================================================== *)

Lemma initBankAccounts_scenarioA :
  initBankAccounts memory (freshBank 3) 1000 = Done scenarioA.
Proof. vm_compute. reflexivity. Qed.

(** The model on sample inputs. *)
Example makeAccountID_7 : makeAccountID 7 = lit "000000007".
Proof. reflexivity. Qed.

Example makeAccountID_negative : makeAccountID (-1) = lit "-00000001".
Proof. reflexivity. Qed.

Example record_900 :
  record 900 = "{"%char :: dq :: lit "Balance" ++ dq :: lit ":900}".
Proof. reflexivity. Qed.

Example decode_empty_input :
  decode newAccount [] = (newAccount, Some SyntaxError).
Proof. reflexivity. Qed.

Example decode_not_json :
  decode newAccount (lit "balance=7") = (newAccount, Some SyntaxError).
Proof. vm_compute. reflexivity. Qed.

Example decode_array :
  decode newAccount (lit "[7]") = (newAccount, Some UnmarshalTypeError).
Proof. vm_compute. reflexivity. Qed.

Example decode_string_balance :
  decode newAccount
    ("{"%char :: dq :: lit "Balance" ++ dq :: ":"%char :: dq :: "7"%char
       :: dq :: lit "}")
  = (newAccount, Some UnmarshalTypeError).
Proof. vm_compute. reflexivity. Qed.

Example decode_fraction :
  decode newAccount ("{"%char :: dq :: lit "Balance" ++ dq :: lit ":7.0}")
  = (newAccount, Some UnmarshalTypeError).
Proof. vm_compute. reflexivity. Qed.

Example decode_out_of_range :
  decode newAccount
    ("{"%char :: dq :: lit "Balance" ++ dq :: lit ":9223372036854775808}")
  = (newAccount, Some UnmarshalTypeError).
Proof. vm_compute. reflexivity. Qed.

Example decode_folded_key :
  decode newAccount ("{"%char :: dq :: lit "balance" ++ dq :: lit " : 7 }")
  = ({| Balance := 7 |}, None).
Proof. vm_compute. reflexivity. Qed.

Example decode_other_member :
  decode newAccount ("{"%char :: dq :: lit "Amount" ++ dq :: lit ":7}")
  = (newAccount, None).
Proof. vm_compute. reflexivity. Qed.

Example scenarioA_sorted : sorted (db scenarioA).
Proof. vm_compute. tauto. Qed.

(** C1, on the code.  Scenario A: from three accounts of 1000 each, one
    transfer of 100 from account 0 to account 1 returns without error, but
    its write stores the new record of the destination under the new
    record of the source as key: the records under the three account
    identifiers are still 1000 each, where the claim has 900, 1100 and
    1000, and so they are after a transfer of any amount.  The sum over
    the accounts is 3000 all the same. *)
Theorem scenario_A_leaves_accounts_unchanged :
  (exists bank',
     continuousMoneyTransfer memory true scenarioA 0 1 100 = Done bank' /\
     balances (db bank') 3 = [Some 1000; Some 1000; Some 1000] /\
     balances (db bank') 3 <> [Some 900; Some 1100; Some 1000] /\
     db bank' = insert (record 900) (record 1100) (db scenarioA) /\
     sumAllAccounts memory bank' = Done (3000, db bank')) /\
  (forall useTransaction exchangeAmount bank',
     continuousMoneyTransfer memory useTransaction scenarioA 0 1
       exchangeAmount = Done bank' ->
     balances (db bank') 3 = [Some 1000; Some 1000; Some 1000]).
Proof.
  split.
  - eexists. split; [vm_compute; reflexivity|].
    split; [vm_compute; reflexivity|].
    split; [vm_compute; discriminate|].
    split; vm_compute; reflexivity.
  - intros useTransaction exchangeAmount bank' H.
    unfold balances. cbn [seq map].
    rewrite !(continuousMoneyTransfer_accounts _ _ _ _ _ _ H).
    vm_compute. reflexivity.
Qed.

(** C2, the claim refuted.  Scenario B: a transfer of 75 from an account
    that holds 50 is skipped, the store is as it was, and the counter has
    gone from 0 to 1. *)
Lemma skipped_attempt_is_counted :
  exists bank',
    continuousMoneyTransfer memory true scenarioB 0 1 75 = Done bank' /\
    db bank' = db scenarioB /\
    numTransfers scenarioB = 0 /\ numTransfers bank' = 1.
Proof.
  eexists. split; [vm_compute; reflexivity|].
  repeat split; vm_compute; reflexivity.
Qed.

(** C3, the claim refuted.  The bytes [{}] hold no balance field, and
    decode returns no error and the balance 0 of the fresh record. *)
Lemma decode_defaults_missing_balance :
  Json.parse (lit "{}") = Some (Json.Object []) /\
  decode newAccount (lit "{}") = ({| Balance := 0 |}, None).
Proof. split; vm_compute; reflexivity. Qed.

(** C4.  Over the in-memory store, when the amount exceeds the balance of
    the source account, the attempt returns no error and the round leaves
    the store as it was: no write is made. *)
Theorem skip_on_insufficient_funds (useTransaction : bool) (bank : Bank)
  (draw_from draw_to exchangeAmount b : Z) :
  balanceOf (db bank) draw_from = Some b ->
  b < exchangeAmount ->
  transferMoney memory (makeAccountID draw_from) (makeAccountID draw_to)
    exchangeAmount (db bank) = Done (tt, None, db bank) /\
  exists bank',
    continuousMoneyTransfer memory useTransaction bank draw_from draw_to
      exchangeAmount = Done bank' /\
    db bank' = db bank.
Proof.
  intros Hb Hlt. split.
  - apply read_balanceOf in Hb.
    rewrite transferMoney_memory, Hb. cbn [Balance].
    now rewrite (proj2 (Z.ltb_lt b exchangeAmount) Hlt).
  - now apply (continuousMoneyTransfer_skip useTransaction bank draw_from
                 draw_to exchangeAmount b).
Qed.

Lemma skip_on_insufficient_funds_witness :
  transferMoney memory (makeAccountID 0) (makeAccountID 1) 75 (db scenarioB)
  = Done (tt, None, db scenarioB) /\
  exists bank',
    continuousMoneyTransfer memory true scenarioB 0 1 75 = Done bank' /\
    db bank' = db scenarioB.
Proof.
  apply (skip_on_insufficient_funds true scenarioB 0 1 75 50).
  - vm_compute. reflexivity.
  - lia.
Defined.

(** C6.  For every record whose balance is a signed 64-bit integer,
    encode returns bytes and no error, and decode of these bytes, into
    any receiver, returns no error and that record. *)
Theorem decode_encode (r a : Account) :
  Int64.in_range (Balance r) ->
  exists b, encode r = (b, None) /\ decode a b = (r, None).
Proof.
  intros H. exists (record (Balance r)). split.
  - reflexivity.
  - rewrite decode_record by assumption. now destruct r.
Qed.

Lemma decode_encode_witness :
  exists b,
    encode {| Balance := - 2 ^ 63 |} = (b, None) /\
    decode newAccount b = ({| Balance := - 2 ^ 63 |}, None).
Proof.
  apply (decode_encode {| Balance := - 2 ^ 63 |} newAccount).
  vm_compute. split; discriminate.
Defined.

(** C7, the claim refuted.  With more than 10^9 accounts the indices
    999999999 and 1000000000 are both in range, and the identifier of
    the larger one, which has ten digits, is the smaller byte string. *)
Lemma makeAccountID_order_breaks_at_ten_digits :
  0 <= 999999999 /\ 999999999 < 1000000000 /\ 1000000000 < 1000000001 /\
  Bytes.lt (makeAccountID 1000000000) (makeAccountID 999999999) /\
  ~ Bytes.lt (makeAccountID 999999999) (makeAccountID 1000000000).
Proof.
  split; [lia|]. split; [lia|]. split; [lia|]. split.
  - vm_compute. reflexivity.
  - intros H. vm_compute in H. discriminate H.
Qed.

(** C7, amended.  When numAccounts is at most 10^9, so that every index
    has at most nine digits, for all indices i < j in [0, numAccounts)
    the identifier of i is strictly less than the identifier of j under
    byte-wise comparison, and the two identifiers differ. *)
Theorem makeAccountID_order (numAccounts i j : Z) :
  numAccounts <= 1000000000 ->
  0 <= i -> i < j -> j < numAccounts ->
  Bytes.lt (makeAccountID i) (makeAccountID j) /\
  makeAccountID i <> makeAccountID j.
Proof.
  intros Hn Hi Hij Hj.
  assert (L : Bytes.lt (makeAccountID i) (makeAccountID j)).
  { change 1000000000 with (10 ^ 9) in Hn.
    unfold Bytes.lt. rewrite !makeAccountID_dec by lia.
    apply (dec_lt 9); simpl; lia. }
  split; [assumption|].
  intros E. unfold Bytes.lt in L. rewrite E, compare_refl in L. discriminate.
Qed.

Lemma makeAccountID_order_witness :
  Bytes.lt (makeAccountID 8) (makeAccountID 9) /\
  makeAccountID 8 <> makeAccountID 9.
Proof.
  apply (makeAccountID_order main_numAccounts 8 9);
    unfold main_numAccounts; lia.
Defined.

(** C8.  Whatever the client, when the scan of the account range returns
    no error and fewer rows than numAccounts, sumAllAccounts ends the
    process with the message of the missing rows, and so does the round
    of the balance check: no sum is computed or reported. *)
Theorem incomplete_scan_is_fatal (runner : Runner) (bank : Bank)
  (scan : Result) (st1 : store) (initCash : Z) :
  Scan runner (makeAccountID 0) (makeAccountID (numAccounts bank))
    (numAccounts bank) (db bank) = (scan, st1) ->
  Err scan = None ->
  Z.of_nat (length (Rows scan)) < numAccounts bank ->
  sumAllAccounts runner bank =
  Fatal (FatalRows (Z.of_nat (length (Rows scan))) (numAccounts bank)) /\
  periodicallyCheckBalances runner bank initCash =
  Fatal (FatalRows (Z.of_nat (length (Rows scan))) (numAccounts bank)).
Proof.
  intros S E L. split.
  - apply (sumAllAccounts_rows runner bank scan st1); trivial. lia.
  - apply (periodicallyCheckBalances_rows runner bank scan st1); trivial. lia.
Qed.

Lemma incomplete_scan_is_fatal_witness :
  sumAllAccounts memory scenarioD = Fatal (FatalRows 3 4) /\
  periodicallyCheckBalances memory scenarioD main_initCash =
  Fatal (FatalRows 3 4).
Proof.
  apply (incomplete_scan_is_fatal memory scenarioD
           {| Err := None;
              Rows := scan_rows (makeAccountID 0) (makeAccountID 4) 4
                        (db scenarioD) |}
           (db scenarioD) main_initCash).
  - reflexivity.
  - reflexivity.
  - vm_compute. reflexivity.
Defined.

Lemma continuousMoneyTransfer_numAccounts (runner : Runner)
  (useTransaction : bool) (bank bank' : Bank)
  (draw_from draw_to exchangeAmount : Z) :
  continuousMoneyTransfer runner useTransaction bank draw_from draw_to
    exchangeAmount = Done bank' ->
  numAccounts bank' = numAccounts bank.
Proof.
  unfold continuousMoneyTransfer.
  destruct (equal (makeAccountID draw_from) (makeAccountID draw_to)).
  - now intros [= <-].
  - destruct (if useTransaction then _ else _) as [[[u [e|]] st]|f];
      try discriminate.
    now intros [= <-].
Qed.

(** C9.  Over the in-memory store, when every account holds a balance
    that is not negative and the amount is not negative, every account
    holds a balance that is not negative after the round.  A round whose
    amount would take the source below zero leaves the store as it was,
    and a round that writes, writes a source record that is not
    negative. *)
Theorem transfer_keeps_balances_nonnegative (useTransaction : bool)
  (bank bank' : Bank) (draw_from draw_to exchangeAmount : Z) :
  0 <= exchangeAmount ->
  (forall id b,
      0 <= id < numAccounts bank ->
      balanceOf (db bank) id = Some b -> 0 <= b) ->
  continuousMoneyTransfer memory useTransaction bank draw_from draw_to
    exchangeAmount = Done bank' ->
  (forall id b,
      0 <= id < numAccounts bank' ->
      balanceOf (db bank') id = Some b -> 0 <= b) /\
  (forall b,
      balanceOf (db bank) draw_from = Some b ->
      b - exchangeAmount < 0 -> db bank' = db bank) /\
  (forall bf bt,
      makeAccountID draw_from <> makeAccountID draw_to ->
      balanceOf (db bank) draw_from = Some bf ->
      balanceOf (db bank) draw_to = Some bt ->
      exchangeAmount <= bf ->
      0 <= bf - exchangeAmount /\
      db bank' = insert (record (bf - exchangeAmount))
                   (record (Int64.add bt exchangeAmount)) (db bank)).
Proof.
  intros Ha Hpos Hrun. split; [|split].
  - intros id b Hid Hb.
    rewrite (continuousMoneyTransfer_numAccounts _ _ _ _ _ _ _ Hrun) in Hid.
    rewrite (continuousMoneyTransfer_accounts _ _ _ _ _ _ Hrun) in Hb.
    now apply (Hpos id b).
  - intros b Hb Hlt.
    destruct (continuousMoneyTransfer_skip useTransaction bank draw_from
                draw_to exchangeAmount b Hb ltac:(lia)) as (bank2 & E & D).
    rewrite E in Hrun. now injection Hrun as <-.
  - intros bf bt N Hf Ht Hle. split; [lia|].
    rewrite (continuousMoneyTransfer_write useTransaction bank draw_from
               draw_to exchangeAmount bf bt N Hf Ht ltac:(lia)) in Hrun.
    now injection Hrun as <-.
Qed.

Lemma transfer_keeps_balances_nonnegative_witness :
  exists bank',
    continuousMoneyTransfer memory true scenarioA 0 1 99 = Done bank' /\
    (forall id b,
        0 <= id < numAccounts bank' ->
        balanceOf (db bank') id = Some b -> 0 <= b) /\
    (forall b,
        balanceOf (db scenarioA) 0 = Some b ->
        b - 99 < 0 -> db bank' = db scenarioA) /\
    (forall bf bt,
        makeAccountID 0 <> makeAccountID 1 ->
        balanceOf (db scenarioA) 0 = Some bf ->
        balanceOf (db scenarioA) 1 = Some bt ->
        99 <= bf ->
        0 <= bf - 99 /\
        db bank' = insert (record (bf - 99)) (record (Int64.add bt 99))
                     (db scenarioA)).
Proof.
  eexists. split; [vm_compute; reflexivity|].
  apply (transfer_keeps_balances_nonnegative true scenarioA _ 0 1 99).
  - lia.
  - intros id b Hid Hb. change (numAccounts scenarioA) with 3 in Hid.
    assert (C : id = 0 \/ id = 1 \/ id = 2) by lia.
    destruct C as [C|[C|C]]; subst id; vm_compute in Hb;
      injection Hb as <-; lia.
  - vm_compute. reflexivity.
Defined.

(** C10.  Whatever the client, when the scan of the account range returns
    no error and a number of rows other than numAccounts, more rows as
    well as fewer, sumAllAccounts ends the process with the message of
    the row count and sums nothing; so for numAccounts + k rows with
    k > 0. *)
Theorem unexpected_row_count_is_fatal (runner : Runner) (bank : Bank)
  (scan : Result) (st1 : store) :
  Scan runner (makeAccountID 0) (makeAccountID (numAccounts bank))
    (numAccounts bank) (db bank) = (scan, st1) ->
  Err scan = None ->
  Z.of_nat (length (Rows scan)) <> numAccounts bank ->
  sumAllAccounts runner bank =
  Fatal (FatalRows (Z.of_nat (length (Rows scan))) (numAccounts bank)) /\
  (forall k, 0 < k ->
     Z.of_nat (length (Rows scan)) = numAccounts bank + k ->
     sumAllAccounts runner bank =
     Fatal (FatalRows (numAccounts bank + k) (numAccounts bank))).
Proof.
  intros S E N.
  pose proof (sumAllAccounts_rows runner bank scan st1 S E N) as F.
  split; [assumption|].
  intros k Hk L. now rewrite <- L.
Qed.

Lemma unexpected_row_count_is_fatal_witness :
  sumAllAccounts overfull scenarioA = Fatal (FatalRows 4 3) /\
  (forall k, 0 < k -> 4 = 3 + k ->
     sumAllAccounts overfull scenarioA = Fatal (FatalRows (3 + k) 3)).
Proof.
  apply (unexpected_row_count_is_fatal overfull scenarioA
           (fst (Scan overfull (makeAccountID 0) (makeAccountID 3) 3
                   (db scenarioA)))
           (db scenarioA)).
  - reflexivity.
  - reflexivity.
  - vm_compute. discriminate.
Defined.

(* ===================================================================== *)
(** ** Further properties: identifiers                                   *)
(* ===================================================================== *)

Lemma digits_value_zeros (m : nat) (s : bytes) :
  Strconv.digits_value (Fmt.zeros m ++ s) 0 = Strconv.digits_value s 0.
Proof.
  induction m as [|m IH]; [reflexivity|].
  exact IH.
Qed.

(** The digits of an identifier read back as the index. *)
Lemma digits_value_makeAccountID (id : Z) :
  0 <= id < 2 ^ 64 ->
  Strconv.digits_value (makeAccountID id) 0 = Some id.
Proof.
  intros H. unfold makeAccountID, Fmt.Sprintf_09d.
  destruct (Z.ltb_spec id 0); [lia|].
  unfold Fmt.pad_digits.
  destruct (FormatUint_dec id H) as (k & Hk & Hub & _ & E).
  rewrite E, digits_value_zeros, digits_value_dec by lia.
  f_equal; lia.
Qed.

(** X1.  Identifiers of distinct indices differ, also beyond nine digits, so
    the test bytes.Equal(from, to) of a round holds exactly when the two
    draws are the same index. *)
Theorem makeAccountID_equal_iff (i j : Z) :
  0 <= i < 2 ^ 63 -> 0 <= j < 2 ^ 63 ->
  (equal (makeAccountID i) (makeAccountID j) = true <-> i = j).
Proof.
  intros Hi Hj. rewrite equal_true. split.
  - intros E.
    pose proof (digits_value_makeAccountID i ltac:(lia)) as Di.
    pose proof (digits_value_makeAccountID j ltac:(lia)) as Dj.
    rewrite E in Di. congruence.
  - now intros ->.
Qed.

Lemma makeAccountID_equal_iff_witness :
  equal (makeAccountID 999999999) (makeAccountID 1000000000) = true <->
  999999999 = 1000000000.
Proof.
  apply (makeAccountID_equal_iff 999999999 1000000000); lia.
Defined.

(** X2.  An identifier has nine bytes exactly when the index is below 10^9;
    from 10^9 on it is longer. *)
Theorem makeAccountID_length (id : Z) :
  0 <= id < 2 ^ 63 ->
  (length (makeAccountID id) = 9%nat <-> id < 1000000000).
Proof.
  intros H. change 1000000000 with (10 ^ 9). split.
  - intros L. destruct (Z.lt_ge_cases id (10 ^ 9)) as [|G]; [assumption|].
    exfalso. unfold makeAccountID, Fmt.Sprintf_09d, Fmt.pad_digits in L.
    destruct (Z.ltb_spec id 0); [lia|].
    destruct (FormatUint_dec id ltac:(lia)) as (k & Hk & Hub & _ & E).
    rewrite E, length_app, length_dec in L.
    assert (9 < k)%nat.
    { destruct (Nat.le_gt_cases k 9) as [Le|]; [|assumption].
      assert (10 ^ Z.of_nat k <= 10 ^ 9) by (apply Z.pow_le_mono_r; lia).
      lia. }
    unfold Fmt.zeros in L. rewrite repeat_length in L. lia.
  - intros L. rewrite makeAccountID_dec by lia. apply length_dec.
Qed.

Lemma makeAccountID_length_witness :
  length (makeAccountID 1000000000) = 9%nat <-> 1000000000 < 1000000000.
Proof.
  apply (makeAccountID_length 1000000000). lia.
Defined.

(* ===================================================================== *)
(** ** Further properties: the transfer worker                           *)
(* ===================================================================== *)

(** X3.  Over the in-memory store, a round whose source account has no
    record ends the process: the read returns empty bytes, which are no
    JSON text. *)
Theorem transfer_from_missing_account (useTransaction : bool) (bank : Bank)
  (draw_from draw_to exchangeAmount : Z) :
  makeAccountID draw_from <> makeAccountID draw_to ->
  lookup (makeAccountID draw_from) (db bank) = None ->
  continuousMoneyTransfer memory useTransaction bank draw_from draw_to
    exchangeAmount = Fatal (FatalError SyntaxError).
Proof.
  intros N L. rewrite continuousMoneyTransfer_memory by assumption.
  unfold read, ValueBytes. cbn [Value]. rewrite L. reflexivity.
Qed.

Lemma transfer_from_missing_account_witness :
  continuousMoneyTransfer memory true scenarioA 3 0 10
  = Fatal (FatalError SyntaxError).
Proof.
  apply (transfer_from_missing_account true scenarioA 3 0 10).
  - vm_compute. discriminate.
  - vm_compute. reflexivity.
Defined.

(** X4.  Over the in-memory store, the record of the destination is decoded
    only after the test of the funds: when it does not decode, the round
    is skipped like any other while the amount exceeds the balance of the
    source, and ends the process with the decoding error otherwise. *)
Theorem transfer_to_undecodable_account (useTransaction : bool) (bank : Bank)
  (draw_from draw_to exchangeAmount bf : Z) (a : Account) (e : error) :
  makeAccountID draw_from <> makeAccountID draw_to ->
  balanceOf (db bank) draw_from = Some bf ->
  decode newAccount (read (db bank) (makeAccountID draw_to)) = (a, Some e) ->
  continuousMoneyTransfer memory useTransaction bank draw_from draw_to
    exchangeAmount =
  if bf <? exchangeAmount
  then Done {| db := db bank; numAccounts := numAccounts bank;
               numTransfers := Int32.add (numTransfers bank) 1 |}
  else Fatal (FatalError e).
Proof.
  intros N Hf Ht. apply read_balanceOf in Hf.
  rewrite continuousMoneyTransfer_memory, Hf, Ht by assumption.
  reflexivity.
Qed.

Lemma transfer_to_undecodable_account_witness :
  continuousMoneyTransfer memory true scenarioB 0 2 75 =
  Done {| db := db scenarioB; numAccounts := 2; numTransfers := 1 |} /\
  continuousMoneyTransfer memory true scenarioB 0 2 25 =
  Fatal (FatalError SyntaxError).
Proof.
  split.
  - apply (transfer_to_undecodable_account true scenarioB 0 2 75 50
             newAccount SyntaxError);
      [vm_compute; discriminate | vm_compute; reflexivity
       | vm_compute; reflexivity].
  - apply (transfer_to_undecodable_account true scenarioB 0 2 25 50
             newAccount SyntaxError);
      [vm_compute; discriminate | vm_compute; reflexivity
       | vm_compute; reflexivity].
Defined.

(** X6.  Whatever the client, a counted round takes the counter from n to
    n + 1 below the largest int32, and from the largest int32 to the
    smallest: the count printed by the balance check turns negative after
    2^31 - 1 counted rounds. *)
Theorem counter_wraps_at_int32 (runner : Runner) (useTransaction : bool)
  (bank bank' : Bank) (draw_from draw_to exchangeAmount : Z) :
  Int32.in_range (numTransfers bank) ->
  makeAccountID draw_from <> makeAccountID draw_to ->
  continuousMoneyTransfer runner useTransaction bank draw_from draw_to
    exchangeAmount = Done bank' ->
  numTransfers bank' =
  if numTransfers bank <? Int32.max then numTransfers bank + 1
  else Int32.min.
Proof.
  unfold Int32.in_range, Int32.min, Int32.max. intros R N.
  unfold continuousMoneyTransfer.
  apply equal_false in N. rewrite N.
  destruct (if useTransaction then _ else _) as [[[u [e|]] st]|f];
    try discriminate.
  intros [= <-]. cbn [numTransfers]. unfold Int32.add, Int32.wrap.
  destruct (Z.ltb_spec (numTransfers bank) (2 ^ 31 - 1)).
  - rewrite Z.mod_small; lia.
  - assert (E : numTransfers bank = 2 ^ 31 - 1) by lia. rewrite E.
    reflexivity.
Qed.

Lemma counter_wraps_at_int32_witness :
  exists bank',
    continuousMoneyTransfer memory true
      {| db := db scenarioA; numAccounts := 3; numTransfers := 2147483647 |}
      0 1 5 = Done bank' /\
    numTransfers bank' = - 2147483648.
Proof.
  eexists. split; [vm_compute; reflexivity|].
  apply (counter_wraps_at_int32 memory true
           {| db := db scenarioA; numAccounts := 3;
              numTransfers := 2147483647 |} _ 0 1 5).
  - vm_compute. split; discriminate.
  - vm_compute. discriminate.
  - vm_compute. reflexivity.
Defined.

(* ===================================================================== *)
(** ** Further properties: the balance check                             *)
(* ===================================================================== *)

(** A record sorts after every identifier: no scan of an account range
    returns a row stored under a record. *)
Lemma record_out_of_range (start : bytes) (n balance : Z) (v : bytes) :
  in_range start (makeAccountID n) (record balance, v) = false.
Proof.
  unfold in_range. cbn [fst]. apply andb_false_iff. right.
  destruct (makeAccountID_head n) as (c & tl & E & Hc). rewrite E.
  unfold ltb, record, encode, Json.Marshal. cbn [fst compare].
  change (val "{") with 123.
  assert (L : val c < 123).
  { destruct Hc as [->|D]; [reflexivity|].
    unfold Strconv.is_digit in D. apply andb_true_iff in D as [_ D].
    apply Z.leb_le in D. lia. }
  destruct (Z.compare_spec 123 (val c)); try reflexivity; lia.
Qed.

Lemma filter_insert_out (start stop k v : bytes) (st : store) :
  in_range start stop (k, v) = false ->
  filter (in_range start stop) (insert k v st) =
  filter (in_range start stop) st.
Proof.
  intros O. induction st as [|[k1 v1] r IH]; cbn [insert filter].
  - now rewrite O.
  - destruct (compare k k1) eqn:C; cbn [filter].
    + apply compare_eq in C. subst k1. rewrite O.
      change (in_range start stop (k, v1)) with (in_range start stop (k, v)).
      now rewrite O.
    + now rewrite O.
    + now rewrite IH.
Qed.

(** What sumAllAccounts does over the in-memory store. *)
Lemma sumAllAccounts_memory (bank : Bank) :
  sumAllAccounts memory bank =
  let rows :=
    scan_rows (makeAccountID 0) (makeAccountID (numAccounts bank))
      (numAccounts bank) (db bank) in
  if negb (Z.of_nat (length rows) =? numAccounts bank)
  then Fatal (FatalRows (Z.of_nat (length rows)) (numAccounts bank))
  else
    match sumRows (Z.to_nat (numAccounts bank)) 0 rows 0 with
    | Fatal f => Fatal f
    | Done result => Done (result, db bank)
    end.
Proof.
  unfold sumAllAccounts, Tx, sumAllAccounts_tx.
  cbn [Scan memory Err Rows Commit].
  destruct (negb _); [reflexivity|].
  destruct (sumRows _ _ _ _); reflexivity.
Qed.

(** A round leaves the rows of every account range as they were. *)
Lemma continuousMoneyTransfer_scan_rows (useTransaction : bool)
  (bank bank' : Bank) (draw_from draw_to exchangeAmount : Z)
  (start : bytes) (n limit : Z) :
  continuousMoneyTransfer memory useTransaction bank draw_from draw_to
    exchangeAmount = Done bank' ->
  scan_rows start (makeAccountID n) limit (db bank') =
  scan_rows start (makeAccountID n) limit (db bank).
Proof.
  intros H.
  destruct (equal (makeAccountID draw_from) (makeAccountID draw_to)) eqn:Q.
  - unfold continuousMoneyTransfer in H. rewrite Q in H.
    now injection H as <-.
  - apply equal_false in Q.
    rewrite continuousMoneyTransfer_memory in H by assumption.
    destruct (decode newAccount _) as [fromAccount [e|]]; [discriminate|].
    destruct (Balance fromAccount <? exchangeAmount).
    { now injection H as <-. }
    destruct (decode newAccount _) as [toAccount [e|]]; [discriminate|].
    injection H as <-. cbn [db]. unfold scan_rows.
    now rewrite filter_insert_out by apply record_out_of_range.
Qed.

(** X7.  Over the in-memory store, a round of a transfer worker leaves the
    rows that the balance check scans as they were, so the sum the check
    reads after the round is the sum it would have read before, and a
    check that would have ended the process still does. *)
Theorem transfer_conserves_the_sum (useTransaction : bool)
  (bank bank' : Bank) (draw_from draw_to exchangeAmount : Z) :
  continuousMoneyTransfer memory useTransaction bank draw_from draw_to
    exchangeAmount = Done bank' ->
  sumAllAccounts memory bank' =
  match sumAllAccounts memory bank with
  | Done (totalAmount, _) => Done (totalAmount, db bank')
  | Fatal f => Fatal f
  end.
Proof.
  intros H. rewrite !sumAllAccounts_memory.
  rewrite (continuousMoneyTransfer_numAccounts _ _ _ _ _ _ _ H).
  cbv zeta.
  rewrite (continuousMoneyTransfer_scan_rows _ _ _ _ _ _ _ _ _ H).
  destruct (negb _); [reflexivity|].
  destruct (sumRows _ _ _ _); reflexivity.
Qed.

Lemma transfer_conserves_the_sum_witness :
  exists bank',
    continuousMoneyTransfer memory true scenarioA 0 1 99 = Done bank' /\
    sumAllAccounts memory bank' = Done (3000, db bank').
Proof.
  eexists. split; [vm_compute; reflexivity|].
  apply (transfer_conserves_the_sum true scenarioA _ 0 1 99).
  vm_compute. reflexivity.
Defined.

Lemma sumRows_undecodable (suf : list Row) (row : Row) (a : Account)
  (e : error) :
  decode newAccount (ValueBytes row) = (a, Some e) ->
  forall (pre rest : list Row) (result : Z) (bs : list Z),
    decodeRows suf = Some bs ->
    sumRows (length suf + S (length rest)) (length pre)
      (pre ++ suf ++ row :: rest) result =
    Fatal (FatalError e).
Proof.
  intros D. induction suf as [|r suf IH]; intros pre rest result bs H.
  - cbn [length Nat.add app sumRows].
    rewrite nth_error_app2, Nat.sub_diag by lia. cbn [nth_error].
    now rewrite D.
  - cbn [decodeRows] in H. cbn [length Nat.add app sumRows].
    rewrite nth_error_app2, Nat.sub_diag by lia. cbn [nth_error].
    destruct (decode newAccount (ValueBytes r)) as [a' [e'|]]; [discriminate|].
    destruct (decodeRows suf) as [bs'|]; [|discriminate].
    specialize (IH (pre ++ [r]) rest (Int64.add result (Balance a')) bs' eq_refl).
    rewrite length_app, <- app_assoc in IH. cbn [length app] in IH.
    rewrite Nat.add_1_r in IH. exact IH.
Qed.

(** X8.  Whatever the client, when the scan has one row per account and a row
    does not decode, sumAllAccounts ends the process with the decoding
    error of the first such row, and no sum is returned. *)
Theorem undecodable_row_is_fatal (runner : Runner) (bank : Bank)
  (scan : Result) (st1 : store) (good rest : list Row) (row : Row)
  (bs : list Z) (a : Account) (e : error) :
  Scan runner (makeAccountID 0) (makeAccountID (numAccounts bank))
    (numAccounts bank) (db bank) = (scan, st1) ->
  Err scan = None ->
  Z.of_nat (length (Rows scan)) = numAccounts bank ->
  Rows scan = good ++ row :: rest ->
  decodeRows good = Some bs ->
  decode newAccount (ValueBytes row) = (a, Some e) ->
  sumAllAccounts runner bank = Fatal (FatalError e).
Proof.
  intros S E L R G D. unfold sumAllAccounts, Tx, sumAllAccounts_tx.
  rewrite S, E.
  destruct (Z.eqb_spec (Z.of_nat (length (Rows scan))) (numAccounts bank));
    [|contradiction].
  cbn [negb]. rewrite <- L, Nat2Z.id, R, length_app. cbn [length].
  pose proof (sumRows_undecodable good row a e D [] rest 0 bs G) as F.
  cbn [length app] in F. now rewrite F.
Qed.

Lemma undecodable_row_is_fatal_witness :
  sumAllAccounts memory
    {| db := insert (makeAccountID 1) (lit "{}x") (db scenarioA);
       numAccounts := 3; numTransfers := 0 |}
  = Fatal (FatalError SyntaxError).
Proof.
  apply (undecodable_row_is_fatal memory
           {| db := insert (makeAccountID 1) (lit "{}x") (db scenarioA);
              numAccounts := 3; numTransfers := 0 |}
           {| Err := None;
              Rows := scan_rows (makeAccountID 0) (makeAccountID 3) 3
                        (insert (makeAccountID 1) (lit "{}x") (db scenarioA)) |}
           (insert (makeAccountID 1) (lit "{}x") (db scenarioA))
           [{| Key := makeAccountID 0; Value := Some (record 1000) |}]
           [{| Key := makeAccountID 2; Value := Some (record 1000) |}]
           {| Key := makeAccountID 1; Value := Some (lit "{}x") |}
           [1000] newAccount SyntaxError);
    vm_compute; reflexivity.
Defined.

Lemma Int64_wrap_add_l (a b : Z) :
  Int64.wrap (Int64.wrap a + b) = Int64.wrap (a + b).
Proof.
  unfold Int64.wrap. f_equal.
  replace ((a + 2 ^ 63) mod 2 ^ 64 - 2 ^ 63 + b + 2 ^ 63)
    with ((a + 2 ^ 63) mod 2 ^ 64 + b) by lia.
  rewrite Zplus_mod_idemp_l. f_equal. lia.
Qed.

Lemma fold_left_add64 (bs : list Z) :
  forall acc,
    fold_left Int64.add bs (Int64.wrap acc) =
    Int64.wrap (acc + fold_right Z.add 0 bs).
Proof.
  induction bs as [|b bs IH]; intros acc; cbn [fold_left fold_right].
  - f_equal. lia.
  - unfold Int64.add at 2. rewrite Int64_wrap_add_l, IH. f_equal. lia.
Qed.

(** The sum of the loop is the sum of the balances, wrapped to 64 bits. *)
Lemma sum64_wrap (bs : list Z) :
  sum64 bs = Int64.wrap (fold_right Z.add 0 bs).
Proof.
  unfold sum64. change 0 with (Int64.wrap 0) at 1.
  now rewrite fold_left_add64.
Qed.

Lemma Int64_wrap_eq (x y : Z) :
  Int64.wrap x = Int64.wrap y <-> (x - y) mod 2 ^ 64 = 0.
Proof.
  unfold Int64.wrap. split.
  - intros H.
    assert (E : (x + 2 ^ 63) mod 2 ^ 64 = (y + 2 ^ 63) mod 2 ^ 64) by lia.
    replace (x - y) with ((x + 2 ^ 63) - (y + 2 ^ 63)) by lia.
    rewrite Zminus_mod, E, Z.sub_diag. reflexivity.
  - intros H. apply Z.mod_divide in H; [|lia]. destruct H as [q Hq].
    replace (x + 2 ^ 63) with (y + 2 ^ 63 + q * 2 ^ 64) by lia.
    now rewrite Z_mod_plus_full.
Qed.

(** X9.  Over the in-memory store, when the scan has one row per account and
    every row decodes, the balance check is in good order exactly when
    the sum of the balances and numAccounts * initCash are equal modulo
    2^64: the comparison is made on wrapped int64 values. *)
Theorem check_compares_modulo_2_64 (bank : Bank) (initCash : Z)
  (bs : list Z) :
  let rows :=
    scan_rows (makeAccountID 0) (makeAccountID (numAccounts bank))
      (numAccounts bank) (db bank) in
  Z.of_nat (length rows) = numAccounts bank ->
  decodeRows rows = Some bs ->
  (periodicallyCheckBalances memory bank initCash =
   Done ([TransfersExecuted (numTransfers bank); GoodOrder], bank)
   <->
   (fold_right Z.add 0 bs - numAccounts bank * initCash) mod 2 ^ 64 = 0).
Proof.
  intros rows L D. unfold periodicallyCheckBalances.
  rewrite (sumAllAccounts_sum memory bank
             {| Err := None; Rows := rows |} (db bank) bs);
    try reflexivity; try assumption.
  rewrite <- Int64_wrap_eq. fold (Int64.mul (numAccounts bank) initCash).
  rewrite <- sum64_wrap.
  destruct (Z.eqb_spec (sum64 bs) (Int64.mul (numAccounts bank) initCash))
    as [E|E]; cbn [negb].
  - split; [intros _; exact E|]. intros _. now destruct bank.
  - split; [discriminate | contradiction].
Qed.

Lemma check_compares_modulo_2_64_witness :
  periodicallyCheckBalances memory
    {| db := ledger 0 [9223372036854775807; 1]; numAccounts := 2;
       numTransfers := 0 |} (- 4611686018427387904)
  = Done ([TransfersExecuted 0; GoodOrder],
          {| db := ledger 0 [9223372036854775807; 1]; numAccounts := 2;
             numTransfers := 0 |})
  <->
  (fold_right Z.add 0 [9223372036854775807; 1]
   - 2 * (- 4611686018427387904)) mod 2 ^ 64 = 0.
Proof.
  apply (check_compares_modulo_2_64
           {| db := ledger 0 [9223372036854775807; 1]; numAccounts := 2;
              numTransfers := 0 |} (- 4611686018427387904)
           [9223372036854775807; 1]);
    vm_compute; reflexivity.
Defined.

(* ===================================================================== *)
(** ** Further properties: initialisation and whole runs                 *)
(* ===================================================================== *)

Lemma run_batch_puts (f : nat -> bytes) (v : bytes) (l : list nat) :
  forall st,
    snd (run_batch (map (fun i => Put (f i) v) l) st) =
    fold_left (fun s i => insert (f i) v s) l st.
Proof.
  induction l as [|i l IH]; intros st; cbn [map run_batch fold_left].
  - reflexivity.
  - cbn [run_call]. specialize (IH (insert (f i) v st)).
    destruct (run_batch _ (insert (f i) v st)). exact IH.
Qed.

Lemma initBankAccounts_memory (bank : Bank) (cash : Z) :
  initBankAccounts memory bank cash =
  Done {| db := fold_left
                  (fun s i => insert (makeAccountID (Z.of_nat i)) (record cash) s)
                  (seq 0 (Z.to_nat (numAccounts bank))) (db bank);
          numAccounts := numAccounts bank;
          numTransfers := numTransfers bank |}.
Proof.
  unfold initBankAccounts, init_batch. cbn [encode Json.Marshal Run memory].
  pose proof (run_batch_puts (fun i => makeAccountID (Z.of_nat i))
                (record cash) (seq 0 (Z.to_nat (numAccounts bank))) (db bank))
    as P.
  unfold record, encode, Json.Marshal in P. cbn [fst Balance] in P.
  destruct (run_batch _ (db bank)) as [rs st']. cbn [snd] in P.
  now rewrite P.
Qed.

Lemma lookup_fold_keep (f : nat -> bytes) (v k : bytes) (l : list nat) :
  forall st,
    lookup k st = Some v ->
    lookup k (fold_left (fun s i => insert (f i) v s) l st) = Some v.
Proof.
  induction l as [|i l IH]; intros st H; cbn [fold_left]; [assumption|].
  apply IH. destruct (equal (f i) k) eqn:Q.
  - apply equal_true in Q. subst k. apply lookup_insert_eq.
  - apply equal_false in Q. now rewrite lookup_insert_ne.
Qed.

Lemma lookup_fold_in (f : nat -> bytes) (v : bytes) (l : list nat) (i : nat) :
  forall st,
    In i l ->
    lookup (f i) (fold_left (fun s j => insert (f j) v s) l st) = Some v.
Proof.
  induction l as [|j l IH]; intros st H; [contradiction|].
  cbn [fold_left]. destruct H as [->|H].
  - apply lookup_fold_keep, lookup_insert_eq.
  - now apply IH.
Qed.

Lemma lookup_fold_out (f : nat -> bytes) (v k : bytes) (l : list nat) :
  forall st,
    (forall i, In i l -> f i <> k) ->
    lookup k (fold_left (fun s j => insert (f j) v s) l st) = lookup k st.
Proof.
  induction l as [|j l IH]; intros st H; cbn [fold_left]; [reflexivity|].
  rewrite IH by (intros i Hi; apply H; now right).
  apply lookup_insert_ne, H. now left.
Qed.

(** X10.  Over the in-memory store initBankAccounts returns without error,
    whatever the store held before; after it every account below
    numAccounts holds [cash], every other key holds what it held, and the
    counters of the bank are as they were. *)
Theorem initBankAccounts_sets_every_account (bank : Bank) (cash : Z) :
  Int64.in_range cash ->
  exists bank',
    initBankAccounts memory bank cash = Done bank' /\
    numAccounts bank' = numAccounts bank /\
    numTransfers bank' = numTransfers bank /\
    (forall id, 0 <= id < numAccounts bank ->
                balanceOf (db bank') id = Some cash) /\
    (forall k,
        (forall id, 0 <= id < numAccounts bank -> makeAccountID id <> k) ->
        lookup k (db bank') = lookup k (db bank)).
Proof.
  intros R. eexists. split; [apply initBankAccounts_memory|].
  cbn [db numAccounts numTransfers]. repeat split.
  - intros id Hid. unfold balanceOf.
    replace id with (Z.of_nat (Z.to_nat id)) by lia.
    rewrite (lookup_fold_in (fun i => makeAccountID (Z.of_nat i))).
    + now rewrite decode_record.
    + apply in_seq. lia.
  - intros k H.
    apply (lookup_fold_out (fun i => makeAccountID (Z.of_nat i))).
    intros i Hi. apply in_seq in Hi. apply H. lia.
Qed.

Lemma initBankAccounts_sets_every_account_witness :
  exists bank',
    initBankAccounts memory
      {| db := db scenarioB; numAccounts := 3; numTransfers := 7 |} 1000
    = Done bank' /\
    numAccounts bank' = 3 /\
    numTransfers bank' = 7 /\
    (forall id, 0 <= id < 3 -> balanceOf (db bank') id = Some 1000) /\
    (forall k,
        (forall id, 0 <= id < 3 -> makeAccountID id <> k) ->
        lookup k (db bank') = lookup k (db scenarioB)).
Proof.
  apply (initBankAccounts_sets_every_account
           {| db := db scenarioB; numAccounts := 3; numTransfers := 7 |} 1000).
  vm_compute. split; discriminate.
Defined.

Lemma compare_antisym_lt (a b : bytes) :
  compare a b = Lt -> compare b a = Gt.
Proof.
  revert b. induction a as [|x a IH]; intros [|y b]; simpl; try discriminate.
  - reflexivity.
  - rewrite (Z.compare_antisym (val x) (val y)).
    destruct (val x ?= val y); simpl; try discriminate; auto.
Qed.

Lemma insert_last (k v : bytes) (st : store) :
  (forall kv, In kv st -> compare k (fst kv) = Gt) ->
  insert k v st = st ++ [(k, v)].
Proof.
  induction st as [|[k1 v1] r IH]; intros H; cbn [insert app].
  - reflexivity.
  - pose proof (H (k1, v1) (or_introl eq_refl)) as G. cbn [fst] in G.
    rewrite G, IH; [reflexivity|]. intros kv Hkv. apply H. now right.
Qed.

Lemma account_rows_succ (m : nat) (cash : Z) :
  account_rows (S m) cash =
  account_rows m cash ++ [(makeAccountID (Z.of_nat m), record cash)].
Proof.
  unfold account_rows. now rewrite seq_S, map_app.
Qed.

(** From the empty store the batch of initBankAccounts leaves the rows
    of the accounts, in the order of the indices. *)
Lemma fold_insert_account_rows (cash : Z) (m : nat) :
  Z.of_nat m <= 10 ^ 9 ->
  fold_left (fun s i => insert (makeAccountID (Z.of_nat i)) (record cash) s)
    (seq 0 m) [] = account_rows m cash.
Proof.
  induction m as [|m IH]; intros H; [reflexivity|].
  rewrite seq_S, fold_left_app, IH by lia. cbn [fold_left Nat.add].
  rewrite account_rows_succ. apply insert_last.
  intros [k v] Hkv. unfold account_rows in Hkv.
  apply in_map_iff in Hkv as (j & [= <- <-] & Hj). apply in_seq in Hj.
  cbn [fst]. apply compare_antisym_lt.
  rewrite !makeAccountID_dec by lia.
  apply (dec_lt 9); simpl; lia.
Qed.

Lemma filter_all {A : Type} (P : A -> bool) (l : list A) :
  (forall x, In x l -> P x = true) -> filter P l = l.
Proof.
  induction l as [|x l IH]; intros H; cbn [filter]; [reflexivity|].
  rewrite (H x (or_introl eq_refl)), IH; [reflexivity|].
  intros y Hy. apply H. now right.
Qed.

Lemma length_account_rows (n : nat) (cash : Z) :
  length (account_rows n cash) = n.
Proof. unfold account_rows. now rewrite length_map, length_seq. Qed.

(** Below 10^9 accounts, the scan of the balance check returns every
    row of the accounts. *)
Lemma scan_account_rows (n : nat) (cash : Z) :
  Z.of_nat n < 10 ^ 9 ->
  scan_rows (makeAccountID 0) (makeAccountID (Z.of_nat n)) (Z.of_nat n)
    (account_rows n cash) =
  map (fun kv => {| Key := fst kv; Value := Some (snd kv) |})
    (account_rows n cash).
Proof.
  intros H. unfold scan_rows. rewrite filter_all.
  - rewrite Nat2Z.id. apply firstn_all2.
    now rewrite length_map, length_account_rows.
  - intros [k v] Hkv. unfold account_rows in Hkv.
    apply in_map_iff in Hkv as (j & [= <- <-] & Hj). apply in_seq in Hj.
    unfold in_range, leb, ltb. cbn [fst].
    assert (L : compare (makeAccountID (Z.of_nat j))
                  (makeAccountID (Z.of_nat n)) = Lt).
    { rewrite !makeAccountID_dec by lia. apply (dec_lt 9); simpl; lia. }
    rewrite L. destruct j as [|j].
    + now rewrite compare_refl.
    + assert (G : compare (makeAccountID 0)
                    (makeAccountID (Z.of_nat (S j))) = Lt).
      { rewrite !makeAccountID_dec by lia. apply (dec_lt 9); simpl; lia. }
      change (Z.of_nat 0) with 0. now rewrite G.
Qed.

Lemma decodeRows_account_rows (cash : Z) (l : list nat) :
  Int64.in_range cash ->
  decodeRows
    (map (fun kv => {| Key := fst kv; Value := Some (snd kv) |})
       (map (fun i => (makeAccountID (Z.of_nat i), record cash)) l)) =
  Some (map (fun _ => cash) l).
Proof.
  intros R. induction l as [|i l IH]; cbn [map decodeRows]; [reflexivity|].
  unfold ValueBytes. cbn [Value fst snd].
  now rewrite decode_record, IH.
Qed.

Lemma sum_constant (cash : Z) (l : list nat) :
  fold_right Z.add 0 (map (fun _ => cash) l) = Z.of_nat (length l) * cash.
Proof.
  induction l as [|i l IH]; cbn [map fold_right length]; [lia|].
  rewrite IH. lia.
Qed.

(** The bank after initBankAccounts on the empty store is consistent. *)
Lemma account_rows_consistent (n : nat) (cash counter : Z) :
  Z.of_nat n < 10 ^ 9 ->
  Int64.in_range cash ->
  consistent (Z.of_nat n) cash
    {| db := account_rows n cash; numAccounts := Z.of_nat n;
       numTransfers := counter |}.
Proof.
  intros H R. unfold consistent. cbn [db numAccounts].
  split; [reflexivity|]. split.
  - intros id Hid. unfold balanceOf.
    rewrite <- (fold_insert_account_rows cash n) by lia.
    replace id with (Z.of_nat (Z.to_nat id)) by lia.
    rewrite (lookup_fold_in (fun i => makeAccountID (Z.of_nat i))).
    + now rewrite decode_record.
    + apply in_seq. lia.
  - exists (map (fun _ => cash) (seq 0 n)).
    rewrite scan_account_rows by assumption.
    rewrite length_map, length_account_rows.
    split; [reflexivity|]. split.
    + unfold account_rows. now apply decodeRows_account_rows.
    + rewrite sum64_wrap, sum_constant, length_seq. reflexivity.
Qed.

(** The balance check of a consistent bank is in good order. *)
Lemma consistent_check (n cash : Z) (bank : Bank) :
  consistent n cash bank ->
  periodicallyCheckBalances memory bank cash =
  Done ([TransfersExecuted (numTransfers bank); GoodOrder], bank).
Proof.
  intros (N & _ & bs & L & D & S). subst n.
  unfold periodicallyCheckBalances.
  rewrite (sumAllAccounts_sum memory bank
             {| Err := None;
                Rows := scan_rows (makeAccountID 0)
                          (makeAccountID (numAccounts bank))
                          (numAccounts bank) (db bank) |} (db bank) bs);
    try reflexivity; try assumption.
  rewrite S, Z.eqb_refl. cbn [negb]. now destruct bank.
Qed.

(** A round of a transfer worker on a consistent bank returns, and the
    bank after it is consistent. *)
Lemma consistent_transfer (n cash : Z) (useTransaction : bool) (bank : Bank)
  (draw_from draw_to exchangeAmount : Z) :
  consistent n cash bank ->
  0 <= draw_from < n -> 0 <= draw_to < n ->
  exists bank',
    continuousMoneyTransfer memory useTransaction bank draw_from draw_to
      exchangeAmount = Done bank' /\
    consistent n cash bank'.
Proof.
  intros C Hf Ht.
  assert (R : exists bank',
             continuousMoneyTransfer memory useTransaction bank draw_from
               draw_to exchangeAmount = Done bank').
  { destruct C as (_ & B & _).
    destruct (equal (makeAccountID draw_from) (makeAccountID draw_to)) eqn:Q.
    - exists bank. unfold continuousMoneyTransfer. now rewrite Q.
    - apply equal_false in Q.
      rewrite continuousMoneyTransfer_memory by assumption.
      rewrite (read_balanceOf _ _ _ (B draw_from Hf)).
      rewrite (read_balanceOf _ _ _ (B draw_to Ht)).
      cbn [Balance]. destruct (cash <? exchangeAmount); eauto. }
  destruct R as (bank' & R). exists bank'. split; [assumption|].
  destruct C as (N & B & bs & L & D & S).
  unfold consistent.
  rewrite (continuousMoneyTransfer_numAccounts _ _ _ _ _ _ _ R).
  rewrite (continuousMoneyTransfer_scan_rows _ _ _ _ _ _ _ _ _ R).
  split; [assumption|]. split.
  - intros id Hid.
    rewrite (continuousMoneyTransfer_accounts _ _ _ _ _ _ R). now apply B.
  - exists bs. auto.
Qed.

Lemma consistent_run (n cash : Z) (useTransaction : bool)
  (schedule : list event) :
  forall bank,
    consistent n cash bank ->
    Forall (draws_below n) schedule ->
    exists lines bank',
      run memory useTransaction cash schedule bank = Done (lines, bank') /\
      consistent n cash bank' /\
      length lines = (2 * checks schedule)%nat /\
      (forall line, In line lines ->
                    line = GoodOrder \/ exists k, line = TransfersExecuted k).
Proof.
  induction schedule as [|e schedule IH]; intros bank C F.
  - exists [], bank. split; [reflexivity|]. split; [assumption|].
    split; [reflexivity|]. intros line [].
  - inversion F as [|? ? Fe Fs]; subst.
    destruct e as [draw_from draw_to exchangeAmount|]; cbn [run].
    + destruct Fe as [Hf Ht].
      destruct (consistent_transfer n cash useTransaction bank draw_from
                  draw_to exchangeAmount C Hf Ht) as (bank1 & R & C1).
      rewrite R. exact (IH bank1 C1 Fs).
    + rewrite (consistent_check n cash bank C).
      destruct (IH bank C Fs) as (lines & bank' & R & C' & L & G).
      rewrite R. eexists; eexists. split; [reflexivity|].
      split; [assumption|]. split.
      * unfold checks in *. cbn [filter length app]. rewrite L. lia.
      * intros line [<-|[<-|H]]; eauto.
Qed.

(** X11.  From the empty in-memory store, with fewer than 10^9 accounts and an
    int64 starting balance: initBankAccounts followed by any schedule of
    rounds of the transfer workers, drawing among the accounts, and of
    the balance check, never ends the process; every check prints its
    two lines, the second being the good order, and at the end every
    account still holds the starting balance. *)
Theorem initialised_run_stays_in_good_order (n cash : Z)
  (useTransaction : bool) (schedule : list event) :
  0 <= n < 1000000000 ->
  Int64.in_range cash ->
  Forall (draws_below n) schedule ->
  exists bank0 lines bank',
    initBankAccounts memory (freshBank n) cash = Done bank0 /\
    run memory useTransaction cash schedule bank0 = Done (lines, bank') /\
    length lines = (2 * checks schedule)%nat /\
    (forall line, In line lines ->
                  line = GoodOrder \/ exists k, line = TransfersExecuted k) /\
    (forall id, 0 <= id < n -> balanceOf (db bank') id = Some cash).
Proof.
  intros Hn R F. change 1000000000 with (10 ^ 9) in Hn.
  eexists. rewrite initBankAccounts_memory.
  cbn [db numAccounts numTransfers freshBank].
  rewrite fold_insert_account_rows by lia.
  pose proof (account_rows_consistent (Z.to_nat n) cash 0) as C.
  rewrite Z2Nat.id in C by lia. specialize (C ltac:(lia) R).
  destruct (consistent_run n cash useTransaction schedule _ C F)
    as (lines & bank' & E & (_ & B & _) & L & G).
  exists lines, bank'. split; [reflexivity|]. auto.
Qed.

Lemma initialised_run_stays_in_good_order_witness :
  exists bank0 lines bank',
    initBankAccounts memory (freshBank 3) 1000 = Done bank0 /\
    run memory true 1000
      [Transfer 0 1 99; CheckBalances; Transfer 2 2 5; CheckBalances] bank0
    = Done (lines, bank') /\
    length lines = 4%nat /\
    (forall line, In line lines ->
                  line = GoodOrder \/ exists k, line = TransfersExecuted k) /\
    (forall id, 0 <= id < 3 -> balanceOf (db bank') id = Some 1000).
Proof.
  apply (initialised_run_stays_in_good_order 3 1000 true
           [Transfer 0 1 99; CheckBalances; Transfer 2 2 5; CheckBalances]).
  - lia.
  - vm_compute. split; discriminate.
  - repeat constructor; lia.
Defined.

(** X12.  main over the empty in-memory store: whatever the schedule of the
    workers' rounds, drawing among the ten accounts, and of the balance
    checks, and with or without transactions, the process is never ended
    and every check prints its two lines. *)
Theorem main_stays_in_good_order (useTransaction : bool)
  (schedule : list event) :
  Forall (draws_below main_numAccounts) schedule ->
  exists lines bank',
    main memory useTransaction [] schedule = Done (lines, bank') /\
    length lines = (2 * checks schedule)%nat /\
    (forall line, In line lines ->
                  line = GoodOrder \/ exists k, line = TransfersExecuted k) /\
    balances (db bank') 10 = repeat (Some main_initCash) 10.
Proof.
  intros F. unfold main.
  change {| db := []; numAccounts := main_numAccounts; numTransfers := 0 |}
    with (freshBank main_numAccounts).
  rewrite initBankAccounts_memory.
  cbn [db numAccounts numTransfers freshBank].
  rewrite fold_insert_account_rows by (vm_compute; discriminate).
  pose proof (account_rows_consistent 10 main_initCash 0
                ltac:(vm_compute; reflexivity)
                ltac:(vm_compute; split; discriminate)) as C.
  destruct (consistent_run main_numAccounts main_initCash useTransaction
              schedule _ C F) as (lines & bank' & E & (_ & B & _) & L & G).
  exists lines, bank'. split; [exact E|]. split; [assumption|].
  split; [assumption|].
  unfold balances. cbn [seq map repeat].
  rewrite !B by (unfold main_numAccounts; cbn; lia). reflexivity.
Qed.

Lemma main_stays_in_good_order_witness :
  exists lines bank',
    main memory false []
      [Transfer 3 4 50; Transfer 4 3 99; CheckBalances] = Done (lines, bank') /\
    length lines = 2%nat /\
    (forall line, In line lines ->
                  line = GoodOrder \/ exists k, line = TransfersExecuted k) /\
    balances (db bank') 10 = repeat (Some main_initCash) 10.
Proof.
  apply (main_stays_in_good_order false
           [Transfer 3 4 50; Transfer 4 3 99; CheckBalances]).
  repeat constructor; unfold main_numAccounts; lia.
Defined.

(* ===================================================================== *)
(** ** Further properties: the in-memory store                           *)
(* ===================================================================== *)

(** The examples of the client, on the in-memory store. *)
Example ExampleDB_Get :
  map ValueBytes
    (concat (map Rows (snd (fst (Run memory [Get [lit "aa"]] [])))))
  = [lit ""].
Proof. reflexivity. Qed.

Example ExampleBatch :
  map (fun row => (Key row, ValueBytes row))
    (concat (map Rows (snd (fst (Run memory
                                   [Get [lit "aa"]; Put (lit "bb") (lit "2")]
                                   [])))))
  = [(lit "aa", lit ""); (lit "bb", lit "2")].
Proof. reflexivity. Qed.

Example ExampleDB_Scan :
  let st :=
    snd (Run memory [Put (lit "aa") (lit "1"); Put (lit "ab") (lit "2");
                     Put (lit "bb") (lit "3")] []) in
  map (fun row => (Key row, ValueBytes row))
    (Rows (fst (Scan memory (lit "a") (lit "b") 100 st)))
  = [(lit "aa", lit "1"); (lit "ab", lit "2")].
Proof. reflexivity. Qed.

(* ===================================================================== *)
(** ** Further properties: errors of the client and overflow             *)
(* ===================================================================== *)

(** X15.  Whatever the client, with or without a transaction: when the batch
    read of a round reports an error, for the batch or in its first
    result, the round ends the process with this error; no write is
    issued and the counter is not incremented. *)
Theorem read_error_is_fatal (runner : Runner) (useTransaction : bool)
  (bank : Bank) (draw_from draw_to exchangeAmount : Z)
  (err : option error) (results : list Result) (st1 : store) (e : error) :
  makeAccountID draw_from <> makeAccountID draw_to ->
  Run runner [Get [makeAccountID draw_from; makeAccountID draw_to]] (db bank)
  = (err, results, st1) ->
  err = Some e \/
  (err = None /\ exists res0 rest, results = res0 :: rest /\ Err res0 = Some e) ->
  continuousMoneyTransfer runner useTransaction bank draw_from draw_to
    exchangeAmount = Fatal (FatalError e).
Proof.
  intros N R H. unfold continuousMoneyTransfer.
  apply equal_false in N. rewrite N.
  assert (T : exists st',
             transferMoney runner (makeAccountID draw_from)
               (makeAccountID draw_to) exchangeAmount (db bank)
             = Done (tt, Some e, st')).
  { unfold transferMoney. rewrite R.
    destruct H as [->|(-> & res0 & rest & -> & E)].
    - eauto.
    - cbn [nth_error]. rewrite E. eauto. }
  destruct T as (st' & T). unfold Tx. rewrite T.
  destruct useTransaction; reflexivity.
Qed.

Lemma read_error_is_fatal_witness :
  continuousMoneyTransfer
    {| Run := fun b st => (Some (ClientError 1), [], st);
       Scan := Scan memory; Commit := Commit memory |}
    true scenarioA 0 1 5
  = Fatal (FatalError (ClientError 1)).
Proof.
  apply (read_error_is_fatal
           {| Run := fun b st => (Some (ClientError 1), [], st);
              Scan := Scan memory; Commit := Commit memory |}
           true scenarioA 0 1 5 (Some (ClientError 1)) [] (db scenarioA)
           (ClientError 1)).
  - vm_compute. discriminate.
  - reflexivity.
  - left. reflexivity.
Defined.

(** X16.  Over the in-memory store, the credit of a round is not checked for
    overflow: when the balance of the destination plus the amount exceeds
    the largest int64, the record the round writes for the destination
    holds that sum less 2^64, a negative balance. *)
Theorem credit_wraps_around (useTransaction : bool) (bank : Bank)
  (draw_from draw_to exchangeAmount bf bt : Z) :
  makeAccountID draw_from <> makeAccountID draw_to ->
  balanceOf (db bank) draw_from = Some bf ->
  balanceOf (db bank) draw_to = Some bt ->
  0 <= exchangeAmount <= bf ->
  Int64.max < bt + exchangeAmount ->
  bt + exchangeAmount - 2 ^ 64 < 0 /\
  continuousMoneyTransfer memory useTransaction bank draw_from draw_to
    exchangeAmount =
  Done {| db := insert (record (bf - exchangeAmount))
                  (record (bt + exchangeAmount - 2 ^ 64)) (db bank);
          numAccounts := numAccounts bank;
          numTransfers := Int32.add (numTransfers bank) 1 |}.
Proof.
  intros N Hf Ht Ha Ho.
  pose proof (balanceOf_range _ _ _ Hf) as Rf.
  pose proof (balanceOf_range _ _ _ Ht) as Rt.
  unfold Int64.in_range, Int64.min, Int64.max in *.
  split; [lia|].
  rewrite (continuousMoneyTransfer_write useTransaction bank draw_from
             draw_to exchangeAmount bf bt N Hf Ht Ha).
  assert (W : Int64.add bt exchangeAmount = bt + exchangeAmount - 2 ^ 64).
  { unfold Int64.add, Int64.wrap.
    replace (bt + exchangeAmount + 2 ^ 63)
      with (bt + exchangeAmount + 2 ^ 63 - 2 ^ 64 + 1 * 2 ^ 64) by lia.
    rewrite Z_mod_plus_full, Z.mod_small by lia. lia. }
  now rewrite W.
Qed.

Lemma credit_wraps_around_witness :
  9223372036854775807 + 1 - 2 ^ 64 < 0 /\
  continuousMoneyTransfer memory true
    (bankOf [100; 9223372036854775807]) 0 1 1 =
  Done {| db := insert (record (100 - 1))
                  (record (9223372036854775807 + 1 - 2 ^ 64))
                  (db (bankOf [100; 9223372036854775807]));
          numAccounts := numAccounts (bankOf [100; 9223372036854775807]);
          numTransfers :=
            Int32.add (numTransfers (bankOf [100; 9223372036854775807])) 1 |}.
Proof.
  apply (credit_wraps_around true (bankOf [100; 9223372036854775807])
           0 1 1 100 9223372036854775807).
  - vm_compute. discriminate.
  - vm_compute. reflexivity.
  - vm_compute. reflexivity.
  - lia.
  - vm_compute. reflexivity.
Defined.

(* ===================================================================== *)
(** ** The scanner and the JSON grammar                                  *)
(* ===================================================================== *)

(** *** What the scanner accepts is in the grammar *)

Lemma skip_space_split (s : bytes) :
  exists w, Grammar.ws w /\ s = w ++ Json.skip_space s.
Proof.
  induction s as [|c s (w & W & E)]; cbn [Json.skip_space].
  - exists []. split; [constructor | reflexivity].
  - destruct (Json.is_space c) eqn:C.
    + exists (c :: w). split; [now constructor|]. cbn [app]. now f_equal.
    + exists []. split; [constructor | reflexivity].
Qed.

Lemma skip_space_head (s r : bytes) (c : ascii) :
  Json.skip_space s = c :: r -> Json.is_space c = false.
Proof.
  induction s as [|x s IH]; cbn [Json.skip_space]; [discriminate|].
  destruct (Json.is_space x) eqn:X; [exact IH|].
  now intros [= -> _].
Qed.

Lemma span_digits_sound (s : bytes) :
  forall ds rest,
    Json.span_digits s = (ds, rest) -> s = ds ++ rest /\ Grammar.digits ds.
Proof.
  induction s as [|c s IH]; intros ds rest H; cbn [Json.span_digits] in H.
  - injection H as <- <-. split; [reflexivity | constructor].
  - destruct (Strconv.is_digit c) eqn:D.
    + destruct (Json.span_digits s) as [ds' rest'].
      injection H as <- <-. destruct (IH _ _ eq_refl) as [-> G].
      split; [reflexivity | now constructor].
    + injection H as <- <-. split; [reflexivity | constructor].
Qed.

Lemma scan_int_sound (s ip rest : bytes) :
  Json.scan_int s = Some (ip, rest) -> s = ip ++ rest /\ Grammar.int ip.
Proof.
  destruct s as [|c r]; [discriminate|]. cbn [Json.scan_int].
  destruct (Ascii.eqb_spec c "0") as [->|N].
  - intros [= <- <-]. split; [reflexivity | constructor].
  - destruct (Strconv.is_digit c) eqn:D; [|discriminate].
    destruct (Json.span_digits r) as [ds rest'] eqn:E.
    intros [= <- <-]. apply span_digits_sound in E as [-> G].
    split; [reflexivity | now constructor].
Qed.

Lemma scan_frac_sound (s fp rest : bytes) :
  Json.scan_frac s = Some (fp, rest) -> s = fp ++ rest /\ Grammar.frac fp.
Proof.
  destruct s as [|c r]; cbn [Json.scan_frac].
  - intros [= <- <-]. split; [reflexivity | constructor].
  - destruct (Ascii.eqb_spec c ".") as [->|N].
    + destruct (Json.span_digits r) as [ds rest'] eqn:E.
      apply span_digits_sound in E as [-> G].
      destruct ds as [|d ds]; [discriminate|].
      intros [= <- <-]. inversion G; subst.
      split; [reflexivity | now constructor].
    + intros [= <- <-]. split; [reflexivity | constructor].
Qed.

Lemma scan_exp_sound (s ep rest : bytes) :
  Json.scan_exp s = Some (ep, rest) -> s = ep ++ rest /\ Grammar.exp ep.
Proof.
  destruct s as [|c r]; cbn [Json.scan_exp].
  - intros [= <- <-]. split; [reflexivity | constructor].
  - destruct (Ascii.eqb c "e" || Ascii.eqb c "E") eqn:C.
    + assert (Hc : c = "e"%char \/ c = "E"%char).
      { apply orb_true_iff in C as [C|C]; apply Ascii.eqb_eq in C; auto. }
      assert (L : forall sign r1,
                 sign = [] \/ sign = ["+"%char] \/ sign = ["-"%char] ->
                 r = sign ++ r1 ->
                 match Json.span_digits r1 with
                 | ([], _) => None
                 | (ds, rest0) => Some (c :: sign ++ ds, rest0)
                 end = Some (ep, rest) ->
                 c :: r = ep ++ rest /\ Grammar.exp ep).
      { intros sign r1 Hs -> H.
        destruct (Json.span_digits r1) as [ds rest'] eqn:E.
        apply span_digits_sound in E as [-> G].
        destruct ds as [|d ds]; [discriminate|].
        injection H as <- <-. inversion G; subst. split.
        - cbn [app]. now rewrite <- app_assoc.
        - now constructor. }
      destruct r as [|g r'].
      * apply (L [] []); auto.
      * destruct (Ascii.eqb g "+" || Ascii.eqb g "-") eqn:G.
        -- apply (L [g] r'); [|reflexivity].
           apply orb_true_iff in G as [G|G]; apply Ascii.eqb_eq in G;
             subst; auto.
        -- apply (L [] (g :: r')); auto.
    + intros [= <- <-]. split; [reflexivity | constructor].
Qed.

Lemma scan_unsigned_sound (sign s l rest : bytes) :
  Json.scan_unsigned sign s = Some (l, rest) ->
  exists ip fp ep,
    l = sign ++ ip ++ fp ++ ep /\ s = ip ++ fp ++ ep ++ rest /\
    Grammar.int ip /\ Grammar.frac fp /\ Grammar.exp ep.
Proof.
  unfold Json.scan_unsigned.
  destruct (Json.scan_int s) as [[ip s2]|] eqn:E1; [|discriminate].
  destruct (Json.scan_frac s2) as [[fp s3]|] eqn:E2; [|discriminate].
  destruct (Json.scan_exp s3) as [[ep s4]|] eqn:E3; [|discriminate].
  intros [= <- <-].
  apply scan_int_sound in E1 as [-> I].
  apply scan_frac_sound in E2 as [-> F].
  apply scan_exp_sound in E3 as [-> X].
  exists ip, fp, ep. auto.
Qed.

Lemma scan_number_sound (s l rest : bytes) :
  Json.scan_number s = Some (l, rest) -> s = l ++ rest /\ Grammar.number l.
Proof.
  destruct s as [|c r]; [discriminate|]. cbn [Json.scan_number].
  destruct (Ascii.eqb_spec c "-") as [->|N]; intros H;
    apply scan_unsigned_sound in H as (ip & fp & ep & -> & E & I & F & X).
  - rewrite E. split.
    + cbn [app]. now rewrite <- !app_assoc.
    + constructor; auto.
  - rewrite E. split.
    + cbn [app]. now rewrite <- !app_assoc.
    + apply (Grammar.number_intro []); auto.
Qed.

Lemma scan_string_sound (s : bytes) :
  forall raw rest,
    Json.scan_string s = Some (raw, rest) ->
    s = raw ++ dq :: rest /\ Grammar.chars raw.
Proof.
  induction s as [s IH] using (well_founded_induction
                                 (Wf_nat.well_founded_ltof _ (@length ascii))).
  unfold Wf_nat.ltof in IH.
  intros raw rest H. destruct s as [|c r]; [discriminate|].
  cbn [Json.scan_string] in H.
  destruct (Ascii.eqb_spec c dq) as [->|Nq].
  { injection H as <- <-. split; [reflexivity | constructor]. }
  destruct (Ascii.eqb_spec c bs) as [->|Nb].
  - destruct r as [|e r1]; [discriminate|].
    destruct (Json.is_simple_escape e) eqn:S.
    + destruct (Json.scan_string r1) as [[raw' rest']|] eqn:E; [|discriminate].
      injection H as <- <-.
      apply IH in E as [-> C]; [|simpl; lia].
      split; [reflexivity | now constructor].
    + destruct (Ascii.eqb_spec e "u") as [->|]; [|discriminate].
      destruct r1 as [|h1 [|h2 [|h3 [|h4 r2]]]]; try discriminate.
      destruct (Json.is_hex h1) eqn:H1; [|discriminate].
      destruct (Json.is_hex h2) eqn:H2; [|discriminate].
      destruct (Json.is_hex h3) eqn:H3; [|discriminate].
      destruct (Json.is_hex h4) eqn:H4; [|discriminate].
      cbn [andb] in H.
      destruct (Json.scan_string r2) as [[raw' rest']|] eqn:E; [|discriminate].
      injection H as <- <-.
      apply IH in E as [-> C]; [|simpl; lia].
      split; [reflexivity | now constructor].
  - destruct (Z.ltb_spec (val c) 32); [discriminate|].
    destruct (Json.scan_string r) as [[raw' rest']|] eqn:E; [|discriminate].
    injection H as <- <-.
    apply IH in E as [-> C]; [|simpl; lia].
    split; [reflexivity | now constructor].
Qed.

Lemma scan_literal_sound (s rest : bytes) (v : Json.value) :
  Json.scan_literal s = Some (v, rest) ->
  exists t, s = t ++ rest /\ forall d, Grammar.value d t v.
Proof.
  unfold Json.scan_literal. intros H.
  repeat match type of H with
         | context [match ?x with _ => _ end] => destruct x; try discriminate
         end;
    injection H as <- <-;
    first [ exists (lit "false"); split; [reflexivity | constructor]
          | exists (lit "null"); split; [reflexivity | constructor]
          | exists (lit "true"); split; [reflexivity | constructor] ].
Qed.

Lemma ws_app (w1 w2 : bytes) :
  Grammar.ws w1 -> Grammar.ws w2 -> Grammar.ws (w1 ++ w2).
Proof. intros H1 H2. apply Forall_app. now split. Qed.

Lemma elements_ws (w : bytes) (d : Z) (s : bytes) (vs : list Json.value) :
  Grammar.ws w -> Grammar.elements d s vs -> Grammar.elements d (w ++ s) vs.
Proof.
  intros W H. inversion H as [d0 w1 t w2 v W1 V W2|d0 w1 t w2 v s' vs' W1 V W2 R];
    subst; rewrite app_assoc; constructor; auto using ws_app.
Qed.

Lemma members_ws (w : bytes) (d : Z) (s : bytes)
  (ms : list (bytes * Json.value)) :
  Grammar.ws w -> Grammar.members d s ms -> Grammar.members d (w ++ s) ms.
Proof.
  intros W H. inversion H; subst; rewrite app_assoc; constructor;
    auto using ws_app.
Qed.

(** Appended lists with their brackets moved to the right. *)
Ltac app_norm :=
  repeat (rewrite <- ?app_assoc; cbn [app]); reflexivity.

Lemma parse_sound (f : nat) :
  (forall d s v rest,
      Json.parse_value f d s = Some (v, rest) ->
      exists w t, Grammar.ws w /\ Grammar.value d t v /\ s = w ++ t ++ rest) /\
  (forall d s ms rest,
      Json.parse_members f d s = Some (ms, rest) ->
      exists t, Grammar.members d t ms /\ s = t ++ "}"%char :: rest) /\
  (forall d s vs rest,
      Json.parse_elements f d s = Some (vs, rest) ->
      exists t, Grammar.elements d t vs /\ s = t ++ "]"%char :: rest).
Proof.
  induction f as [|f (IHv & IHm & IHe)].
  { repeat split; intros; discriminate. }
  split; [|split].
  - (* parse_value *)
    intros d s v rest H. cbn [Json.parse_value] in H.
    destruct (skip_space_split s) as (w & W & E).
    destruct (Json.skip_space s) as [|c r]; [discriminate|].
    exists w. subst s.
    destruct (Ascii.eqb_spec c "{") as [->|N1].
    { destruct (Z.leb_spec Json.maxNestingDepth d); [discriminate|].
      destruct (skip_space_split r) as (w' & W' & E').
      destruct (Json.skip_space r) as [|c1 r1]; [discriminate|]. subst r.
      destruct (Ascii.eqb_spec c1 "}") as [->|N].
      - injection H as <- <-.
        exists ("{"%char :: w' ++ ["}"%char]).
        split; [assumption|]. split; [now constructor | app_norm].
      - destruct (Json.parse_members f (d + 1) (c1 :: r1)) as [[ms rest']|] eqn:M;
          [|discriminate].
        injection H as <- <-. apply IHm in M as (t & M & E). rewrite E.
        exists ("{"%char :: (w' ++ t) ++ ["}"%char]).
        split; [assumption|]. split; [|app_norm].
        constructor; [assumption|]. now apply members_ws. }
    destruct (Ascii.eqb_spec c "[") as [->|N2].
    { destruct (Z.leb_spec Json.maxNestingDepth d); [discriminate|].
      destruct (skip_space_split r) as (w' & W' & E').
      destruct (Json.skip_space r) as [|c1 r1]; [discriminate|]. subst r.
      destruct (Ascii.eqb_spec c1 "]") as [->|N].
      - injection H as <- <-.
        exists ("["%char :: w' ++ ["]"%char]).
        split; [assumption|]. split; [now constructor | app_norm].
      - destruct (Json.parse_elements f (d + 1) (c1 :: r1)) as [[vs rest']|] eqn:M;
          [|discriminate].
        injection H as <- <-. apply IHe in M as (t & M & E). rewrite E.
        exists ("["%char :: (w' ++ t) ++ ["]"%char]).
        split; [assumption|]. split; [|app_norm].
        constructor; [assumption|]. now apply elements_ws. }
    destruct (Ascii.eqb_spec c dq) as [->|N3].
    { destruct (Json.scan_string r) as [[raw rest']|] eqn:S; [|discriminate].
      injection H as <- <-. apply scan_string_sound in S as [-> C].
      exists (dq :: raw ++ [dq]).
      split; [assumption|]. split; [now constructor | app_norm]. }
    destruct (Ascii.eqb c "-" || Strconv.is_digit c).
    { destruct (Json.scan_number (c :: r)) as [[l rest']|] eqn:S; [|discriminate].
      injection H as <- <-. apply scan_number_sound in S as [E C].
      exists l. rewrite E.
      split; [assumption|]. split; [now constructor | reflexivity]. }
    apply scan_literal_sound in H as (t & E & V). rewrite E.
    exists t. auto.
  - (* parse_members *)
    intros d s ms rest H. cbn [Json.parse_members] in H.
    destruct (skip_space_split s) as (w1 & W1 & E).
    destruct (Json.skip_space s) as [|c r]; [discriminate|]. subst s.
    destruct (Ascii.eqb_spec c dq) as [->|]; [|discriminate].
    destruct (Json.scan_string r) as [[key r1]|] eqn:S; [|discriminate].
    apply scan_string_sound in S as [-> C].
    destruct (skip_space_split r1) as (w2 & W2 & E).
    destruct (Json.skip_space r1) as [|c2 r2]; [discriminate|]. subst r1.
    destruct (Ascii.eqb_spec c2 ":") as [->|]; [|discriminate].
    destruct (Json.parse_value f d r2) as [[v r3]|] eqn:V; [|discriminate].
    apply IHv in V as (w3 & t & W3 & V & ->).
    destruct (skip_space_split r3) as (w4 & W4 & E).
    destruct (Json.skip_space r3) as [|c4 r4]; [discriminate|]. subst r3.
    destruct (Ascii.eqb_spec c4 "}") as [->|].
    + injection H as <- <-.
      exists (w1 ++ dq :: key ++ dq :: w2 ++ ":"%char :: w3 ++ t ++ w4).
      split; [now constructor | app_norm].
    + destruct (Ascii.eqb_spec c4 ",") as [->|]; [|discriminate].
      destruct (Json.parse_members f d r4) as [[ms' rest']|] eqn:M;
        [|discriminate].
      injection H as <- <-. apply IHm in M as (t' & M & ->).
      exists (w1 ++ dq :: key ++ dq :: w2 ++ ":"%char :: w3 ++ t ++ w4
                 ++ ","%char :: t').
      split; [now constructor | app_norm].
  - (* parse_elements *)
    intros d s vs rest H. cbn [Json.parse_elements] in H.
    destruct (Json.parse_value f d s) as [[v r1]|] eqn:V; [|discriminate].
    apply IHv in V as (w1 & t & W1 & V & ->).
    destruct (skip_space_split r1) as (w2 & W2 & E).
    destruct (Json.skip_space r1) as [|c2 r2]; [discriminate|]. subst r1.
    destruct (Ascii.eqb_spec c2 "]") as [->|].
    + injection H as <- <-.
      exists (w1 ++ t ++ w2). split; [now constructor | app_norm].
    + destruct (Ascii.eqb_spec c2 ",") as [->|]; [|discriminate].
      destruct (Json.parse_elements f d r2) as [[vs' rest']|] eqn:M;
        [|discriminate].
      injection H as <- <-. apply IHe in M as (t' & M & ->).
      exists (w1 ++ t ++ w2 ++ ","%char :: t').
      split; [now constructor | app_norm].
Qed.

(** *** What is in the grammar, the scanner accepts *)

Lemma skip_space_ws (w s : bytes) :
  Grammar.ws w -> Json.skip_space (w ++ s) = Json.skip_space s.
Proof.
  intros W. induction W as [|c w C _ IH]; [reflexivity|].
  cbn [app Json.skip_space]. now rewrite C.
Qed.

Lemma skip_space_stop (c : ascii) (r : bytes) :
  Json.is_space c = false -> Json.skip_space (c :: r) = c :: r.
Proof. intros H. cbn [Json.skip_space]. now rewrite H. Qed.

Lemma skip_space_idem (s : bytes) :
  Json.skip_space (Json.skip_space s) = Json.skip_space s.
Proof.
  destruct (Json.skip_space s) as [|c r] eqn:E; [reflexivity|].
  apply skip_space_stop. now apply (skip_space_head s r).
Qed.

Lemma parse_value_skip (f : nat) (d : Z) (s : bytes) :
  Json.parse_value f d (Json.skip_space s) = Json.parse_value f d s.
Proof.
  destruct f as [|f]; [reflexivity|].
  cbn [Json.parse_value]. now rewrite skip_space_idem.
Qed.

Lemma parse_members_skip (f : nat) (d : Z) (s : bytes) :
  Json.parse_members f d (Json.skip_space s) = Json.parse_members f d s.
Proof.
  destruct f as [|f]; [reflexivity|].
  cbn [Json.parse_members]. now rewrite skip_space_idem.
Qed.

Lemma parse_elements_skip (f : nat) (d : Z) (s : bytes) :
  Json.parse_elements f d (Json.skip_space s) = Json.parse_elements f d s.
Proof.
  destruct f as [|f]; [reflexivity|].
  cbn [Json.parse_elements]. now rewrite parse_value_skip.
Qed.

Lemma parse_value_ws (f : nat) (d : Z) (w s : bytes) :
  Grammar.ws w -> Json.parse_value f d (w ++ s) = Json.parse_value f d s.
Proof.
  intros W. now rewrite <- parse_value_skip, skip_space_ws, parse_value_skip.
Qed.

Lemma parse_members_ws (f : nat) (d : Z) (w s : bytes) :
  Grammar.ws w -> Json.parse_members f d (w ++ s) = Json.parse_members f d s.
Proof.
  intros W.
  now rewrite <- parse_members_skip, skip_space_ws, parse_members_skip.
Qed.

Lemma is_space_cases (c : ascii) :
  Json.is_space c = true ->
  c = " "%char \/ c = "009"%char \/ c = "013"%char \/ c = "010"%char.
Proof.
  unfold Json.is_space. intros H.
  repeat (apply orb_true_iff in H as [H|H]);
    apply Ascii.eqb_eq in H; auto.
Qed.

(** A delimiter is no byte a number could go on with. *)
Lemma delimited_head (rest : bytes) :
  Grammar.delimited rest ->
  match rest with
  | [] => True
  | c :: _ =>
      Strconv.is_digit c = false /\ Ascii.eqb c "." = false /\
      Ascii.eqb c "e" = false /\ Ascii.eqb c "E" = false
  end.
Proof.
  destruct rest as [|c r]; [trivial|]. cbn [Grammar.delimited].
  intros [H|[H|[H|H]]]; [|subst c; repeat split; reflexivity ..].
  apply is_space_cases in H as [H|[H|[H|H]]]; subst c;
    repeat split; reflexivity.
Qed.

Lemma scan_int_complete (ip s : bytes) :
  Grammar.int ip ->
  match s with
  | c :: _ => Strconv.is_digit c = false
  | [] => True
  end ->
  Json.scan_int (ip ++ s) = Some (ip, s).
Proof.
  intros I H. destruct I as [|c ds D N G].
  - reflexivity.
  - cbn [app Json.scan_int].
    destruct (Ascii.eqb_spec c "0"); [contradiction|].
    now rewrite D, span_digits_app.
Qed.

Lemma scan_frac_complete (fp s : bytes) :
  Grammar.frac fp ->
  match s with
  | c :: _ => Strconv.is_digit c = false
  | [] => True
  end ->
  (fp = [] -> match s with
              | c :: _ => Ascii.eqb c "." = false
              | [] => True
              end) ->
  Json.scan_frac (fp ++ s) = Some (fp, s).
Proof.
  intros F H N. destruct F as [|d ds D G].
  - specialize (N eq_refl). destruct s as [|c r]; [reflexivity|].
    cbn [app Json.scan_frac]. now rewrite N.
  - cbn [app Json.scan_frac]. change (Ascii.eqb "." ".") with true. cbv iota.
    change (d :: ds ++ s) with ((d :: ds) ++ s).
    rewrite span_digits_app; [reflexivity | now constructor | assumption].
Qed.

Lemma scan_exp_complete (ep s : bytes) :
  Grammar.exp ep ->
  match s with
  | c :: _ => Strconv.is_digit c = false
  | [] => True
  end ->
  (ep = [] -> match s with
              | c :: _ => Ascii.eqb c "e" = false /\ Ascii.eqb c "E" = false
              | [] => True
              end) ->
  Json.scan_exp (ep ++ s) = Some (ep, s).
Proof.
  intros X H N. destruct X as [|e sign d ds He Hs D G].
  - specialize (N eq_refl). destruct s as [|c r]; [reflexivity|].
    cbn [app Json.scan_exp]. destruct N as [-> ->]. reflexivity.
  - assert (S : Json.span_digits ((d :: ds) ++ s) = (d :: ds, s)).
    { apply span_digits_app; [now constructor | assumption]. }
    cbn [app] in S. cbn [app Json.scan_exp].
    assert (E : Ascii.eqb e "e" || Ascii.eqb e "E" = true).
    { destruct He as [He|He]; subst e; reflexivity. }
    rewrite E. destruct Hs as [Hs|[Hs|Hs]]; subst sign; cbn [app].
    + destruct (digit_not_sign d D) as [M P].
      rewrite P, M. cbn [orb]. now rewrite S.
    + change (Ascii.eqb "+" "+") with true. cbn [orb]. now rewrite S.
    + change (Ascii.eqb "-" "+" || Ascii.eqb "-" "-") with true.
      cbv iota. now rewrite S.
Qed.

Lemma exp_head (ep s : bytes) :
  Grammar.exp ep ->
  match s with
  | c :: _ => Strconv.is_digit c = false /\ Ascii.eqb c "." = false
  | [] => True
  end ->
  match ep ++ s with
  | c :: _ => Strconv.is_digit c = false /\ Ascii.eqb c "." = false
  | [] => True
  end.
Proof.
  intros X H. destruct X as [|e sign d ds He Hs D G]; [assumption|].
  cbn [app]. destruct He as [He|He]; subst e; split; reflexivity.
Qed.

Lemma scan_unsigned_complete (sign ip fp ep rest : bytes) :
  Grammar.int ip -> Grammar.frac fp -> Grammar.exp ep ->
  Grammar.delimited rest ->
  Json.scan_unsigned sign (ip ++ fp ++ ep ++ rest) =
  Some (sign ++ ip ++ fp ++ ep, rest).
Proof.
  intros I F X D. apply delimited_head in D.
  assert (Hr : match rest with
               | c :: _ => Strconv.is_digit c = false
               | [] => True
               end).
  { destruct rest; [trivial | apply D]. }
  assert (He : match ep ++ rest with
               | c :: _ => Strconv.is_digit c = false /\ Ascii.eqb c "." = false
               | [] => True
               end).
  { apply exp_head; [assumption|]. destruct rest; [trivial|]. split; apply D. }
  assert (Hf : match fp ++ ep ++ rest with
               | c :: _ => Strconv.is_digit c = false
               | [] => True
               end).
  { destruct F as [|d ds]; [|reflexivity].
    cbn [app]. destruct (ep ++ rest); [trivial | apply He]. }
  unfold Json.scan_unsigned.
  rewrite scan_int_complete by assumption.
  rewrite scan_frac_complete; try assumption.
  - rewrite scan_exp_complete; try assumption; [reflexivity|].
    intros _. destruct rest; [trivial|]. split; apply D.
  - destruct (ep ++ rest); [trivial | apply He].
  - intros _. destruct (ep ++ rest); [trivial | apply He].
Qed.

Lemma int_head (ip : bytes) :
  Grammar.int ip ->
  exists c tl, ip = c :: tl /\ Strconv.is_digit c = true.
Proof.
  intros [|c ds D]; eexists; eexists; split; try reflexivity; assumption.
Qed.

Lemma scan_number_complete (l rest : bytes) :
  Grammar.number l -> Grammar.delimited rest ->
  Json.scan_number (l ++ rest) = Some (l, rest).
Proof.
  intros N D. destruct N as [sign ip fp ep Hs I F X].
  pose proof (scan_unsigned_complete sign ip fp ep rest I F X D) as U.
  destruct Hs as [Hs|Hs]; subst sign.
  - destruct (int_head ip I) as (c & tl & E & Dc). subst ip.
    cbn [app] in *. rewrite scan_number_plain by apply (digit_not_sign c Dc).
    etransitivity; [|exact U]. f_equal. app_norm.
  - cbn [app]. rewrite scan_number_minus.
    etransitivity; [|exact U]. f_equal. app_norm.
Qed.

Lemma number_head (l : bytes) :
  Grammar.number l ->
  exists c tl, l = c :: tl /\ (c = "-"%char \/ Strconv.is_digit c = true).
Proof.
  intros [sign ip fp ep Hs I F X].
  destruct Hs as [Hs|Hs]; subst sign.
  - destruct (int_head ip I) as (c & tl & -> & D).
    eexists; eexists. split; [reflexivity | now right].
  - eexists; eexists. split; [reflexivity | now left].
Qed.

Lemma scan_string_complete (raw rest : bytes) :
  Grammar.chars raw ->
  Json.scan_string (raw ++ dq :: rest) = Some (raw, rest).
Proof.
  intros C. induction C as [|c r V Nq Nb C IH|e r S C IH
                            |h1 h2 h3 h4 r H1 H2 H3 H4 C IH].
  - reflexivity.
  - cbn [app Json.scan_string].
    destruct (Ascii.eqb_spec c dq); [contradiction|].
    destruct (Ascii.eqb_spec c bs); [contradiction|].
    destruct (Z.ltb_spec (val c) 32); [lia|]. now rewrite IH.
  - cbn [app Json.scan_string].
    change (Ascii.eqb bs dq) with false. change (Ascii.eqb bs bs) with true.
    cbv iota. now rewrite S, IH.
  - cbn [app Json.scan_string].
    change (Ascii.eqb bs dq) with false. change (Ascii.eqb bs bs) with true.
    change (Json.is_simple_escape "u") with false.
    change (Ascii.eqb "u" "u") with true.
    cbv iota. now rewrite H1, H2, H3, H4, IH.
Qed.

(** A value starts with a byte that is no white space and closes
    nothing. *)
Lemma value_head (d : Z) (t : bytes) (v : Json.value) :
  Grammar.value d t v ->
  exists c r,
    t = c :: r /\ Json.is_space c = false /\
    Ascii.eqb c "]" = false /\ Ascii.eqb c "}" = false.
Proof.
  intros V. destruct V;
    try (eexists; eexists; split; [reflexivity|];
         repeat split; reflexivity).
  destruct (number_head l) as (c & tl & -> & [->|D]); [assumption| |].
  - eexists; eexists; split; [reflexivity|]. repeat split; reflexivity.
  - exists c, tl. split; [reflexivity|].
    destruct (digit_not_punct c D) as (S & _).
    assert (N : forall x, Strconv.is_digit x = false -> Ascii.eqb c x = false).
    { intros x Hx.
      destruct (Ascii.eqb_spec c x); [subst; congruence | reflexivity]. }
    repeat split; [assumption | apply N; reflexivity ..].
Qed.

Lemma elements_head (d : Z) (s : bytes) (vs : list Json.value) (rest : bytes) :
  Grammar.elements d s vs ->
  exists c r,
    Json.skip_space (s ++ rest) = c :: r /\ Ascii.eqb c "]" = false.
Proof.
  intros E.
  assert (G : forall w1 t v tail,
             Grammar.ws w1 -> Grammar.value d t v ->
             exists c r,
               Json.skip_space ((w1 ++ t ++ tail) ++ rest) = c :: r /\
               Ascii.eqb c "]" = false).
  { intros w1 t v tail W V.
    destruct (value_head d t v V) as (c & r & -> & S & B & _).
    exists c, (r ++ tail ++ rest). split; [|assumption].
    rewrite <- app_assoc, skip_space_ws by assumption.
    cbn [app]. rewrite skip_space_stop by assumption.
    f_equal. app_norm. }
  destruct E as [d w1 t w2 v W1 V W2|d w1 t w2 v s vs W1 V W2 E'];
    eapply G; eassumption.
Qed.

Lemma members_head (d : Z) (s : bytes) (ms : list (bytes * Json.value))
  (rest : bytes) :
  Grammar.members d s ms ->
  exists c r,
    Json.skip_space (s ++ rest) = c :: r /\ Ascii.eqb c "}" = false.
Proof.
  intros M.
  assert (G : forall w1 tail,
             Grammar.ws w1 ->
             exists c r,
               Json.skip_space ((w1 ++ dq :: tail) ++ rest) = c :: r /\
               Ascii.eqb c "}" = false).
  { intros w1 tail W. exists dq, (tail ++ rest). split; [|reflexivity].
    rewrite <- app_assoc, skip_space_ws by assumption. reflexivity. }
  destruct M; eapply G; eassumption.
Qed.

Lemma delimited_ws (w : bytes) (c : ascii) (rest : bytes) :
  Grammar.ws w ->
  c = ","%char \/ c = "]"%char \/ c = "}"%char ->
  Grammar.delimited (w ++ c :: rest).
Proof.
  intros W H. destruct W as [|x w X _]; cbn [app Grammar.delimited]; auto.
Qed.

(** *** One step of the parser on each form of the grammar *)

Lemma parse_value_literal (f : nat) (d : Z) (rest : bytes) :
  Json.parse_value (S f) d (lit "null" ++ rest) = Some (Json.Null, rest) /\
  Json.parse_value (S f) d (lit "true" ++ rest) =
    Some (Json.Bool true, rest) /\
  Json.parse_value (S f) d (lit "false" ++ rest) =
    Some (Json.Bool false, rest).
Proof. repeat split. Qed.

Lemma parse_value_number (f : nat) (d : Z) (l rest : bytes) :
  Grammar.number l -> Grammar.delimited rest ->
  Json.parse_value (S f) d (l ++ rest) = Some (Json.Number l, rest).
Proof.
  intros N D. pose proof (scan_number_complete l rest N D) as E.
  destruct (number_head l N) as (c & tl & -> & H).
  cbn [app] in *. cbn [Json.parse_value].
  destruct H as [->|H].
  - rewrite skip_space_stop by reflexivity.
    change (Ascii.eqb "-" "{") with false.
    change (Ascii.eqb "-" "[") with false.
    change (Ascii.eqb "-" dq) with false.
    change (Ascii.eqb "-" "-") with true.
    cbv iota. cbn [orb]. now rewrite E.
  - destruct (digit_not_punct c H) as (S1 & S2 & S3 & S4).
    rewrite skip_space_stop by assumption.
    rewrite S2, S3, S4, H, orb_true_r. now rewrite E.
Qed.

Lemma parse_value_string (f : nat) (d : Z) (raw rest : bytes) :
  Grammar.chars raw ->
  Json.parse_value (S f) d (dq :: raw ++ dq :: rest) =
  Some (Json.Str raw, rest).
Proof.
  intros C. cbn [Json.parse_value].
  rewrite skip_space_stop by reflexivity.
  change (Ascii.eqb dq "{") with false.
  change (Ascii.eqb dq "[") with false.
  change (Ascii.eqb dq dq) with true.
  cbv iota. now rewrite scan_string_complete.
Qed.

Lemma parse_value_empty_array (f : nat) (d : Z) (w rest : bytes) :
  d < Json.maxNestingDepth -> Grammar.ws w ->
  Json.parse_value (S f) d ("["%char :: w ++ "]"%char :: rest) =
  Some (Json.Array [], rest).
Proof.
  intros Hd W. cbn [Json.parse_value].
  rewrite skip_space_stop by reflexivity.
  change (Ascii.eqb "[" "{") with false.
  change (Ascii.eqb "[" "[") with true.
  cbv iota.
  destruct (Z.leb_spec Json.maxNestingDepth d); [lia|].
  rewrite skip_space_ws, skip_space_stop by (assumption || reflexivity).
  reflexivity.
Qed.

Lemma parse_value_empty_object (f : nat) (d : Z) (w rest : bytes) :
  d < Json.maxNestingDepth -> Grammar.ws w ->
  Json.parse_value (S f) d ("{"%char :: w ++ "}"%char :: rest) =
  Some (Json.Object [], rest).
Proof.
  intros Hd W. cbn [Json.parse_value].
  rewrite skip_space_stop by reflexivity.
  change (Ascii.eqb "{" "{") with true.
  cbv iota.
  destruct (Z.leb_spec Json.maxNestingDepth d); [lia|].
  rewrite skip_space_ws, skip_space_stop by (assumption || reflexivity).
  reflexivity.
Qed.

Lemma parse_value_array (f : nat) (d : Z) (s rest : bytes)
  (vs : list Json.value) :
  d < Json.maxNestingDepth -> Grammar.elements (d + 1) s vs ->
  Json.parse_elements f (d + 1) (s ++ "]"%char :: rest) = Some (vs, rest) ->
  Json.parse_value (S f) d ("["%char :: s ++ "]"%char :: rest) =
  Some (Json.Array vs, rest).
Proof.
  intros Hd E P. cbn [Json.parse_value].
  rewrite skip_space_stop by reflexivity.
  change (Ascii.eqb "[" "{") with false.
  change (Ascii.eqb "[" "[") with true.
  cbv iota.
  destruct (Z.leb_spec Json.maxNestingDepth d); [lia|].
  destruct (elements_head (d + 1) s vs ("]"%char :: rest) E)
    as (c & r & K & N).
  rewrite <- parse_elements_skip, K in P.
  now rewrite K, N, P.
Qed.

Lemma parse_value_object (f : nat) (d : Z) (s rest : bytes)
  (ms : list (bytes * Json.value)) :
  d < Json.maxNestingDepth -> Grammar.members (d + 1) s ms ->
  Json.parse_members f (d + 1) (s ++ "}"%char :: rest) = Some (ms, rest) ->
  Json.parse_value (S f) d ("{"%char :: s ++ "}"%char :: rest) =
  Some (Json.Object ms, rest).
Proof.
  intros Hd M P. cbn [Json.parse_value].
  rewrite skip_space_stop by reflexivity.
  change (Ascii.eqb "{" "{") with true.
  cbv iota.
  destruct (Z.leb_spec Json.maxNestingDepth d); [lia|].
  destruct (members_head (d + 1) s ms ("}"%char :: rest) M)
    as (c & r & K & N).
  rewrite <- parse_members_skip, K in P.
  now rewrite K, N, P.
Qed.

Lemma parse_elements_last (f : nat) (d : Z) (s w2 rest : bytes)
  (v : Json.value) :
  Json.parse_value f d s = Some (v, w2 ++ "]"%char :: rest) ->
  Grammar.ws w2 ->
  Json.parse_elements (S f) d s = Some ([v], rest).
Proof.
  intros P W. cbn [Json.parse_elements]. rewrite P.
  rewrite skip_space_ws, skip_space_stop by (assumption || reflexivity).
  reflexivity.
Qed.

Lemma parse_elements_more (f : nat) (d : Z) (s w2 s' rest : bytes)
  (v : Json.value) (vs : list Json.value) :
  Json.parse_value f d s = Some (v, w2 ++ ","%char :: s') ->
  Grammar.ws w2 ->
  Json.parse_elements f d s' = Some (vs, rest) ->
  Json.parse_elements (S f) d s = Some (v :: vs, rest).
Proof.
  intros P W Q. cbn [Json.parse_elements]. rewrite P.
  rewrite skip_space_ws, skip_space_stop by (assumption || reflexivity).
  change (Ascii.eqb "," "]") with false.
  change (Ascii.eqb "," ",") with true.
  cbv iota. now rewrite Q.
Qed.

Lemma parse_members_key (f : nat) (d : Z) (w1 key w2 s : bytes) :
  Grammar.ws w1 -> Grammar.chars key -> Grammar.ws w2 ->
  Json.parse_members (S f) d (w1 ++ dq :: key ++ dq :: w2 ++ ":"%char :: s) =
  match Json.parse_value f d s with
  | Some (v, r3) =>
      match Json.skip_space r3 with
      | c4 :: r4 =>
          if Ascii.eqb c4 "}" then Some ([(key, v)], r4)
          else if Ascii.eqb c4 "," then
            match Json.parse_members f d r4 with
            | Some (ms, rest) => Some ((key, v) :: ms, rest)
            | None => None
            end
          else None
      | [] => None
      end
  | None => None
  end.
Proof.
  intros W1 C W2. cbn [Json.parse_members].
  rewrite skip_space_ws, skip_space_stop by (assumption || reflexivity).
  change (Ascii.eqb dq dq) with true. cbv iota.
  rewrite scan_string_complete by assumption.
  rewrite skip_space_ws, skip_space_stop by (assumption || reflexivity).
  change (Ascii.eqb ":" ":") with true. cbv iota.
  reflexivity.
Qed.

Lemma parse_members_last (f : nat) (d : Z) (w1 key w2 s w4 rest : bytes)
  (v : Json.value) :
  Grammar.ws w1 -> Grammar.chars key -> Grammar.ws w2 ->
  Json.parse_value f d s = Some (v, w4 ++ "}"%char :: rest) ->
  Grammar.ws w4 ->
  Json.parse_members (S f) d (w1 ++ dq :: key ++ dq :: w2 ++ ":"%char :: s) =
  Some ([(key, v)], rest).
Proof.
  intros W1 C W2 P W4. rewrite parse_members_key by assumption. rewrite P.
  rewrite skip_space_ws, skip_space_stop by (assumption || reflexivity).
  reflexivity.
Qed.

Lemma parse_members_more (f : nat) (d : Z) (w1 key w2 s w4 s' rest : bytes)
  (v : Json.value) (ms : list (bytes * Json.value)) :
  Grammar.ws w1 -> Grammar.chars key -> Grammar.ws w2 ->
  Json.parse_value f d s = Some (v, w4 ++ ","%char :: s') ->
  Grammar.ws w4 ->
  Json.parse_members f d s' = Some (ms, rest) ->
  Json.parse_members (S f) d (w1 ++ dq :: key ++ dq :: w2 ++ ":"%char :: s) =
  Some ((key, v) :: ms, rest).
Proof.
  intros W1 C W2 P W4 Q. rewrite parse_members_key by assumption. rewrite P.
  rewrite skip_space_ws, skip_space_stop by (assumption || reflexivity).
  change (Ascii.eqb "," "}") with false.
  change (Ascii.eqb "," ",") with true.
  cbv iota. now rewrite Q.
Qed.

(** *** Every text of the grammar is parsed *)

Lemma parse_value_fuel (f F : nat) (d : Z) (s rest : bytes) (v : Json.value) :
  Json.parse_value f d s = Some (v, rest) -> (length s <= F)%nat ->
  Json.parse_value F d s = Some (v, rest).
Proof.
  intros H L. apply (proj1 (parse_adequate f) d s v rest F H). lia.
Qed.

Lemma parse_members_fuel (f F : nat) (d : Z) (s rest : bytes)
  (ms : list (bytes * Json.value)) :
  Json.parse_members f d s = Some (ms, rest) -> (length s <= F)%nat ->
  Json.parse_members F d s = Some (ms, rest).
Proof.
  intros H L.
  apply (proj1 (proj2 (parse_adequate f)) d s ms rest F H). lia.
Qed.

Lemma parse_elements_fuel (f F : nat) (d : Z) (s rest : bytes)
  (vs : list Json.value) :
  Json.parse_elements f d s = Some (vs, rest) -> (length s <= F)%nat ->
  Json.parse_elements F d s = Some (vs, rest).
Proof.
  intros H L.
  apply (proj2 (proj2 (parse_adequate f)) d s vs rest F H). lia.
Qed.

Ltac length_le := repeat (rewrite ?length_app; cbn [length]); lia.

Lemma parse_complete :
  (forall d t v,
      Grammar.value d t v ->
      forall rest, Grammar.delimited rest ->
      exists f, Json.parse_value f d (t ++ rest) = Some (v, rest)) /\
  (forall d s vs,
      Grammar.elements d s vs ->
      forall rest, exists f,
        Json.parse_elements f d (s ++ "]"%char :: rest) = Some (vs, rest)) /\
  (forall d s ms,
      Grammar.members d s ms ->
      forall rest, exists f,
        Json.parse_members f d (s ++ "}"%char :: rest) = Some (ms, rest)).
Proof.
  apply grammar_mutind.
  - intros d rest _. exists 1%nat. apply parse_value_literal.
  - intros d rest _. exists 1%nat. apply parse_value_literal.
  - intros d rest _. exists 1%nat. apply parse_value_literal.
  - intros d l N rest D. exists 1%nat. now apply parse_value_number.
  - intros d raw C rest _. exists 1%nat.
    cbn [app]. rewrite <- app_assoc. cbn [app].
    now apply parse_value_string.
  - intros d w Hd W rest _. exists 1%nat.
    cbn [app]. rewrite <- app_assoc. cbn [app].
    now apply parse_value_empty_array.
  - intros d s vs Hd E IH rest _. destruct (IH rest) as (f & P).
    exists (S f). cbn [app]. rewrite <- app_assoc. cbn [app].
    now apply parse_value_array.
  - intros d w Hd W rest _. exists 1%nat.
    cbn [app]. rewrite <- app_assoc. cbn [app].
    now apply parse_value_empty_object.
  - intros d s ms Hd M IH rest _. destruct (IH rest) as (f & P).
    exists (S f). cbn [app]. rewrite <- app_assoc. cbn [app].
    now apply parse_value_object.
  - intros d w1 t w2 v W1 V IH W2 rest.
    destruct (IH (w2 ++ "]"%char :: rest)) as (f & P).
    { apply delimited_ws; auto. }
    exists (S f).
    apply parse_elements_last with (w2 := w2); [|assumption].
    rewrite <- !app_assoc, parse_value_ws by assumption.
    etransitivity; [|exact P]. f_equal.
  - intros d w1 t w2 v s vs W1 V IHv W2 E IHe rest.
    destruct (IHv (w2 ++ ","%char :: s ++ "]"%char :: rest)) as (f1 & P).
    { apply delimited_ws; auto. }
    destruct (IHe rest) as (f2 & Q).
    remember (length ((w1 ++ t ++ w2 ++ ","%char :: s) ++ "]"%char :: rest))
      as F eqn:EF.
    exists (S F).
    apply parse_elements_more
      with (w2 := w2) (s' := s ++ "]"%char :: rest); [|assumption|].
    + rewrite <- !app_assoc, parse_value_ws by assumption.
      repeat (rewrite <- ?app_assoc; cbn [app]).
      apply (parse_value_fuel f1); [exact P|].
      subst F. length_le.
    + apply (parse_elements_fuel f2); [exact Q|].
      subst F. length_le.
  - intros d w1 key w2 w3 t w4 v W1 C W2 W3 V IH W4 rest.
    destruct (IH (w4 ++ "}"%char :: rest)) as (f & P).
    { apply delimited_ws; auto. }
    exists (S f).
    replace ((w1 ++ dq :: key ++ dq :: w2 ++ ":"%char :: w3 ++ t ++ w4)
               ++ "}"%char :: rest)
      with (w1 ++ dq :: key ++ dq :: w2 ++ ":"%char
               :: (w3 ++ t ++ w4 ++ "}"%char :: rest)) by app_norm.
    apply parse_members_last with (w4 := w4); try assumption.
    now rewrite parse_value_ws.
  - intros d w1 key w2 w3 t w4 v s ms W1 C W2 W3 V IHv W4 M IHm rest.
    destruct (IHv (w4 ++ ","%char :: s ++ "}"%char :: rest)) as (f1 & P).
    { apply delimited_ws; auto. }
    destruct (IHm rest) as (f2 & Q).
    remember (length (t ++ w4 ++ ","%char :: s ++ "}"%char :: rest))
      as F eqn:EF.
    exists (S F).
    replace ((w1 ++ dq :: key ++ dq :: w2 ++ ":"%char :: w3 ++ t ++ w4
                 ++ ","%char :: s) ++ "}"%char :: rest)
      with (w1 ++ dq :: key ++ dq :: w2 ++ ":"%char
               :: (w3 ++ t ++ w4 ++ ","%char :: s ++ "}"%char :: rest))
      by app_norm.
    apply parse_members_more
      with (w4 := w4) (s' := s ++ "}"%char :: rest); try assumption.
    + rewrite parse_value_ws by assumption.
      apply (parse_value_fuel f1); [exact P|]. subst F. lia.
    + apply (parse_members_fuel f2); [exact Q|].
      subst F. length_le.
Qed.

Lemma skip_space_nil (w : bytes) :
  Json.skip_space w = [] <-> Grammar.ws w.
Proof.
  split.
  - intros H. destruct (skip_space_split w) as (w' & W & E).
    rewrite H, app_nil_r in E. now subst.
  - intros W. rewrite <- (app_nil_r w). now rewrite skip_space_ws.
Qed.

(** Json.parse accepts exactly the JSON texts of the grammar, and gives
    the value the grammar reads in them. *)
Lemma parse_iff_text (data : bytes) (v : Json.value) :
  Json.parse data = Some v <-> Grammar.text data v.
Proof.
  rewrite parse_some_fuel. split.
  - intros (f & rest & P & R).
    apply (proj1 (parse_sound f)) in P as (w & t & W & V & E).
    exists w, t, rest. repeat split; try assumption.
    now apply skip_space_nil.
  - intros (w1 & t & w2 & E & W1 & V & W2).
    destruct (proj1 parse_complete 0 t v V w2) as (f & P).
    { destruct W2 as [|c w C _]; cbn [Grammar.delimited]; auto. }
    exists f, w2. split; [|now apply skip_space_nil].
    subst data. now rewrite parse_value_ws.
Qed.

(* ===================================================================== *)
(** ** decode against the JSON grammar                                   *)
(* ===================================================================== *)

(** The nesting limit: an object around 9999 arrays is a JSON text the
    decoder accepts, around 10000 arrays it is a syntax error; an array
    nested 10000 deep is still scanned, and is no object, and one nested
    10001 deep is a syntax error. *)
Example decode_nesting_limit :
  let arrays (n : Z) := nested (Z.to_nat n) [] in
  let member (v : bytes) :=
    "{"%char :: dq :: "a"%char :: dq :: ":"%char :: v ++ ["}"%char] in
  decode newAccount (member (arrays 9999)) = (newAccount, None) /\
  decode newAccount (member (arrays 10000)) =
    (newAccount, Some SyntaxError) /\
  decode newAccount (arrays 10000) =
    (newAccount, Some UnmarshalTypeError) /\
  decode newAccount (arrays 10001) = (newAccount, Some SyntaxError).
Proof. repeat split; vm_compute; reflexivity. Qed.

Lemma store_int64_kind (v : Json.value) (cur : Z) :
  snd (Json.store_int64 v cur) = None \/
  snd (Json.store_int64 v cur) = Some UnmarshalTypeError.
Proof.
  destruct v; cbn [Json.store_int64 snd]; auto.
  destruct (Strconv.ParseInt literal); cbn [snd]; auto.
Qed.

Lemma object_fields_kind (ms : list (bytes * Json.value)) :
  forall (cur : Z) (saved : option error),
    saved = None \/ saved = Some UnmarshalTypeError ->
    snd (Json.object_fields field_Balance ms cur saved) = None \/
    snd (Json.object_fields field_Balance ms cur saved) =
      Some UnmarshalTypeError.
Proof.
  induction ms as [|[k v] ms IH]; intros cur saved H;
    cbn [Json.object_fields].
  - exact H.
  - destruct (Json.field_matches field_Balance (Json.unquote k));
      [|now apply IH].
    pose proof (store_int64_kind v cur) as K.
    destruct (Json.store_int64 v cur) as [cur' e]. cbn [snd] in K.
    apply IH. destruct H as [->| ->]; cbn [Json.saveError]; auto.
Qed.

(** C3, amended.  decode fails on every byte sequence that is not a JSON
    text (the grammar of RFC 8259 with arrays and objects nested at most
    10000 deep), with a syntax error; on every JSON text that is neither
    an object nor null, with a type error; and on every object with a
    member named Balance (letter case ignored) that holds something else
    than null or an integer literal in the int64 range, with a type
    error.  It does not fail on an object without a member named
    Balance, such as [{}], nor on null: it returns no error and leaves
    the balance of the receiver as it was. *)
Theorem decode_fails_on_unparsable (a : Account) (b : bytes) :
  ((forall v, ~ Grammar.text b v) -> decode a b = (a, Some SyntaxError)) /\
  (forall v,
      Grammar.text b v -> object_or_null v = false ->
      decode a b = (a, Some UnmarshalTypeError)) /\
  (forall members,
      Grammar.text b (Json.Object members) ->
      forallb acceptable_member members = false ->
      snd (decode a b) = Some UnmarshalTypeError) /\
  (forall members,
      Grammar.text b (Json.Object members) ->
      forallb (fun member => negb (names_Balance member)) members = true ->
      decode a b = (a, None)) /\
  (Grammar.text b Json.Null -> decode a b = (a, None)).
Proof.
  destruct a as [cur]. unfold decode, Json.Unmarshal. cbn [Balance].
  split; [|split; [|split; [|split]]].
  - intros N. destruct (Json.parse b) as [v|] eqn:P; [|reflexivity].
    apply parse_iff_text in P. now destruct (N v).
  - intros v T O. apply parse_iff_text in T. rewrite T.
    destruct v; try discriminate; reflexivity.
  - intros ms T F. apply parse_iff_text in T. rewrite T.
    cbn [Json.unmarshal_struct].
    pose proof (object_fields_error ms cur None) as E.
    pose proof (object_fields_kind ms cur None (or_introl eq_refl)) as K.
    destruct (Json.object_fields field_Balance ms cur None) as [n e].
    cbn [snd] in *. destruct K as [K|K]; [|exact K].
    apply E in K as [_ K]. congruence.
  - intros ms T L. apply parse_iff_text in T. rewrite T.
    cbn [Json.unmarshal_struct]. now rewrite object_fields_skip.
  - intros T. apply parse_iff_text in T. now rewrite T.
Qed.

Lemma decode_fails_on_unparsable_witness :
  let balance (v : bytes) :=
    "{"%char :: dq :: lit "balance" ++ dq :: ":"%char :: v ++ ["}"%char] in
  decode newAccount (lit "Balance: 5") = (newAccount, Some SyntaxError) /\
  decode newAccount (lit "[1000]") = (newAccount, Some UnmarshalTypeError) /\
  snd (decode newAccount (balance (lit "1.5"))) = Some UnmarshalTypeError /\
  decode newAccount (lit "{ }") = (newAccount, None) /\
  decode newAccount (lit "null") = (newAccount, None).
Proof.
  intros balance. split; [|split; [|split; [|split]]].
  - apply (proj1 (decode_fails_on_unparsable newAccount (lit "Balance: 5"))).
    intros v T. apply parse_iff_text in T. vm_compute in T. discriminate.
  - apply (proj1 (proj2 (decode_fails_on_unparsable newAccount (lit "[1000]")))
             (Json.Array [Json.Number (lit "1000")])).
    + apply parse_iff_text. vm_compute. reflexivity.
    + reflexivity.
  - apply (proj1 (proj2 (proj2 (decode_fails_on_unparsable newAccount
                                   (balance (lit "1.5")))))
             [(lit "balance", Json.Number (lit "1.5"))]).
    + apply parse_iff_text. vm_compute. reflexivity.
    + vm_compute. reflexivity.
  - apply (proj1 (proj2 (proj2 (proj2 (decode_fails_on_unparsable newAccount
                                          (lit "{ }")))))
             []).
    + apply parse_iff_text. vm_compute. reflexivity.
    + reflexivity.
  - apply (proj2 (proj2 (proj2 (proj2 (decode_fails_on_unparsable newAccount
                                          (lit "null")))))).
    apply parse_iff_text. vm_compute. reflexivity.
Defined.

(* ===================================================================== *)
(** ** The transfer counter                                              *)
(* ===================================================================== *)

(** C2, amended.  Whatever the client, with or without a transaction: a
    round whose two drawn accounts are the same makes no attempt and
    leaves the bank, counter included, as it was.  Otherwise the round
    follows what the transfer function returns.  When it panics or
    returns an error, the process ends with that, and nothing is
    counted.  When it returns nil, the counter is incremented by one
    (atomic.AddInt32, wrapping at 32 bits) and the round goes on with the
    store the attempt left, except that under use-transaction a commit
    that fails ends the process instead.  A skipped attempt returns nil:
    over the in-memory store, when the amount exceeds the balance of the
    source account the round leaves the store as it was and counts the
    attempt. *)
Theorem counter_counts_nil_attempts (runner : Runner) (useTransaction : bool)
  (bank : Bank) (draw_from draw_to exchangeAmount : Z) :
  let from := makeAccountID draw_from in
  let to := makeAccountID draw_to in
  let round (r : Runner) :=
    continuousMoneyTransfer r useTransaction bank draw_from draw_to
      exchangeAmount in
  let counted (st : store) :=
    Done {| db := st;
            numAccounts := numAccounts bank;
            numTransfers := Int32.add (numTransfers bank) 1 |} in
  (from = to -> round runner = Done bank) /\
  (from <> to ->
   match transferMoney runner from to exchangeAmount (db bank) with
   | Fatal f => round runner = Fatal f
   | Done (_, Some e, _) => round runner = Fatal (FatalError e)
   | Done (_, None, st) =>
       round runner =
       if useTransaction then
         match Commit runner st with
         | Some e => Fatal (FatalError e)
         | None => counted st
         end
       else counted st
   end) /\
  (forall b,
      from <> to -> balanceOf (db bank) draw_from = Some b ->
      b < exchangeAmount ->
      transferMoney memory from to exchangeAmount (db bank) =
        Done (tt, None, db bank) /\
      round memory = counted (db bank)).
Proof.
  intros from to round counted. subst round counted from to.
  split; [|split].
  - intros E. apply equal_true in E.
    unfold continuousMoneyTransfer. now rewrite E.
  - intros N. apply equal_false in N.
    unfold continuousMoneyTransfer, Tx. rewrite N.
    destruct (transferMoney runner _ _ _ _) as [[[u [e|]] st]|f];
      destruct useTransaction; try reflexivity.
    destruct (Commit runner st); reflexivity.
  - intros b N Hb Hlt. apply read_balanceOf in Hb.
    assert (L : (b <? exchangeAmount) = true) by now apply Z.ltb_lt.
    split.
    + rewrite transferMoney_memory, Hb. cbn [Balance]. now rewrite L.
    + rewrite continuousMoneyTransfer_memory, Hb by assumption.
      cbn [Balance]. now rewrite L.
Qed.

Lemma counter_counts_nil_attempts_witness :
  continuousMoneyTransfer memory true scenarioB 1 1 75 = Done scenarioB /\
  continuousMoneyTransfer memory true scenarioB 0 1 75 =
    Done {| db := db scenarioB; numAccounts := 2; numTransfers := 1 |} /\
  continuousMoneyTransfer memory false scenarioB 0 1 25 =
    Done {| db := insert (record 25) (record 1025) (db scenarioB);
            numAccounts := 2; numTransfers := 1 |} /\
  continuousMoneyTransfer memory true scenarioB 2 0 75 =
    Fatal (FatalError SyntaxError) /\
  continuousMoneyTransfer uncommitted true scenarioB 0 1 75 =
    Fatal (FatalError (ClientError 1)) /\
  continuousMoneyTransfer uncommitted false scenarioB 0 1 75 =
    Done {| db := db scenarioB; numAccounts := 2; numTransfers := 1 |}.
Proof.
  split; [|split; [|split; [|split; [|split]]]].
  - apply (proj1 (counter_counts_nil_attempts memory true scenarioB 1 1 75)).
    reflexivity.
  - apply (proj2 (proj2 (counter_counts_nil_attempts memory true scenarioB
                           0 1 75)) 50).
    + vm_compute. discriminate.
    + vm_compute. reflexivity.
    + lia.
  - pose proof (proj1 (proj2 (counter_counts_nil_attempts memory false
                                scenarioB 0 1 25))) as H.
    cbv zeta in H. rewrite H; [vm_compute; reflexivity|].
    vm_compute. discriminate.
  - pose proof (proj1 (proj2 (counter_counts_nil_attempts memory true
                                scenarioB 2 0 75))) as H.
    cbv zeta in H. rewrite H; [vm_compute; reflexivity|].
    vm_compute. discriminate.
  - pose proof (proj1 (proj2 (counter_counts_nil_attempts uncommitted true
                                scenarioB 0 1 75))) as H.
    cbv zeta in H. rewrite H; [vm_compute; reflexivity|].
    vm_compute. discriminate.
  - pose proof (proj1 (proj2 (counter_counts_nil_attempts uncommitted false
                                scenarioB 0 1 75))) as H.
    cbv zeta in H. rewrite H; [vm_compute; reflexivity|].
    vm_compute. discriminate.
Defined.

(* ===================================================================== *)
(** ** The balance check and the sum of the balances                     *)
(* ===================================================================== *)



